(** * svgg: the SVG path-data parser of util.go, embedded in Rocq

    The development follows the Go source function by function.  A Go
    string is a byte string; [range] decodes it rune by rune the way
    the Go runtime does.  A Go [int] is a [Z]: the indices at hand are
    bounded by the length of a string or slice, far from the 64-bit
    limits.  The parser is a mutable struct reached through a pointer
    receiver: every method becomes a function from the parser state to
    the new state together with its outcome (normal return, error return
    or panic), so that the state, and the drawing calls already issued,
    survive an error return.

    What lies outside the repository is taken as an interface:
    [strconv.ParseFloat], float64 arithmetic and the Unicode range
    tables above Latin-1 are the fields of the class [GoRuntime], over
    the types of float64 values and of strconv errors; the drawing
    context [*gg.Context] is represented by the history of the calls
    made on it, the standard logger by the lines handed to it.  The
    theorems hold for every such runtime.

    The functions [reflect], [reflectControlQuad], [reflectControlCube],
    [EllipseAt] and [AddArcFromA] are not reached from CompilePath (their
    only callers are commented out); they come after the parser, the
    float64 operations of [reflect] being the fields of the class
    [GoArith].

    Contents: Go strings and package unicode; methods as state passing;
    the runtime interface; the parser (section [Svgg]) with the
    vocabulary of the statements; the rest of util.go and further
    vocabulary; a reference runtime; then the proofs: facts about
    strings, sequencing, the cuts the scanning loops make, tokens, the
    number tokenizer (C1, C2), frames, the switch of addSeg case by case,
    the dispatcher and CompilePath (C3 to C10); the functions taken one
    by one, the tokenizer and the splitter as wholes, what CompilePath
    leaves alone (X1 to X26); and the examples. *)

From Stdlib Require Import ZArith QArith Ascii String Bool Lia.
From stdpp Require Import base list.

Local Open Scope string_scope.
Local Open Scope list_scope.
Local Open Scope Z_scope.

(** ** Go strings: bytes, slicing and [range] *)

Module GoString.

Definition byte := ascii.
Definition rune := Z.

Definition byte_val (c : byte) : Z := Z.of_N (N_of_ascii c).

(** A rune literal such as ['e'] in the source. *)
Definition rune_of (c : ascii) : rune := byte_val c.

Definition len (s : string) : Z := Z.of_nat (String.length s).

(** [s[a:b]]; the Go runtime panics unless [0 <= a <= b <= len(s)]. *)
Definition slice (s : string) (a b : Z) : option string :=
  if (0 <=? a) && (a <=? b) && (b <=? len s)
  then Some (String.substring (Z.to_nat a) (Z.to_nat (b - a)) s)
  else None.

Fixpoint drop_bytes (n : nat) (s : string) : string :=
  match n, s with
  | O, _ => s
  | S n', String _ s' => drop_bytes n' s'
  | S _, EmptyString => EmptyString
  end.

(** [strings.HasSuffix] and [strings.TrimSuffix]. *)
Definition HasSuffix (s suffix : string) : bool :=
  (String.length suffix <=? String.length s)%nat
  && String.eqb (drop_bytes (String.length s - String.length suffix) s) suffix.

Definition TrimSuffix (s suffix : string) : string :=
  if HasSuffix s suffix
  then String.substring 0 (String.length s - String.length suffix) s
  else s.

Definition RuneError : rune := 65533.

Definition in_range (lo hi b : Z) : bool := (lo <=? b) && (b <=? hi).

(** [utf8.DecodeRuneInString]: the first rune of [s] and its width in
    bytes; an invalid or truncated encoding is [RuneError] of width 1. *)
Definition DecodeRune (s : string) : rune * nat :=
  match s with
  | EmptyString => (RuneError, 0%nat)
  | String c0 t =>
    let b0 := byte_val c0 in
    if b0 <? 128 then (b0, 1%nat)
    else if b0 <? 194 then (RuneError, 1%nat)
    else if b0 <? 224 then
      match t with
      | String c1 _ =>
        let b1 := byte_val c1 in
        if in_range 128 191 b1
        then (Z.lor (Z.shiftl (Z.land b0 31) 6) (Z.land b1 63), 2%nat)
        else (RuneError, 1%nat)
      | _ => (RuneError, 1%nat)
      end
    else if b0 <? 240 then
      match t with
      | String c1 (String c2 _) =>
        let b1 := byte_val c1 in
        let b2 := byte_val c2 in
        let lo := if b0 =? 224 then 160 else 128 in
        let hi := if b0 =? 237 then 159 else 191 in
        if in_range lo hi b1 && in_range 128 191 b2
        then (Z.lor (Z.shiftl (Z.land b0 15) 12)
                (Z.lor (Z.shiftl (Z.land b1 63) 6) (Z.land b2 63)), 3%nat)
        else (RuneError, 1%nat)
      | _ => (RuneError, 1%nat)
      end
    else if b0 <? 245 then
      match t with
      | String c1 (String c2 (String c3 _)) =>
        let b1 := byte_val c1 in
        let b2 := byte_val c2 in
        let b3 := byte_val c3 in
        let lo := if b0 =? 240 then 144 else 128 in
        let hi := if b0 =? 244 then 143 else 191 in
        if in_range lo hi b1 && in_range 128 191 b2 && in_range 128 191 b3
        then (Z.lor (Z.shiftl (Z.land b0 7) 18)
                (Z.lor (Z.shiftl (Z.land b1 63) 12)
                   (Z.lor (Z.shiftl (Z.land b2 63) 6) (Z.land b3 63))), 4%nat)
        else (RuneError, 1%nat)
      | _ => (RuneError, 1%nat)
      end
    else (RuneError, 1%nat)
  end.

(** [for i, r := range s]: the pairs (byte offset, rune) in order.
    [skip] counts the bytes of the current rune still to be passed. *)
Fixpoint range_from (skip : nat) (i : Z) (s : string) : list (Z * rune) :=
  match s with
  | EmptyString => []
  | String _ t =>
    match skip with
    | S k => range_from k (i + 1) t
    | O =>
      let '(r, w) := DecodeRune s in
      (i, r) :: range_from (Nat.pred w) (i + 1) t
    end
  end.

Definition range (s : string) : list (Z * rune) := range_from 0 0 s.

(** An offset moved by [n] bytes, with what is attached to it. *)
Definition shift (n : Z) (ir : Z * Z) : Z * Z := (fst ir + n, snd ir).

(** Offsets that grow strictly and stay within [lo, hi). *)
Fixpoint ascending (lo hi : Z) (rs : list (Z * rune)) : Prop :=
  match rs with
  | [] => True
  | (i, _) :: rs' => lo <= i < hi /\ ascending (i + 1) hi rs'
  end.

(** A cut that takes at least one byte of a string of [n] bytes. *)
Definition proper_cut (n : Z) (c : Z * Z) : Prop :=
  0 <= fst c < snd c /\ snd c <= n.

(** A cut that lies within a string of [n] bytes. *)
Definition valid_cut (n : Z) (c : Z * Z) : Prop :=
  0 <= fst c <= snd c /\ snd c <= n.

(** A cut moved by [n] bytes. *)
Definition shift_cut (n : Z) (c : Z * Z) : Z * Z := (fst c + n, snd c + n).

(** [string(k)] for a byte [k]: the UTF-8 encoding of the code point. *)
Definition string_of_byte (k : byte) : string :=
  let b := byte_val k in
  if b <? 128 then String k EmptyString
  else String (ascii_of_N (Z.to_N (Z.lor 192 (Z.shiftr b 6))))
         (String (ascii_of_N (Z.to_N (Z.lor 128 (Z.land b 63)))) EmptyString).

End GoString.
Export GoString.

(** ** Package unicode *)

Module Unicode.

(** The Latin-1 part of the property table of package unicode. *)
Definition latin1_letter (r : rune) : bool :=
  in_range 65 90 r || in_range 97 122 r
  || (r =? 170) || (r =? 181) || (r =? 186)
  || in_range 192 214 r || in_range 216 246 r || in_range 248 255 r.

Definition latin1_number (r : rune) : bool :=
  in_range 48 57 r || (r =? 178) || (r =? 179) || (r =? 185)
  || in_range 188 190 r.

End Unicode.
Export Unicode.

(** ** Methods with a pointer receiver: state passing with an outcome

    A method returns normally, returns an error, or panics; in each case
    the receiver keeps the mutations made so far. *)

Module StateOutcome.

Inductive outcome (E A : Type) :=
| Ok (a : A)
| Err (e : E)
| Panic.
Arguments Ok {E A} a.
Arguments Err {E A} e.
Arguments Panic {E A}.

Definition SE (S E A : Type) := S -> S * outcome E A.

Section Ops.
Context {S E : Type}.

Definition ret {A} (a : A) : SE S E A := fun p => (p, Ok a).
Definition fail {A} (e : E) : SE S E A := fun p => (p, Err e).
Definition panic {A} : SE S E A := fun p => (p, Panic).
Definition bind {A B} (m : SE S E A) (k : A -> SE S E B) : SE S E B :=
  fun p =>
    match m p with
    | (p', Ok a) => k a p'
    | (p', Err e) => (p', Err e)
    | (p', Panic) => (p', Panic)
    end.
Definition modify (f : S -> S) : SE S E unit := fun p => (f p, Ok tt).
Definition gets {A} (f : S -> A) : SE S E A := fun p => (p, Ok (f p)).

(** An indexing or slicing expression that may panic. *)
Definition checked {A} (o : option A) : SE S E A :=
  match o with
  | Some a => ret a
  | None => panic
  end.

(** Running a method on each element of a list in turn, stopping at the
    first error: the shape of the three scanning loops once the places
    where they cut the string are known. *)
Fixpoint for_each {A} (f : A -> SE S E unit) (l : list A) : SE S E unit :=
  match l with
  | [] => ret tt
  | x :: rest => bind (f x) (fun _ => for_each f rest)
  end.

(** [m] does not panic. *)
Definition panic_free {A} (m : SE S E A) : Prop :=
  forall p p', m p <> (p', Panic).

(** Every run of [m] relates the state before to the state after. *)
Definition respects {A} (R : S -> S -> Prop) (m : SE S E A) : Prop :=
  forall p p' o, m p = (p', o) -> R p p'.

(** [m] does not return an error (it returns normally or panics). *)
Definition err_free {A} (m : SE S E A) : Prop :=
  forall p p' e, m p <> (p', Err e).

(** The only errors [m] returns are those in [P]. *)
Definition fails_only {A} (P : E -> Prop) (m : SE S E A) : Prop :=
  forall p p' e, m p = (p', Err e) -> P e.

End Ops.

Declare Scope go_scope.
Delimit Scope go_scope with go.
Notation "x <- c1 ;; c2" := (bind c1 (fun x => c2))
  (at level 100, c1 at next level, right associativity) : go_scope.
Notation "c1 ;; c2" := (bind c1 (fun _ => c2))
  (at level 100, right associativity) : go_scope.

End StateOutcome.
Export StateOutcome.

(** ** What the Go runtime and standard library provide *)

Class GoRuntime (float64 NumError : Type) := {
  (** the constant [0.0] *)
  f64_zero : float64;
  (** [x + y] on float64 *)
  f64_add : float64 -> float64 -> float64;
  (** [strconv.ParseFloat(s, bitSize)], with the error value of package
      strconv *)
  ParseFloat : string -> Z -> float64 + NumError;
  (** the range tables [unicode.Letter] and [unicode.Number] above
      Latin-1 *)
  Letter_table : rune -> bool;
  Number_table : rune -> bool
}.

Section Svgg.

Context {float64 NumError : Type} `{RT : GoRuntime float64 NumError}.

Definition IsLetter (r : rune) : bool :=
  if in_range 0 255 r then latin1_letter r else Letter_table r.

Definition IsNumber (r : rune) : bool :=
  if in_range 0 255 r then latin1_number r else Number_table r.

(** *** util.go, first part: unit suffixes *)

Definition unitSuffixes : list string := ["cm"; "mm"; "px"; "pt"].

Definition is_digit_byte (c : byte) : bool := in_range 48 57 (byte_val c).

Definition last_byte (a : string) : option byte :=
  String.get (String.length a - 1) a.

Definition trimSuffixes (a : string) : string :=
  match last_byte a with
  | None => a
  | Some c =>
    if is_digit_byte c then a
    else fold_left (fun b v => TrimSuffix b v) unitSuffixes a
  end.

Definition parseFloat (s : string) (bitSize : Z) : float64 + NumError :=
  let val := trimSuffixes s in
  ParseFloat val bitSize.

(** *** Errors, error modes, the drawing context *)

Inductive error :=
| errParamMismatch
| errCommandUnknown
| errZeroLengthID
| errMissingID
| errNotImplemented
| errNum (e : NumError).

(** [type ErrorMode uint8] with its three named values. *)
Definition ErrorMode := Z.
Definition IgnoreErrorMode : ErrorMode := 0.
Definition WarnErrorMode : ErrorMode := 1.
Definition StrictErrorMode : ErrorMode := 2.

(** The calls the parser makes on its [*gg.Context]. *)
Inductive SinkCall :=
| MoveTo (x y : float64)
| LineTo (x y : float64)
| ClosePath.

(** The struct [Parser].  [dc] is the history of the calls made on the
    context the parser points to, oldest first; [logged] is what has
    been handed to the standard logger. *)
Record Parser := mkParser {
  placeX : float64; placeY : float64;
  curX : float64; curY : float64;
  cntlPtX : float64; cntlPtY : float64;
  pathStartX : float64; pathStartY : float64;
  points : list float64;
  lastKey : byte;
  ErrMode : ErrorMode;
  inPath : bool;
  dc : list SinkCall;
  logged : list string
}.

(** [NewParser(dc)]: every field but [dc] has its zero value; [calls]
    are the calls already made on the context. *)
Definition NewParser (calls : list SinkCall) : Parser :=
  mkParser f64_zero f64_zero f64_zero f64_zero f64_zero f64_zero
           f64_zero f64_zero [] zero IgnoreErrorMode false calls [].

Definition set_place (x y : float64) (p : Parser) : Parser :=
  mkParser x y (curX p) (curY p) (cntlPtX p) (cntlPtY p)
           (pathStartX p) (pathStartY p) (points p) (lastKey p)
           (ErrMode p) (inPath p) (dc p) (logged p).

Definition set_pathStart (x y : float64) (p : Parser) : Parser :=
  mkParser (placeX p) (placeY p) (curX p) (curY p) (cntlPtX p) (cntlPtY p)
           x y (points p) (lastKey p)
           (ErrMode p) (inPath p) (dc p) (logged p).

Definition set_points (pts : list float64) (p : Parser) : Parser :=
  mkParser (placeX p) (placeY p) (curX p) (curY p) (cntlPtX p) (cntlPtY p)
           (pathStartX p) (pathStartY p) pts (lastKey p)
           (ErrMode p) (inPath p) (dc p) (logged p).

Definition set_lastKey (k : byte) (p : Parser) : Parser :=
  mkParser (placeX p) (placeY p) (curX p) (curY p) (cntlPtX p) (cntlPtY p)
           (pathStartX p) (pathStartY p) (points p) k
           (ErrMode p) (inPath p) (dc p) (logged p).

Definition set_inPath (b : bool) (p : Parser) : Parser :=
  mkParser (placeX p) (placeY p) (curX p) (curY p) (cntlPtX p) (cntlPtY p)
           (pathStartX p) (pathStartY p) (points p) (lastKey p)
           (ErrMode p) b (dc p) (logged p).

(** The exported field [ErrorMode] is set by the caller. *)
Definition set_ErrMode (m : ErrorMode) (p : Parser) : Parser :=
  mkParser (placeX p) (placeY p) (curX p) (curY p) (cntlPtX p) (cntlPtY p)
           (pathStartX p) (pathStartY p) (points p) (lastKey p)
           m (inPath p) (dc p) (logged p).

(** One more call on the drawing context. *)
Definition emit (c : SinkCall) (p : Parser) : Parser :=
  mkParser (placeX p) (placeY p) (curX p) (curY p) (cntlPtX p) (cntlPtY p)
           (pathStartX p) (pathStartY p) (points p) (lastKey p)
           (ErrMode p) (inPath p) (dc p ++ [c]) (logged p).

Definition log_Println (msg : string) (p : Parser) : Parser :=
  mkParser (placeX p) (placeY p) (curX p) (curY p) (cntlPtX p) (cntlPtY p)
           (pathStartX p) (pathStartY p) (points p) (lastKey p)
           (ErrMode p) (inPath p) (dc p) (logged p ++ [msg]).

Definition M (A : Type) := SE Parser error A.

(** [f, err := parseFloat(..); if err != nil { return err }] *)
Definition try_parse (r : float64 + NumError) : M float64 :=
  match r with
  | inl f => ret f
  | inr e => fail (errNum e)
  end.

(** Reading and writing [pts[i]]; reading out of range is [None] (a
    panic), and every write below follows a read at the same index. *)
Definition getf (pts : list float64) (i : Z) : option float64 :=
  if i <? 0 then None else pts !! Z.to_nat i.

Definition setf (pts : list float64) (i : Z) (v : float64) : list float64 :=
  <[Z.to_nat i := v]> pts.

Definition npoints (p : Parser) : Z := Z.of_nat (length (points p)).

(** [p.points[i]] *)
Definition pt (i : Z) : M float64 :=
  fun p => checked (getf (points p) i) p.

(** [p.points = append(p.points, f)] *)
Definition append_point (f : float64) : M unit :=
  modify (fun p => set_points (points p ++ [f]) p).

Open Scope go_scope.

(** *** valsToAbs, pointsToAbs, hasSetsOrMore *)

Fixpoint valsToAbs_loop (last : float64) (pts : list float64) : list float64 :=
  match pts with
  | [] => []
  | x :: rest =>
    let last' := f64_add last x in
    last' :: valsToAbs_loop last' rest
  end.

Definition valsToAbs (last : float64) : M unit :=
  modify (fun p => set_points (valsToAbs_loop last (points p)) p).

(** The inner loop [for i := 0; i < sz; i += 2]; [None] is an index out
    of range.  At most [sz] rounds are made. *)
Fixpoint pointsToAbs_inner (fuel : nat) (sz j i : Z) (lastX lastY : float64)
         (pts : list float64) : option (list float64) :=
  match fuel with
  | O => Some pts
  | S fuel' =>
    if i <? sz then
      match getf pts (i + j) with
      | None => None
      | Some x =>
        let pts1 := setf pts (i + j) (f64_add x lastX) in
        match getf pts1 (i + 1 + j) with
        | None => None
        | Some y =>
          pointsToAbs_inner fuel' sz j (i + 2) lastX lastY
                            (setf pts1 (i + 1 + j) (f64_add y lastY))
        end
      end
    else Some pts
  end.

(** The outer loop [for j := 0; j < len(p.points); j += sz].  A round
    either panics or, when [sz >= 1], moves [j] forward, so that
    [len(p.points)] rounds are enough. *)
Fixpoint pointsToAbs_outer (fuel : nat) (sz j : Z) (lastX lastY : float64)
         (pts : list float64) : option (list float64) :=
  match fuel with
  | O => Some pts
  | S fuel' =>
    if j <? Z.of_nat (length pts) then
      match pointsToAbs_inner (Z.to_nat sz) sz j 0 lastX lastY pts with
      | None => None
      | Some pts1 =>
        match getf pts1 (j + sz - 2), getf pts1 (j + sz - 1) with
        | Some lastX', Some lastY' =>
          pointsToAbs_outer fuel' sz (j + sz) lastX' lastY' pts1
        | _, _ => None
        end
      end
    else Some pts
  end.

(** After a panic nothing is said about the buffer; the parser is
    returned as it was. *)
Definition pointsToAbs (sz : Z) : M unit :=
  fun p =>
    match pointsToAbs_outer (length (points p)) sz 0
                            (placeX p) (placeY p) (points p) with
    | Some pts => (set_points pts p, Ok tt)
    | None => (p, Panic)
    end.

(** [len(p.points)%sz] panics when [sz] is zero; [&&] does not evaluate
    it when [len(p.points) >= sz] is false. *)
Definition hasSetsOrMore (sz : Z) (rel : bool) : M bool :=
  l <- gets npoints ;;
  if negb (sz <=? l) then ret false
  else if sz =? 0 then panic
  else if negb (Z.rem l sz =? 0) then ret false
  else if rel then pointsToAbs sz ;; ret true
  else ret true.

(** *** ReadFloat *)

Fixpoint ReadFloat_loop (numStr : string) (rs : list (Z * rune))
         (last : Z) (isFirst : bool) : M Z :=
  match rs with
  | [] => ret last
  | (i, n) :: rs' =>
    if n =? rune_of "." then
      if isFirst then ReadFloat_loop numStr rs' last false
      else
        s <- checked (slice numStr last i) ;;
        f <- try_parse (parseFloat s 64) ;;
        append_point f ;;
        ReadFloat_loop numStr rs' i isFirst
    else ReadFloat_loop numStr rs' last isFirst
  end.

Definition ReadFloat (numStr : string) : M unit :=
  last <- ReadFloat_loop numStr (range numStr) 0 true ;;
  s <- checked (slice numStr last (len numStr)) ;;
  f <- try_parse (parseFloat s 64) ;;
  append_point f.

(** *** GetPoints *)

(** The condition of the [if] in the loop of GetPoints: rune [r],
    coming after rune [lr], ends the number being read. *)
Definition is_boundary (lr r : rune) : bool :=
  negb (IsNumber r) && negb (r =? rune_of ".")
  && negb ((r =? rune_of "-") && (lr =? rune_of "e"))
  && negb (r =? rune_of "e").

Fixpoint GetPoints_loop (dataPoints : string) (rs : list (Z * rune))
         (lastIndex : Z) (lr : rune) : M Z :=
  match rs with
  | [] => ret lastIndex
  | (i, r) :: rs' =>
    if is_boundary lr r then
      (if negb (lastIndex =? -1)
       then s <- checked (slice dataPoints lastIndex i) ;; ReadFloat s
       else ret tt) ;;
      GetPoints_loop dataPoints rs' (if r =? rune_of "-" then i else -1) r
    else if lastIndex =? -1 then GetPoints_loop dataPoints rs' i r
    else GetPoints_loop dataPoints rs' lastIndex r
  end.

Definition GetPoints (dataPoints : string) : M unit :=
  modify (set_points []) ;;
  lastIndex <- GetPoints_loop dataPoints (range dataPoints) (-1) (rune_of " ") ;;
  if negb (lastIndex =? -1) && negb (lastIndex =? len dataPoints)
  then s <- checked (slice dataPoints lastIndex (len dataPoints)) ;; ReadFloat s
  else ret tt.

(** *** addSeg *)

Definition key_is (k : byte) (c : ascii) : bool := Ascii.eqb k c.

(** The loop [for i := 2; i < l-1; i += 2] of the MoveTo case. *)
Fixpoint lineTo_loop (fuel : nat) (i l : Z) : M unit :=
  match fuel with
  | O => ret tt
  | S fuel' =>
    if i <? l - 1 then
      x <- pt i ;;
      y <- pt (i + 1) ;;
      modify (emit (LineTo x y)) ;;
      lineTo_loop fuel' (i + 2) l
    else ret tt
  end.

(** The statements after the [switch]. *)
Definition seg_done (k : byte) : M unit := modify (set_lastKey k).

(** The case ['M'] of the switch once hasSetsOrMore has answered true,
    with the statements after the switch. *)
Definition moveTo_case (k : byte) (l : Z) : M unit :=
  sx <- pt 0 ;;
  sy <- pt 1 ;;
  modify (set_pathStart sx sy) ;;
  modify (set_inPath true) ;;
  x <- pt 0 ;;
  y <- pt 1 ;;
  modify (emit (MoveTo x y)) ;;
  lineTo_loop (Z.to_nat l) 2 l ;;
  px <- pt (l - 2) ;;
  modify (fun p => set_place px (placeY p) p) ;;
  py <- pt (l - 1) ;;
  modify (fun p => set_place (placeX p) py p) ;;
  seg_done k.

(** The [switch k] of addSeg with the statements after it; [l] is
    [len(p.points)] as taken before the switch.  A case that ends in
    [fallthrough] is written together with the case it falls into. *)
Definition addSeg_switch (k : byte) (l : Z) : M unit :=
  if key_is k "z" || key_is k "Z" then
    n <- gets npoints ;;
    if negb (n =? 0) then fail errParamMismatch
    else
      (opened <- gets inPath ;;
       if opened
       then
         modify (fun p => set_place (pathStartX p) (placeY p) p) ;;
         modify (fun p => set_place (placeX p) (pathStartY p) p) ;;
         modify (set_inPath false)
       else ret tt) ;;
      seg_done k
  else if key_is k "m" || key_is k "M" then
    let rel := key_is k "m" in
    ok <- hasSetsOrMore 2 rel ;;
    if negb ok then fail errParamMismatch
    else moveTo_case k l
  else if key_is k "l" || key_is k "L" then fail errNotImplemented
  else if key_is k "v" then
    last <- gets placeY ;; valsToAbs last ;; fail errNotImplemented
  else if key_is k "V" then fail errNotImplemented
  else if key_is k "h" then
    last <- gets placeX ;; valsToAbs last ;; fail errNotImplemented
  else if key_is k "H" then fail errNotImplemented
  else if key_is k "q" || key_is k "Q" then fail errNotImplemented
  else if key_is k "t" || key_is k "T" then fail errNotImplemented
  else if key_is k "c" || key_is k "C" then fail errNotImplemented
  else if key_is k "s" || key_is k "S" then fail errNotImplemented
  else if key_is k "a" || key_is k "A" then fail errNotImplemented
  else
    mode <- gets ErrMode ;;
    if mode =? StrictErrorMode then fail errCommandUnknown
    else
      (if mode =? WarnErrorMode
       then modify (log_Println
                      (String.append "Ignoring svg command " (string_of_byte k)))
       else ret tt) ;;
      seg_done k.

(** [segString[1:]] and [segString[0]] panic on the empty string. *)
Definition addSeg (segString : string) : M unit :=
  match segString with
  | EmptyString => panic
  | String k args =>
    GetPoints args ;;
    l <- gets npoints ;;
    addSeg_switch k l
  end.

(** *** init and CompilePath *)

Definition init (p : Parser) : Parser :=
  set_inPath false
    (set_lastKey " "%char
       (set_points [] (set_place f64_zero f64_zero p))).

Fixpoint CompilePath_loop (svgPath : string) (rs : list (Z * rune))
         (lastIndex : Z) : M Z :=
  match rs with
  | [] => ret lastIndex
  | (i, v) :: rs' =>
    if IsLetter v && negb (v =? rune_of "e") then
      (if negb (lastIndex =? -1)
       then s <- checked (slice svgPath lastIndex i) ;; addSeg s
       else ret tt) ;;
      CompilePath_loop svgPath rs' i
    else CompilePath_loop svgPath rs' lastIndex
  end.

Definition CompilePath (svgPath : string) : M unit :=
  modify init ;;
  lastIndex <- CompilePath_loop svgPath (range svgPath) (-1) ;;
  (if negb (lastIndex =? -1)
   then s <- checked (slice svgPath lastIndex (len svgPath)) ;; addSeg s
   else ret tt) ;;
  modify (emit ClosePath).

(** *** Vocabulary for the statements about the dispatcher *)

(** The command letters the [switch] of addSeg has a case for. *)
Definition close_keys : list byte := ["z"; "Z"]%char.
Definition move_keys : list byte := ["m"; "M"]%char.
Definition unimplemented_keys : list byte :=
  ["l"; "L"; "v"; "V"; "h"; "H"; "q"; "Q"; "t"; "T"; "c"; "C"; "s"; "S";
   "a"; "A"]%char.

Definition key_in (k : byte) (ks : list byte) : bool := existsb (key_is k) ks.

Definition recognized (k : byte) : bool :=
  key_in k close_keys || key_in k move_keys || key_in k unimplemented_keys.

(** Several calls on the drawing context, in order. *)
Definition emit_all (cs : list SinkCall) (p : Parser) : Parser :=
  mkParser (placeX p) (placeY p) (curX p) (curY p) (cntlPtX p) (cntlPtY p)
           (pathStartX p) (pathStartY p) (points p) (lastKey p)
           (ErrMode p) (inPath p) (dc p ++ cs) (logged p).

(** One LineTo for each pair of coordinates. *)
Fixpoint line_calls (pts : list float64) : list SinkCall :=
  match pts with
  | x :: y :: rest => LineTo x y :: line_calls rest
  | _ => []
  end.

(** Pairs given relative to the pair before them, the first one to
    [(lastX, lastY)], made absolute. *)
Fixpoint rel_pairs (lastX lastY : float64) (pts : list float64) : list float64 :=
  match pts with
  | x :: y :: rest =>
    let x' := f64_add x lastX in
    let y' := f64_add y lastY in
    x' :: y' :: rel_pairs x' y' rest
  | _ => pts
  end.

(** The last pair of a list of pairs that follows the pair [(x, y)]. *)
Fixpoint last_pair (x y : float64) (pts : list float64) : float64 * float64 :=
  match pts with
  | x' :: y' :: rest => last_pair x' y' rest
  | _ => (x, y)
  end.

(** A call other than ClosePath. *)
Definition is_draw (c : SinkCall) : bool :=
  match c with
  | ClosePath => false
  | _ => true
  end.

(** [p'] differs from [p] in the buffer of points at most. *)
Definition buffer_only (p p' : Parser) : Prop := p' = set_points (points p') p.

(** From [p] to [p'] the calls [cs] were made on the drawing context. *)
Definition drawn (cs : list SinkCall) (p p' : Parser) : Prop :=
  dc p' = dc p ++ cs.

(** From [p] to [p'] only calls other than ClosePath were made on the
    drawing context. *)
Definition draws (p p' : Parser) : Prop :=
  exists cs, drawn cs p p' /\ forallb is_draw cs = true.

(** From [p] to [p'] no call was made on the drawing context. *)
Definition same_dc (p p' : Parser) : Prop := dc p' = dc p.

(** When [m] returns an error it has made no call on the drawing
    context. *)
Definition quiet_on_error {A} (m : M A) : Prop :=
  forall p p' e, m p = (p', Err e) -> dc p' = dc p.

(** The parser after an absolute MoveTo with first pair [(x0, y0)] and
    further pairs [rest]. *)
Definition after_move (k : byte) (x0 y0 : float64) (rest : list float64)
           (p : Parser) : Parser :=
  mkParser (fst (last_pair x0 y0 rest)) (snd (last_pair x0 y0 rest))
           (curX p) (curY p) (cntlPtX p) (cntlPtY p) x0 y0 (points p) k
           (ErrMode p) true (dc p ++ MoveTo x0 y0 :: line_calls rest)
           (logged p).

(** The parser after a ClosePath. *)
Definition after_close (k : byte) (p : Parser) : Parser :=
  set_lastKey k
    (if inPath p
     then set_inPath false (set_place (pathStartX p) (pathStartY p) p)
     else p).

(** The parser after a skipped segment with command letter [k]. *)
Definition after_skip (k : byte) (p : Parser) : Parser :=
  set_lastKey k
    (if ErrMode p =? WarnErrorMode
     then log_Println (String.append "Ignoring svg command " (string_of_byte k)) p
     else p).

(** The values a MoveTo with letter [k] works on: those of the buffer,
    resolved against the cursor when the letter is ['m']. *)
Definition resolved (k : byte) (p : Parser) : list float64 :=
  if key_is k "m"
  then rel_pairs (placeX p) (placeY p) (points p)
  else points p.

(** The number of values is a positive multiple of two. *)
Definition pairs_count (n : Z) : Prop := 2 <= n /\ Z.rem n 2 = 0.

(** The errors that come from strconv.ParseFloat. *)
Definition is_errNum (e : error) : Prop := exists ne, e = errNum ne.

(** *** Where the three scanning loops cut their string

    Each loop of the source walks over a string and hands slices of it
    to a callee.  The places of the cuts depend on the string alone;
    the functions below compute them. *)

Definition on_slice (f : string -> M unit) (s : string) (c : Z * Z) : M unit :=
  t <- checked (slice s (fst c) (snd c)) ;; f t.

(** The parse-and-append step ReadFloat performs on one slice. *)
Definition read_one (s : string) : M unit :=
  f <- try_parse (parseFloat s 64) ;; append_point f.

Fixpoint ReadFloat_cuts (rs : list (Z * rune)) (last : Z) (isFirst : bool)
  : list (Z * Z) * Z :=
  match rs with
  | [] => ([], last)
  | (i, n) :: rs' =>
    if n =? rune_of "." then
      if isFirst then ReadFloat_cuts rs' last false
      else
        let '(cs, l) := ReadFloat_cuts rs' i isFirst in
        ((last, i) :: cs, l)
    else ReadFloat_cuts rs' last isFirst
  end.

Definition number_cuts (numStr : string) : list (Z * Z) :=
  let '(cs, l) := ReadFloat_cuts (range numStr) 0 true in
  cs ++ [(l, len numStr)].

Fixpoint GetPoints_cuts (rs : list (Z * rune)) (lastIndex : Z) (lr : rune)
  : list (Z * Z) * Z :=
  match rs with
  | [] => ([], lastIndex)
  | (i, r) :: rs' =>
    if is_boundary lr r then
      let '(cs, l) :=
        GetPoints_cuts rs' (if r =? rune_of "-" then i else -1) r in
      ((if negb (lastIndex =? -1) then [(lastIndex, i)] else []) ++ cs, l)
    else if lastIndex =? -1 then GetPoints_cuts rs' i r
    else GetPoints_cuts rs' lastIndex r
  end.

Definition token_cuts (dataPoints : string) : list (Z * Z) :=
  let '(cs, l) := GetPoints_cuts (range dataPoints) (-1) (rune_of " ") in
  cs ++ (if negb (l =? -1) && negb (l =? len dataPoints)
         then [(l, len dataPoints)] else []).

Fixpoint CompilePath_cuts (rs : list (Z * rune)) (lastIndex : Z)
  : list (Z * Z) * Z :=
  match rs with
  | [] => ([], lastIndex)
  | (i, v) :: rs' =>
    if IsLetter v && negb (v =? rune_of "e") then
      let '(cs, l) := CompilePath_cuts rs' i in
      ((if negb (lastIndex =? -1) then [(lastIndex, i)] else []) ++ cs, l)
    else CompilePath_cuts rs' lastIndex
  end.

Definition segment_cuts (svgPath : string) : list (Z * Z) :=
  let '(cs, l) := CompilePath_cuts (range svgPath) (-1) in
  cs ++ (if negb (l =? -1) then [(l, len svgPath)] else []).

(** How many decimal points the loop of ReadFloat meets in a string. *)
Fixpoint count_dots (rs : list (Z * rune)) : nat :=
  match rs with
  | [] => O
  | (_, r) :: rs' =>
    if r =? rune_of "." then S (count_dots rs') else count_dots rs'
  end.

Definition dots (s : string) : nat := count_dots (range s).

(** *** Tokens: the strings handed to [strconv.ParseFloat] *)

(** The slices of [s] at the given cuts, when all are in range. *)
Fixpoint slices (s : string) (cs : list (Z * Z)) : option (list string) :=
  match cs with
  | [] => Some []
  | c :: rest =>
    match slice s (fst c) (snd c), slices s rest with
    | Some t, Some ts => Some (t :: ts)
    | _, _ => None
    end
  end.

(** The pieces ReadFloat parses out of one number string. *)
Definition pieces (numStr : string) : option (list string) :=
  slices numStr (number_cuts numStr).

Fixpoint all_pieces (ts : list string) : option (list string) :=
  match ts with
  | [] => Some []
  | t :: rest =>
    match pieces t, all_pieces rest with
    | Some ps, Some qs => Some (ps ++ qs)
    | _, _ => None
    end
  end.

(** The tokens of an argument text, in the order GetPoints parses
    them. *)
Definition tokens (dataPoints : string) : option (list string) :=
  match slices dataPoints (token_cuts dataPoints) with
  | Some ts => all_pieces ts
  | None => None
  end.

(** The same as a list: GetPoints makes no slice out of range. *)
Definition token_list (dataPoints : string) : list string :=
  match tokens dataPoints with
  | Some toks => toks
  | None => []
  end.

(** The segments CompilePath hands to addSeg, in order. *)
Definition segments (svgPath : string) : list string :=
  match slices svgPath (segment_cuts svgPath) with
  | Some segs => segs
  | None => []
  end.

End Svgg.

(** ** The rest of util.go: control points and the two stubs *)

(** The float64 operations of [reflect], besides the addition of
    [GoRuntime]: [x * y], [x - y] and the constant [2]. *)
Class GoArith (float64 : Type) := {
  f64_mul : float64 -> float64 -> float64;
  f64_sub : float64 -> float64 -> float64;
  f64_two : float64
}.

Section Curves.

Context {float64 NumError : Type} `{RT : GoRuntime float64 NumError}
        `{AR : GoArith float64}.

Definition reflect (px py rx ry : float64) : float64 * float64 :=
  (f64_sub (f64_mul px f64_two) rx, f64_sub (f64_mul py f64_two) ry).

Definition set_cntlPt (x y : float64) (p : Parser) : Parser :=
  mkParser (placeX p) (placeY p) (curX p) (curY p) x y
           (pathStartX p) (pathStartY p) (points p) (lastKey p)
           (ErrMode p) (inPath p) (dc p) (logged p).

(** [p.cntlPtX, p.cntlPtY = ...]: both values are computed before either
    field is written. *)
Definition reflectControlQuad : M (NumError := NumError) unit :=
  modify (fun p =>
    let k := lastKey p in
    if key_is k "q" || key_is k "Q" || key_is k "T" || key_is k "t"
    then
      let '(x, y) := reflect (placeX p) (placeY p) (cntlPtX p) (cntlPtY p) in
      set_cntlPt x y p
    else set_cntlPt (placeX p) (placeY p) p).

Definition reflectControlCube : M (NumError := NumError) unit :=
  modify (fun p =>
    let k := lastKey p in
    if key_is k "c" || key_is k "C" || key_is k "s" || key_is k "S"
    then
      let '(x, y) := reflect (placeX p) (placeY p) (cntlPtX p) (cntlPtY p) in
      set_cntlPt x y p
    else set_cntlPt (placeX p) (placeY p) p).

(** [errNotImplemented.Error()]: the text given to [errors.New]. *)
Definition errNotImplemented_text : string := "not implemented".

(** [fmt.Sprintf("warning: %s : %s\n", name, msg)] *)
Definition warning_text (name msg : string) : string :=
  String.append "warning: "
    (String.append name
       (String.append " : "
          (String.append msg (String (ascii_of_nat 10) EmptyString)))).

(** [log.Printf]: the formatted text goes to the standard logger. *)
Definition log_Printf (text : string) (p : @Parser float64) : @Parser float64 :=
  mkParser (placeX p) (placeY p) (curX p) (curY p) (cntlPtX p) (cntlPtY p)
           (pathStartX p) (pathStartY p) (points p) (lastKey p)
           (ErrMode p) (inPath p) (dc p) (logged p ++ [text]).

Definition EllipseAt (cx cy rx ry : float64) : M (NumError := NumError) unit :=
  modify (log_Printf (warning_text "EllipseAt" errNotImplemented_text)).

Definition AddArcFromA (pts : list float64) : M (NumError := NumError) unit :=
  modify (log_Printf (warning_text "AddArcFromA" errNotImplemented_text)).

End Curves.

(** ** Further vocabulary

    Words for the statements about the functions taken one by one, about
    the tokenizer and the splitter as wholes, and about what CompilePath
    leaves alone. *)

Section Vocabulary.

Context {float64 NumError : Type} `{RT : GoRuntime float64 NumError}.

(** *** trimSuffixes *)

(** The argument is empty or its last byte is a decimal digit: the case
    in which trimSuffixes returns at once. *)
Definition plain_number (a : string) : bool :=
  match last_byte a with
  | None => true
  | Some c => is_digit_byte c
  end.

(** *** The tokenizer *)

(** The value of [lr] in the loop of GetPoints once the runes [rs] have
    been gone through. *)
Fixpoint last_rune_from (lr : rune) (rs : list (Z * rune)) : rune :=
  match rs with
  | [] => lr
  | (_, r) :: rs' => last_rune_from r rs'
  end.

(** The last rune of a string, a space when there is none: the value of
    [lr] at the end of the loop of GetPoints. *)
Definition last_rune (s : string) : rune :=
  last_rune_from (rune_of " ") (range s).

(** An index moved by [n] bytes; the mark [-1] of "no index" stays. *)
Definition shift_index (n li : Z) : Z := if li =? -1 then -1 else li + n.

(** The bytes a token can hold: a digit, a point, a minus sign, the
    letter e, and the bytes of the runes that are not below 128. *)
Definition token_byte (c : byte) : bool :=
  (128 <=? byte_val c) || is_digit_byte c
  || Ascii.eqb c "." || Ascii.eqb c "-" || Ascii.eqb c "e".

(** A rune that ends a number whatever comes before it, and does not
    start one. *)
Definition separator (r : rune) : bool :=
  negb (IsNumber r) && negb (r =? rune_of ".")
  && negb (r =? rune_of "-") && negb (r =? rune_of "e").

(** *** The splitter *)

(** The test of the loop of CompilePath: the rune starts a segment. *)
Definition is_command (v : rune) : bool :=
  IsLetter v && negb (v =? rune_of "e").

(** No rune of the string starts a segment. *)
Definition no_command (s : string) : bool :=
  forallb (fun ir => negb (is_command (snd ir))) (range s).




(** *** What CompilePath leaves alone *)

(** The fields no method reached from CompilePath writes to. *)
Definition settings_kept (p p' : @Parser float64) : Prop :=
  ErrMode p' = ErrMode p /\ curX p' = curX p /\ curY p' = curY p /\
  cntlPtX p' = cntlPtX p /\ cntlPtY p' = cntlPtY p.

(** Those fields are kept and nothing is logged. *)
Definition quiet (p p' : @Parser float64) : Prop :=
  settings_kept p p' /\ logged p' = logged p.

(** The line logged for a segment that is skipped. *)
Definition warning_line (l : string) : Prop :=
  exists k, recognized k = false /\
            l = String.append "Ignoring svg command " (string_of_byte k).

(** Those fields are kept and what is logged are lines about skipped
    segments, none unless the mode is WarnErrorMode. *)
Definition warned (p p' : @Parser float64) : Prop :=
  settings_kept p p' /\
  exists ls, logged p' = logged p ++ ls /\ Forall warning_line ls /\
             (ErrMode p <> WarnErrorMode -> ls = []).

(** The command letter of a segment, a space for the empty string. *)
Definition command_of (seg : string) : byte :=
  match seg with
  | String k _ => k
  | EmptyString => " "%char
  end.

(** The command letter of the last segment, a space when there is
    none: the value [init] gives to [lastKey]. *)
Definition last_command (segs : list string) : byte :=
  match last segs with
  | Some seg => command_of seg
  | None => " "%char
  end.

(** *** Parsers with different histories *)

(** Two parsers that agree on what CompilePath reads: the cursor, the
    buffer, the last command, the error mode, the flag of the open
    subpath and, when a subpath is open, its start. *)
Definition alike (p q : @Parser float64) : Prop :=
  placeX p = placeX q /\ placeY p = placeY q /\
  points p = points q /\ lastKey p = lastKey q /\
  ErrMode p = ErrMode q /\ inPath p = inPath q /\
  (inPath p = true ->
   pathStartX p = pathStartX q /\ pathStartY p = pathStartY q).

(** From [p] to [p'] and from [q] to [q'] the same calls were made on
    the drawing context and the same lines were logged. *)
Definition same_output (p p' q q' : @Parser float64) : Prop :=
  exists cs ls,
    dc p' = dc p ++ cs /\ dc q' = dc q ++ cs /\
    logged p' = logged p ++ ls /\ logged q' = logged q ++ ls.

(** [m] does on alike parsers the same thing. *)
Definition history_free {A} (m : @M float64 NumError A) : Prop :=
  forall p q p' o, alike p q -> m p = (p', o) ->
    exists q', m q = (q', o) /\ alike p' q' /\ same_output p p' q q'.

End Vocabulary.

(** ** A reference runtime over exact decimals

    An instance of [GoRuntime] in which a float64 is an exact rational:
    [ParseFloat] accepts the plain decimal literals (sign, digits with at
    most one point and at least one digit, optional exponent with at
    least one digit) and returns their value without rounding;
    everything else is a syntax error, so that hexadecimal literals,
    digit separators, infinities and NaN are outside of it.  It knows no
    letter or digit above Latin-1.  The examples that instantiate the
    general theorems are run on it. *)

Module Reference.

Fixpoint read_digits (s : string) (acc : Z) (n : nat) : Z * nat * string :=
  match s with
  | String c t =>
    let b := byte_val c in
    if in_range 48 57 b then read_digits t (10 * acc + (b - 48)) (S n)
    else (acc, n, s)
  | EmptyString => (acc, n, s)
  end.

Definition read_sign (s : string) : bool * string :=
  match s with
  | String c t =>
    if Ascii.eqb c "-" then (true, t)
    else if Ascii.eqb c "+" then (false, t)
    else (false, s)
  | EmptyString => (false, s)
  end.

(** [m * 10^e], reduced. *)
Definition scale (m e : Z) : Q :=
  if 0 <=? e then Qmake (m * 10 ^ e) 1
  else Qred (Qmake m (Z.to_pos (10 ^ (- e)))).

Definition signed (neg : bool) (m : Z) : Z := if neg then - m else m.

Definition parse_decimal (s : string) : option Q :=
  let '(neg, s1) := read_sign s in
  let '(ip, n1, s2) := read_digits s1 0 0 in
  let '(m, n2, s3) :=
    match s2 with
    | String c t => if Ascii.eqb c "." then read_digits t ip 0 else (ip, 0%nat, s2)
    | EmptyString => (ip, 0%nat, s2)
    end in
  if (n1 + n2 =? 0)%nat then None
  else
    match s3 with
    | EmptyString => Some (scale (signed neg m) (- Z.of_nat n2))
    | String c t =>
      if Ascii.eqb c "e" || Ascii.eqb c "E" then
        let '(eneg, t1) := read_sign t in
        let '(ev, n3, t2) := read_digits t1 0 0 in
        if (n3 =? 0)%nat then None
        else
          match t2 with
          | EmptyString =>
            Some (scale (signed neg m) (signed eneg ev - Z.of_nat n2))
          | _ => None
          end
      else None
    end.

#[export] Instance runtime : GoRuntime Q unit := {|
  f64_zero := 0%Q;
  f64_add := fun x y => Qred (x + y);
  ParseFloat := fun s _ =>
    match parse_decimal s with
    | Some q => inl q
    | None => inr tt
    end;
  Letter_table := fun _ => false;
  Number_table := fun _ => false
|}.

End Reference.

(** The operations of [reflect] on the exact rationals of the reference
    runtime. *)

Module ReferenceArith.

#[export] Instance arith : GoArith Q := {|
  f64_mul := fun x y => Qred (x * y);
  f64_sub := fun x y => Qred (x - y);
  f64_two := 2%Q
|}.

End ReferenceArith.

(** ** Facts about Go strings *)

Section StringFacts.

Lemma len_nonneg (s : string) : 0 <= len s.
Proof. unfold len. lia. Qed.

Lemma len_String (c : ascii) (s : string) : len (String c s) = len s + 1.
Proof. unfold len. simpl. lia. Qed.

Lemma len_app (s t : string) : len (String.append s t) = len s + len t.
Proof.
  unfold len. induction s as [| c s IH]; simpl; [reflexivity | lia].
Qed.

Lemma substring_app_prefix (s t : string) :
  String.substring 0 (String.length s) (String.append s t) = s.
Proof.
  induction s as [| c s IH]; simpl.
  - destruct t; reflexivity.
  - rewrite IH. reflexivity.
Qed.

Lemma substring_app_skip (s t : string) (k m : nat) :
  String.substring (String.length s + k) m (String.append s t)
  = String.substring k m t.
Proof. induction s as [| c s IH]; simpl; auto. Qed.

(** The slice that is exactly the first operand of a concatenation. *)
Lemma slice_app_prefix (s t : string) :
  slice (String.append s t) 0 (len s) = Some s.
Proof.
  unfold slice. rewrite len_app.
  pose proof (len_nonneg s). pose proof (len_nonneg t).
  replace ((0 <=? 0) && (0 <=? len s) && (len s <=? len s + len t)) with true
    by (symmetry; rewrite !andb_true_iff, !Z.leb_le; lia).
  rewrite Z.sub_0_r. unfold len. rewrite Nat2Z.id. simpl Z.to_nat.
  rewrite substring_app_prefix. reflexivity.
Qed.

(** A slice of the second operand, seen from the concatenation. *)
Lemma slice_app_shift (s t : string) (a b : Z) :
  0 <= a ->
  slice (String.append s t) (a + len s) (b + len s) = slice t a b.
Proof.
  intros Ha. unfold slice. rewrite len_app.
  pose proof (len_nonneg s).
  replace (0 <=? a + len s) with (0 <=? a)
    by (apply eq_true_iff_eq; rewrite !Z.leb_le; lia).
  replace (a + len s <=? b + len s) with (a <=? b)
    by (apply eq_true_iff_eq; rewrite !Z.leb_le; lia).
  replace (b + len s <=? len s + len t) with (b <=? len t)
    by (apply eq_true_iff_eq; rewrite !Z.leb_le; lia).
  destruct ((0 <=? a) && (a <=? b) && (b <=? len t)); [| reflexivity].
  replace (b + len s - (a + len s)) with (b - a) by lia.
  replace (Z.to_nat (a + len s)) with (String.length s + Z.to_nat a)%nat
    by (unfold len; lia).
  rewrite substring_app_skip. reflexivity.
Qed.

(** A byte below 128 is never taken as part of the encoding of the rune
    before it: decoding stops the same way as at the end of the string. *)
Lemma DecodeRune_before_ascii (b c : ascii) (s t : string) :
  byte_val c < 128 ->
  DecodeRune (String b (String.append s (String c t))) = DecodeRune (String b s).
Proof.
  intros Hc.
  assert (Hout : forall lo hi, 128 <= lo -> in_range lo hi (byte_val c) = false).
  { intros lo hi Hlo. unfold in_range.
    apply andb_false_iff. left. apply Z.leb_gt. lia. }
  unfold DecodeRune.
  destruct (byte_val b <? 128); [reflexivity |].
  destruct (byte_val b <? 194); [reflexivity |].
  destruct (byte_val b <? 224).
  { destruct s as [| c1 s]; simpl; [| reflexivity].
    rewrite Hout by lia. reflexivity. }
  destruct (byte_val b <? 240).
  { destruct s as [| c1 [| c2 s]]; simpl; try reflexivity.
    - destruct t; [reflexivity |].
      destruct (byte_val b =? 224); rewrite Hout by lia; reflexivity.
    - rewrite (Hout 128 191) by lia. rewrite andb_false_r. reflexivity. }
  destruct (byte_val b <? 245); [| reflexivity].
  destruct s as [| c1 [| c2 [| c3 s]]]; simpl; try reflexivity.
  - destruct t as [| c2 [| c3 t]]; try reflexivity.
    destruct (byte_val b =? 240); rewrite Hout by lia; reflexivity.
  - destruct t; [reflexivity |].
    rewrite (Hout 128 191) by lia. rewrite andb_false_r. reflexivity.
  - rewrite (Hout 128 191) by lia. rewrite andb_false_r. reflexivity.
Qed.

(** A rune is never wider than what is left of the string. *)
Lemma DecodeRune_width (s : string) :
  (snd (DecodeRune s) <= String.length s)%nat.
Proof.
  destruct s as [| b s]; [reflexivity |]. unfold DecodeRune.
  repeat match goal with
         | |- context [if ?c then _ else _] => destruct c
         | |- context [match ?x with EmptyString => _ | String _ _ => _ end] =>
           destruct x
         end; simpl; lia.
Qed.

Lemma range_from_app (s : string) (c : ascii) (t : string) (skip : nat) (i : Z) :
  byte_val c < 128 ->
  (skip <= String.length s)%nat ->
  range_from skip i (String.append s (String c t))
  = range_from skip i s ++ range_from 0 (i + len s) (String c t).
Proof.
  intros Hc. revert skip i.
  induction s as [| b s IH]; intros skip i Hskip.
  - assert (skip = O) as -> by (simpl in Hskip; lia).
    rewrite Z.add_0_r. reflexivity.
  - rewrite len_String.
    replace (i + (len s + 1)) with (i + 1 + len s) by lia.
    destruct skip as [| k].
    + change (range_from 0 i (String.append (String b s) (String c t)))
        with (let '(r, w) := DecodeRune (String b (String.append s (String c t))) in
              (i, r) :: range_from (Nat.pred w) (i + 1)
                                   (String.append s (String c t))).
      change (range_from 0 i (String b s))
        with (let '(r, w) := DecodeRune (String b s) in
              (i, r) :: range_from (Nat.pred w) (i + 1) s).
      rewrite DecodeRune_before_ascii by exact Hc.
      pose proof (DecodeRune_width (String b s)) as Hw.
      destruct (DecodeRune (String b s)) as [r w]. simpl in Hw.
      rewrite IH by lia. reflexivity.
    + simpl in Hskip. simpl. apply IH. lia.
Qed.

(** Moving the starting offset moves every offset. *)
Lemma range_from_shift (s : string) (skip : nat) (i n : Z) :
  range_from skip (i + n) s = map (shift n) (range_from skip i s).
Proof.
  revert skip i. induction s as [| b s IH]; intros skip i; [reflexivity |].
  destruct skip as [| k].
  - change (range_from 0 (i + n) (String b s))
      with (let '(r, w) := DecodeRune (String b s) in
            (i + n, r) :: range_from (Nat.pred w) (i + n + 1) s).
    change (range_from 0 i (String b s))
      with (let '(r, w) := DecodeRune (String b s) in
            (i, r) :: range_from (Nat.pred w) (i + 1) s).
    destruct (DecodeRune (String b s)) as [r w]. simpl.
    replace (i + n + 1) with (i + 1 + n) by lia. rewrite IH. reflexivity.
  - simpl. replace (i + n + 1) with (i + 1 + n) by lia. apply IH.
Qed.

(** Offsets produced by [range] are not negative. *)
Lemma range_from_nonneg (s : string) (skip : nat) (i : Z) :
  0 <= i -> Forall (fun ir => 0 <= fst ir) (range_from skip i s).
Proof.
  revert skip i. induction s as [| b s IH]; intros skip i Hi; [constructor |].
  destruct skip as [| k].
  - change (range_from 0 i (String b s))
      with (let '(r, w) := DecodeRune (String b s) in
            (i, r) :: range_from (Nat.pred w) (i + 1) s).
    destruct (DecodeRune (String b s)) as [r w].
    constructor; [exact Hi | apply IH; lia].
  - simpl. apply IH. lia.
Qed.

Lemma ascending_weaken lo lo' hi rs :
  lo <= lo' -> ascending lo' hi rs -> ascending lo hi rs.
Proof.
  destruct rs as [| [i r] rs]; simpl; [trivial |].
  intros Hlo [Hi Hrs]. split; [lia | exact Hrs].
Qed.

(** [range] yields growing offsets, all inside the string. *)
Lemma range_from_ascending (s : string) (skip : nat) (i : Z) :
  ascending (i + Z.of_nat skip) (i + len s) (range_from skip i s).
Proof.
  revert skip i. induction s as [| b s IH]; intros skip i; [exact I |].
  rewrite len_String. destruct skip as [| k].
  - change (range_from 0 i (String b s))
      with (let '(r, w) := DecodeRune (String b s) in
            (i, r) :: range_from (Nat.pred w) (i + 1) s).
    destruct (DecodeRune (String b s)) as [r w]. simpl.
    pose proof (len_nonneg s).
    split; [lia |].
    apply (ascending_weaken _ (i + 1 + Z.of_nat (Nat.pred w))); [lia |].
    replace (i + (len s + 1)) with (i + 1 + len s) by lia. apply IH.
  - simpl range_from.
    replace (i + Z.of_nat (S k)) with (i + 1 + Z.of_nat k) by lia.
    replace (i + (len s + 1)) with (i + 1 + len s) by lia. apply IH.
Qed.

Lemma slice_proper (s : string) (c : Z * Z) :
  proper_cut (len s) c ->
  exists k t, slice s (fst c) (snd c) = Some (String k t).
Proof.
  intros [[Ha Hab] Hb]. unfold slice.
  replace ((0 <=? fst c) && (fst c <=? snd c) && (snd c <=? len s)) with true
    by (symmetry; rewrite !andb_true_iff, !Z.leb_le; lia).
  assert (Hn : exists n, Z.to_nat (snd c - fst c) = S n).
  { exists (Nat.pred (Z.to_nat (snd c - fst c))). lia. }
  destruct Hn as [n ->].
  assert (Hlen : (Z.to_nat (fst c) < String.length s)%nat) by (unfold len in Hb; lia).
  revert Hlen. generalize (Z.to_nat (fst c)). clear.
  induction s as [| b s IH]; intros m Hm; simpl in Hm; [lia |].
  destruct m as [| m]; simpl.
  - eauto.
  - apply IH. lia.
Qed.

Lemma proper_valid n c : proper_cut n c -> valid_cut n c.
Proof. unfold proper_cut, valid_cut. lia. Qed.

Lemma slice_valid (s : string) (c : Z * Z) :
  valid_cut (len s) c -> exists t, slice s (fst c) (snd c) = Some t.
Proof.
  intros [[Ha Hab] Hb]. unfold slice.
  replace ((0 <=? fst c) && (fst c <=? snd c) && (snd c <=? len s)) with true
    by (symmetry; rewrite !andb_true_iff, !Z.leb_le; lia).
  eauto.
Qed.

End StringFacts.

(** ** Reasoning about methods *)

Section Sequencing.

Context {S E : Type}.
Local Open Scope go_scope.

Lemma bind_assoc {A B C} (m : SE S E A) (f : A -> SE S E B)
      (g : B -> SE S E C) (p : S) :
  bind (bind m f) g p = bind m (fun a => bind (f a) g) p.
Proof.
  unfold bind. destruct (m p) as [p1 [a | e |]]; reflexivity.
Qed.

Lemma bind_ext {A B} (m : SE S E A) (f g : A -> SE S E B) (p : S) :
  (forall a q, f a q = g a q) -> bind m f p = bind m g p.
Proof.
  intros Hfg. unfold bind. destruct (m p) as [p1 [a | e |]]; auto.
Qed.

Lemma bind_ret_l {A B} (a : A) (f : A -> SE S E B) (p : S) :
  bind (ret a) f p = f a p.
Proof. reflexivity. Qed.

Lemma bind_gets {A B} (g : S -> A) (f : A -> SE S E B) (p : S) :
  bind (gets g) f p = f (g p) p.
Proof. reflexivity. Qed.

Lemma bind_modify {B} (g : S -> S) (f : unit -> SE S E B) (p : S) :
  bind (modify g) f p = f tt (g p).
Proof. reflexivity. Qed.

Lemma bind_ext_l {A B} (m m' : SE S E A) (f : A -> SE S E B) (p : S) :
  (forall q, m q = m' q) -> bind m f p = bind m' f p.
Proof. intros Hm. unfold bind. rewrite Hm. reflexivity. Qed.

Lemma bind_Ok {A B} (m : SE S E A) (f : A -> SE S E B) p p1 a :
  m p = (p1, Ok a) -> bind m f p = f a p1.
Proof. intros Hm. unfold bind. rewrite Hm. reflexivity. Qed.

Lemma bind_Err {A B} (m : SE S E A) (f : A -> SE S E B) p p1 e :
  m p = (p1, Err e) -> bind m f p = (p1, Err e).
Proof. intros Hm. unfold bind. rewrite Hm. reflexivity. Qed.

Lemma bind_Panic {A B} (m : SE S E A) (f : A -> SE S E B) p p1 :
  m p = (p1, Panic) -> bind m f p = (p1, Panic).
Proof. intros Hm. unfold bind. rewrite Hm. reflexivity. Qed.

(** A successful sequence: both halves succeeded. *)
Lemma bind_inv_Ok {A B} (m : SE S E A) (f : A -> SE S E B) p p2 b :
  bind m f p = (p2, Ok b) ->
  exists p1 a, m p = (p1, Ok a) /\ f a p1 = (p2, Ok b).
Proof.
  unfold bind. destruct (m p) as [p1 [a | e |]]; intros Hb;
    [eauto | discriminate | discriminate].
Qed.

(** A failed sequence: the first half failed, or it succeeded and the
    second failed. *)
Lemma bind_inv_Err {A B} (m : SE S E A) (f : A -> SE S E B) p p2 e :
  bind m f p = (p2, Err e) ->
  m p = (p2, Err e) \/
  exists p1 a, m p = (p1, Ok a) /\ f a p1 = (p2, Err e).
Proof.
  unfold bind. destruct (m p) as [p1 [a | e' |]]; intros Hb;
    [right; eauto | left; congruence | discriminate].
Qed.

Lemma for_each_app {A} (f : A -> SE S E unit) (l1 l2 : list A) (p : S) :
  for_each f (l1 ++ l2) p = (for_each f l1 ;; for_each f l2) p.
Proof.
  revert p. induction l1 as [| x l1 IH]; intros p; simpl.
  - reflexivity.
  - rewrite bind_assoc. apply bind_ext. intros [] q. apply IH.
Qed.

Lemma for_each_ext {A} (f g : A -> SE S E unit) (l : list A) (p : S) :
  Forall (fun x => forall q, f x q = g x q) l ->
  for_each f l p = for_each g l p.
Proof.
  intros Hl. revert p. induction Hl as [| x l Hx _ IH]; intros p; simpl.
  - reflexivity.
  - unfold bind. rewrite Hx. destruct (g x p) as [p1 [[] | e |]]; auto.
Qed.

(** A run over a list that ends in an error stopped at some element:
    the elements before it succeeded, that one returned the error,
    and the elements after it played no part. *)
Lemma for_each_inv_Err {A} (f : A -> SE S E unit) (l : list A) p p2 e :
  for_each f l p = (p2, Err e) ->
  exists pre x post p1,
    l = pre ++ x :: post /\
    for_each f pre p = (p1, Ok tt) /\
    f x p1 = (p2, Err e).
Proof.
  revert p. induction l as [| x l IH]; intros p; simpl.
  - discriminate.
  - intros Hb. apply bind_inv_Err in Hb as [Hx | (p1 & [] & Hx & Hrest)].
    + exists [], x, l, p. auto.
    + destruct (IH _ Hrest) as (pre & y & post & q & -> & Hpre & Hy).
      exists (x :: pre), y, post, q. split; [reflexivity |].
      split; [| exact Hy]. simpl. rewrite (bind_Ok _ _ _ _ _ Hx). exact Hpre.
Qed.

Lemma for_each_stops {A} (f : A -> SE S E unit) (pre post : list A) x p p1 p2 e :
  for_each f pre p = (p1, Ok tt) ->
  f x p1 = (p2, Err e) ->
  for_each f (pre ++ x :: post) p = (p2, Err e).
Proof.
  intros Hpre Hx. rewrite for_each_app, (bind_Ok _ _ _ _ _ Hpre). simpl.
  apply bind_Err, Hx.
Qed.

Lemma bind_ret_tt (m : SE S E unit) (p : S) :
  (m ;; ret tt) p = m p.
Proof. unfold bind. destruct (m p) as [p1 [[] | e |]]; reflexivity. Qed.

Lemma for_each_snoc {A} (f : A -> SE S E unit) (l : list A) (x : A) (p : S) :
  for_each f (l ++ [x]) p = (for_each f l ;; f x) p.
Proof.
  rewrite for_each_app. apply bind_ext. intros [] q. simpl.
  apply bind_ret_tt.
Qed.

(** A loop that runs [f] over [cs] and yields [l], followed by [k]. *)
Lemma bind_loop {A B C} (m : SE S E B) (f : A -> SE S E unit) (cs : list A)
      (l : B) (k : B -> SE S E C) (p : S) :
  (forall q, m q = (for_each f cs ;; ret l) q) ->
  bind m k p = (for_each f cs ;; k l) p.
Proof.
  intros Hm. unfold bind at 1. rewrite Hm. unfold bind.
  destruct (for_each f cs p) as [p1 [[] | e |]]; reflexivity.
Qed.

Lemma bind_inv {A B} (m : SE S E A) (f : A -> SE S E B) p p2 o :
  bind m f p = (p2, o) ->
  (exists p1 a, m p = (p1, Ok a) /\ f a p1 = (p2, o)) \/
  (exists e, m p = (p2, Err e) /\ o = Err e) \/
  (m p = (p2, Panic) /\ o = Panic).
Proof.
  unfold bind. destruct (m p) as [p1 [a | e |]]; intros Hb.
  - left. eauto.
  - right. left. exists e. split; congruence.
  - right. right. split; congruence.
Qed.

(** A relation between states that every step respects is respected by
    the whole run. *)
Lemma for_each_rel {A} (R : S -> S -> Prop) (f : A -> SE S E unit) (l : list A) :
  (forall p, R p p) ->
  (forall p q r, R p q -> R q r -> R p r) ->
  (forall x p p' o, f x p = (p', o) -> R p p') ->
  forall p p' o, for_each f l p = (p', o) -> R p p'.
Proof.
  intros Hrefl Htrans Hf. induction l as [| x l IH]; intros p p' o; simpl.
  - intros [= <- <-]. apply Hrefl.
  - intros Hb.
    apply bind_inv in Hb as [(p1 & [] & Hx & Hl) | [(e & Hx & _) | [Hx _]]].
    + eapply Htrans; [eapply Hf, Hx | eapply IH, Hl].
    + eapply Hf, Hx.
    + eapply Hf, Hx.
Qed.

Section Respects.

Variable R : S -> S -> Prop.
Hypothesis R_refl : forall p, R p p.
Hypothesis R_trans : forall p q r, R p q -> R q r -> R p r.

Lemma respects_ret {A} (a : A) : respects R (@ret S E A a).
Proof. intros p p' o [= <- _]. apply R_refl. Qed.

Lemma respects_fail {A} (e : E) : respects R (@fail S E A e).
Proof. intros p p' o [= <- _]. apply R_refl. Qed.

Lemma respects_panic {A} : respects R (@panic S E A).
Proof. intros p p' o [= <- _]. apply R_refl. Qed.

Lemma respects_gets {A} (g : S -> A) : respects R (@gets S E A g).
Proof. intros p p' o [= <- _]. apply R_refl. Qed.

Lemma respects_checked {A} (x : option A) : respects R (@checked S E A x).
Proof. destruct x; [apply respects_ret | apply respects_panic]. Qed.

Lemma respects_modify (g : S -> S) :
  (forall p, R p (g p)) -> respects R (@modify S E g).
Proof. intros Hg p p' o [= <- _]. apply Hg. Qed.

Lemma respects_bind {A B} (m : SE S E A) (f : A -> SE S E B) :
  respects R m -> (forall a, respects R (f a)) -> respects R (bind m f).
Proof.
  intros Hm Hf p p' o Hb.
  apply bind_inv in Hb as [(p1 & a & Hx & Hl) | [(e & Hx & _) | [Hx _]]].
  - eapply R_trans; [eapply Hm, Hx | eapply Hf, Hl].
  - eapply Hm, Hx.
  - eapply Hm, Hx.
Qed.

Lemma respects_for_each {A} (f : A -> SE S E unit) (l : list A) :
  (forall x, respects R (f x)) -> respects R (for_each f l).
Proof.
  intros Hf. induction l as [| x l IH]; simpl.
  - apply respects_ret.
  - apply respects_bind; [apply Hf | intros _; exact IH].
Qed.

End Respects.

Lemma err_free_ret {A} (a : A) : err_free (@ret S E A a).
Proof. intros p p' e. discriminate. Qed.

Lemma err_free_panic {A} : err_free (@panic S E A).
Proof. intros p p' e. discriminate. Qed.

Lemma err_free_gets {A} (g : S -> A) : err_free (@gets S E A g).
Proof. intros p p' e. discriminate. Qed.

Lemma err_free_modify (g : S -> S) : err_free (@modify S E g).
Proof. intros p p' e. discriminate. Qed.

Lemma err_free_checked {A} (x : option A) : err_free (@checked S E A x).
Proof. destruct x; [apply err_free_ret | apply err_free_panic]. Qed.

Lemma err_free_bind {A B} (m : SE S E A) (f : A -> SE S E B) :
  err_free m -> (forall a, err_free (f a)) -> err_free (bind m f).
Proof.
  intros Hm Hf p p' e Hb.
  apply bind_inv_Err in Hb as [Hx | (p1 & a & _ & Hy)].
  - exact (Hm _ _ _ Hx).
  - exact (Hf _ _ _ _ Hy).
Qed.

Lemma fails_only_err_free {A} (P : E -> Prop) (m : SE S E A) :
  err_free m -> fails_only P m.
Proof. intros Hm p p' e He. destruct (Hm _ _ _ He). Qed.

Lemma fails_only_bind {A B} (P : E -> Prop) (m : SE S E A) (f : A -> SE S E B) :
  fails_only P m -> (forall a, fails_only P (f a)) -> fails_only P (bind m f).
Proof.
  intros Hm Hf p p' e Hb.
  apply bind_inv_Err in Hb as [Hx | (p1 & a & _ & Hy)].
  - exact (Hm _ _ _ Hx).
  - exact (Hf _ _ _ _ Hy).
Qed.

Lemma fails_only_for_each {A} (P : E -> Prop) (f : A -> SE S E unit) (l : list A) :
  (forall x, fails_only P (f x)) -> fails_only P (for_each f l).
Proof.
  intros Hf. induction l as [| x l IH]; simpl.
  - apply fails_only_err_free, err_free_ret.
  - apply fails_only_bind; [apply Hf | intros _; exact IH].
Qed.

Lemma panic_free_ret {A} (a : A) : panic_free (@ret S E A a).
Proof. intros p p'. discriminate. Qed.

Lemma panic_free_fail {A} (e : E) : panic_free (@fail S E A e).
Proof. intros p p'. discriminate. Qed.

Lemma panic_free_gets {A} (g : S -> A) : panic_free (@gets S E A g).
Proof. intros p p'. discriminate. Qed.


Lemma panic_free_bind {A B} (m : SE S E A) (f : A -> SE S E B) :
  panic_free m -> (forall a, panic_free (f a)) -> panic_free (bind m f).
Proof.
  intros Hm Hf p p' Hb.
  apply bind_inv in Hb as [(p1 & a & _ & Hy) | [(e & _ & He) | [Hx _]]].
  - exact (Hf _ _ _ Hy).
  - discriminate.
  - exact (Hm _ _ Hx).
Qed.

Lemma panic_free_for_each {A} (f : A -> SE S E unit) (l : list A) :
  Forall (fun x => panic_free (f x)) l -> panic_free (for_each f l).
Proof.
  induction 1 as [| x l Hx _ IH]; simpl.
  - apply panic_free_ret.
  - apply panic_free_bind; [exact Hx | intros _; exact IH].
Qed.

Lemma for_each_map {A B} (f : B -> SE S E unit) (g : A -> B) (l : list A) (p : S) :
  for_each f (map g l) p = for_each (fun x => f (g x)) l p.
Proof.
  revert p. induction l as [| x l IH]; intros p; simpl.
  - reflexivity.
  - apply bind_ext. intros [] q. apply IH.
Qed.

End Sequencing.

(** ** Where the three scanning loops cut their string

    Each loop of the source walks over a string and hands slices of it to
    a callee.  The places of the cuts depend on the string alone; the
    functions below compute them, and each loop is shown to be the run of
    its callee over the slices so obtained. *)

Section Cuts.

Context {float64 NumError : Type} `{RT : GoRuntime float64 NumError}.
Implicit Types p q r : @Parser float64.
Implicit Types e : @error NumError.
Local Open Scope go_scope.

Lemma ReadFloat_loop_cuts numStr rs last isFirst p :
  ReadFloat_loop numStr rs last isFirst p =
  (for_each (on_slice read_one numStr) (fst (ReadFloat_cuts rs last isFirst)) ;;
   ret (snd (ReadFloat_cuts rs last isFirst))) p.
Proof.
  revert last isFirst p.
  induction rs as [| [i n] rs IH]; intros last isFirst p; simpl.
  - reflexivity.
  - destruct (n =? rune_of "."); [destruct isFirst |]; try apply IH.
    destruct (ReadFloat_cuts rs i false) as [cs l] eqn:Hcs. simpl.
    unfold on_slice at 1, read_one at 1. simpl.
    rewrite ?bind_assoc. apply bind_ext; intros s q; cbv beta.
    rewrite ?bind_assoc. apply bind_ext; intros f q1; cbv beta.
    rewrite ?bind_assoc. apply bind_ext; intros [] q2.
    rewrite IH, Hcs. reflexivity.
Qed.

Theorem ReadFloat_cuts_run numStr p :
  ReadFloat numStr p = for_each (on_slice read_one numStr) (number_cuts numStr) p.
Proof.
  unfold ReadFloat, number_cuts.
  destruct (ReadFloat_cuts (range numStr) 0 true) as [cs l] eqn:Hcs.
  rewrite for_each_snoc.
  apply (bind_loop _ (on_slice read_one numStr) cs l
                   (fun last => on_slice read_one numStr (last, len numStr))).
  intros q. rewrite ReadFloat_loop_cuts, Hcs. reflexivity.
Qed.

Lemma GetPoints_loop_cuts dataPoints rs lastIndex lr p :
  GetPoints_loop dataPoints rs lastIndex lr p =
  (for_each (on_slice ReadFloat dataPoints)
            (fst (GetPoints_cuts rs lastIndex lr)) ;;
   ret (snd (GetPoints_cuts rs lastIndex lr))) p.
Proof.
  revert lastIndex lr p.
  induction rs as [| [i r] rs IH]; intros lastIndex lr p; simpl.
  - reflexivity.
  - destruct (is_boundary lr r).
    + destruct (GetPoints_cuts rs (if r =? rune_of "-" then i else -1) r)
        as [cs l] eqn:Hcs.
      destruct (lastIndex =? -1); simpl.
      * rewrite bind_ret_l, IH, Hcs. reflexivity.
      * unfold on_slice at 1. simpl.
        rewrite ?bind_assoc. apply bind_ext; intros s q; cbv beta.
        rewrite ?bind_assoc. apply bind_ext; intros [] q1; cbv beta.
        rewrite IH, Hcs. reflexivity.
    + destruct (lastIndex =? -1); apply IH.
Qed.

Theorem GetPoints_cuts_run dataPoints p :
  GetPoints dataPoints p =
  for_each (on_slice ReadFloat dataPoints) (token_cuts dataPoints)
           (set_points [] p).
Proof.
  unfold GetPoints, token_cuts.
  destruct (GetPoints_cuts (range dataPoints) (-1) (rune_of " "))
    as [cs l] eqn:Hcs.
  rewrite (bind_Ok _ _ p (set_points [] p) tt) by reflexivity.
  rewrite (bind_loop _ (on_slice ReadFloat dataPoints) cs l)
    by (intros q; rewrite GetPoints_loop_cuts, Hcs; reflexivity).
  destruct (negb (l =? -1) && negb (l =? len dataPoints)).
  - rewrite for_each_snoc. reflexivity.
  - rewrite app_nil_r. apply bind_ret_tt.
Qed.

Lemma CompilePath_loop_cuts svgPath rs lastIndex p :
  CompilePath_loop svgPath rs lastIndex p =
  (for_each (on_slice addSeg svgPath) (fst (CompilePath_cuts rs lastIndex)) ;;
   ret (snd (CompilePath_cuts rs lastIndex))) p.
Proof.
  revert lastIndex p.
  induction rs as [| [i v] rs IH]; intros lastIndex p; simpl.
  - reflexivity.
  - destruct (IsLetter v && negb (v =? rune_of "e")); [| apply IH].
    destruct (CompilePath_cuts rs i) as [cs l] eqn:Hcs.
    destruct (lastIndex =? -1); simpl.
    + rewrite bind_ret_l, IH, Hcs. reflexivity.
    + unfold on_slice at 1. simpl.
      rewrite ?bind_assoc. apply bind_ext; intros s q; cbv beta.
      rewrite ?bind_assoc. apply bind_ext; intros [] q1; cbv beta.
      rewrite IH, Hcs. reflexivity.
Qed.

Theorem CompilePath_cuts_run svgPath p :
  CompilePath svgPath p =
  (for_each (on_slice addSeg svgPath) (segment_cuts svgPath) ;;
   modify (emit ClosePath)) (init p).
Proof.
  unfold CompilePath, segment_cuts.
  destruct (CompilePath_cuts (range svgPath) (-1)) as [cs l] eqn:Hcs.
  rewrite (bind_Ok _ _ p (init p) tt) by reflexivity.
  rewrite (bind_loop _ (on_slice addSeg svgPath) cs l)
    by (intros q; rewrite CompilePath_loop_cuts, Hcs; reflexivity).
  destruct (negb (l =? -1)).
  - rewrite <- bind_assoc. apply bind_ext_l. intros q.
    rewrite for_each_snoc. reflexivity.
  - rewrite app_nil_r. apply bind_ext. intros [] q. reflexivity.
Qed.

(** With all cuts in range, the run is over the slices themselves. *)
Lemma for_each_slices (f : string -> @M float64 NumError unit) s cs ts p :
  slices s cs = Some ts ->
  for_each (on_slice f s) cs p = for_each f ts p.
Proof.
  revert ts p. induction cs as [| c cs IH]; intros ts p; simpl.
  - intros [= <-]. reflexivity.
  - destruct (slice s (fst c) (snd c)) as [t |] eqn:Hc; [| discriminate].
    destruct (slices s cs) as [ts' |]; [| discriminate].
    intros [= <-]. simpl. unfold on_slice at 1. rewrite Hc. simpl.
    rewrite bind_assoc, bind_ret_l.
    apply bind_ext. intros [] q. apply IH. reflexivity.
Qed.

(** ReadFloat cuts its string within its bounds. *)
Lemma ReadFloat_cuts_valid rs lo hi last isFirst :
  ascending lo hi rs -> 0 <= last <= lo -> lo <= hi ->
  Forall (valid_cut hi) (fst (ReadFloat_cuts rs last isFirst)) /\
  0 <= snd (ReadFloat_cuts rs last isFirst) <= hi.
Proof.
  revert lo last isFirst.
  induction rs as [| [i n] rs IH]; intros lo last isFirst Hrs Hlast Hlo; simpl.
  - split; [constructor | lia].
  - simpl in Hrs. destruct Hrs as [Hi Hrs].
    destruct (n =? rune_of "."); [destruct isFirst |];
      try (apply (IH (i + 1)); [exact Hrs | lia | lia]).
    destruct (IH (i + 1) i false Hrs) as [Hcs Hl]; [lia | lia |].
    destruct (ReadFloat_cuts rs i false) as [cs l]. simpl in *.
    split; [| exact Hl].
    constructor; [| exact Hcs]. unfold valid_cut. simpl. lia.
Qed.

Lemma number_cuts_valid numStr :
  Forall (valid_cut (len numStr)) (number_cuts numStr).
Proof.
  unfold number_cuts. pose proof (len_nonneg numStr) as Hlen.
  destruct (ReadFloat_cuts_valid (range numStr) 0 (len numStr) 0 true)
    as [Hcs Hl]; [apply (range_from_ascending numStr 0 0) | lia | lia |].
  destruct (ReadFloat_cuts (range numStr) 0 true) as [cs l]. simpl in *.
  apply Forall_app. split; [exact Hcs |].
  repeat constructor; simpl; lia.
Qed.

(** The cuts of GetPoints are proper: a number takes at least one byte. *)
Lemma GetPoints_cuts_proper rs lo hi lastIndex lr :
  ascending lo hi rs -> 0 <= lo <= hi ->
  lastIndex = -1 \/ 0 <= lastIndex < lo ->
  Forall (proper_cut hi) (fst (GetPoints_cuts rs lastIndex lr)) /\
  (snd (GetPoints_cuts rs lastIndex lr) = -1 \/
   0 <= snd (GetPoints_cuts rs lastIndex lr) < hi).
Proof.
  revert lo lastIndex lr.
  induction rs as [| [i r] rs IH]; intros lo lastIndex lr Hrs Hlo Hlast; simpl.
  - split; [constructor |]. destruct Hlast as [-> | Hlast]; [left; reflexivity |].
    right. lia.
  - simpl in Hrs. destruct Hrs as [Hi Hrs].
    destruct (is_boundary lr r).
    + destruct (IH (i + 1) (if r =? rune_of "-" then i else -1) r Hrs)
        as [Hcs Hl]; [lia | destruct (r =? rune_of "-"); [right; lia | left; reflexivity] |].
      destruct (GetPoints_cuts rs (if r =? rune_of "-" then i else -1) r)
        as [cs l]. simpl in *.
      split; [| exact Hl].
      destruct (lastIndex =? -1) eqn:Hm; simpl; [exact Hcs |].
      constructor; [| exact Hcs].
      apply Z.eqb_neq in Hm. unfold proper_cut. simpl. lia.
    + destruct (lastIndex =? -1) eqn:Hm.
      * apply (IH (i + 1)); [exact Hrs | lia | right; lia].
      * apply Z.eqb_neq in Hm.
        apply (IH (i + 1)); [exact Hrs | lia | right; lia].
Qed.

Lemma token_cuts_proper dataPoints :
  Forall (proper_cut (len dataPoints)) (token_cuts dataPoints).
Proof.
  unfold token_cuts. pose proof (len_nonneg dataPoints) as Hlen.
  destruct (GetPoints_cuts_proper (range dataPoints) 0 (len dataPoints) (-1)
                                  (rune_of " "))
    as [Hcs Hl];
    [apply (range_from_ascending dataPoints 0 0) | lia | left; reflexivity |].
  destruct (GetPoints_cuts (range dataPoints) (-1) (rune_of " ")) as [cs l].
  simpl in *. apply Forall_app. split; [exact Hcs |].
  destruct (l =? -1) eqn:Hm; simpl; [constructor |].
  apply Z.eqb_neq in Hm.
  destruct (l =? len dataPoints) eqn:Hn; simpl; [constructor |].
  repeat constructor; simpl; lia.
Qed.

Lemma slices_valid s cs :
  Forall (valid_cut (len s)) cs -> exists ts, slices s cs = Some ts.
Proof.
  induction 1 as [| c cs Hc _ (ts & Hts)]; simpl.
  - exists []. reflexivity.
  - destruct (slice_valid _ _ Hc) as (t & ->). rewrite Hts. eauto.
Qed.

Lemma pieces_total numStr : exists ps, pieces numStr = Some ps.
Proof. apply slices_valid, number_cuts_valid. Qed.

Lemma all_pieces_total ts : exists toks, all_pieces ts = Some toks.
Proof.
  induction ts as [| t ts (qs & Hqs)]; simpl.
  - exists []. reflexivity.
  - destruct (pieces_total t) as (ps & ->). rewrite Hqs. eauto.
Qed.

(** No slice of GetPoints or ReadFloat is out of range: the tokens of an
    argument text are always defined. *)
Lemma tokens_total dataPoints : tokens dataPoints = Some (token_list dataPoints).
Proof.
  unfold token_list, tokens.
  destruct (slices_valid dataPoints (token_cuts dataPoints)) as (ts & ->).
  { eapply Forall_impl; [apply token_cuts_proper | apply proper_valid]. }
  destruct (all_pieces_total ts) as (toks & ->). reflexivity.
Qed.

(** The cuts of CompilePath are proper: every segment starts at a letter
    and takes at least that letter. *)
Lemma CompilePath_cuts_proper rs lo hi lastIndex :
  ascending lo hi rs -> 0 <= lo <= hi ->
  lastIndex = -1 \/ 0 <= lastIndex < lo ->
  Forall (proper_cut hi) (fst (CompilePath_cuts rs lastIndex)) /\
  (snd (CompilePath_cuts rs lastIndex) = -1 \/
   0 <= snd (CompilePath_cuts rs lastIndex) < hi).
Proof.
  revert lo lastIndex.
  induction rs as [| [i v] rs IH]; intros lo lastIndex Hrs Hlo Hlast; simpl.
  - split; [constructor |]. destruct Hlast as [-> | Hlast]; [left; reflexivity |].
    simpl in Hrs. right. lia.
  - simpl in Hrs. destruct Hrs as [Hi Hrs].
    destruct (IsLetter v && negb (v =? rune_of "e")).
    + destruct (IH (i + 1) i Hrs) as [Hcs Hl]; [lia | right; lia |].
      destruct (CompilePath_cuts rs i) as [cs l]. simpl in *.
      split; [| exact Hl].
      destruct (lastIndex =? -1) eqn:Hm; simpl; [exact Hcs |].
      constructor; [| exact Hcs].
      apply Z.eqb_neq in Hm. unfold proper_cut. simpl. lia.
    + apply (IH (i + 1)); [exact Hrs | lia |].
      destruct Hlast as [-> | Hlast]; [left; reflexivity | right; lia].
Qed.

Lemma segment_cuts_proper svgPath :
  Forall (proper_cut (len svgPath)) (segment_cuts svgPath).
Proof.
  unfold segment_cuts.
  destruct (CompilePath_cuts_proper (range svgPath) 0 (len svgPath) (-1))
    as [Hcs Hl]; [| pose proof (len_nonneg svgPath); lia | left; reflexivity |].
  { apply (range_from_ascending svgPath 0 0). }
  destruct (CompilePath_cuts (range svgPath) (-1)) as [cs l]. simpl in *.
  apply Forall_app. split; [exact Hcs |].
  destruct (l =? -1) eqn:Hm; simpl; [constructor |].
  apply Z.eqb_neq in Hm. repeat constructor; simpl; lia.
Qed.

Lemma slices_proper s cs :
  Forall (proper_cut (len s)) cs ->
  exists ts, slices s cs = Some ts /\ Forall (fun t => t <> EmptyString) ts.
Proof.
  induction 1 as [| c cs Hc _ (ts & Hts & Hne)]; simpl.
  - exists []. split; [reflexivity | constructor].
  - destruct (slice_proper _ _ Hc) as (k & t & ->). rewrite Hts.
    exists (String k t :: ts). split; [reflexivity |].
    constructor; [discriminate | exact Hne].
Qed.

(** No slice of CompilePath is out of range. *)
Lemma segments_slices svgPath :
  slices svgPath (segment_cuts svgPath) = Some (segments svgPath).
Proof.
  unfold segments.
  destruct (slices_proper _ _ (segment_cuts_proper svgPath)) as (ts & -> & _).
  reflexivity.
Qed.

(** A segment is never empty: it starts with its command letter. *)
Lemma segments_nonempty svgPath :
  Forall (fun t => t <> EmptyString) (segments svgPath).
Proof.
  unfold segments.
  destruct (slices_proper _ _ (segment_cuts_proper svgPath)) as (ts & -> & Hne).
  exact Hne.
Qed.

(** CompilePath resets the parser, runs addSeg over the segments of the
    path string until one returns an error, and closes the path. *)
Theorem CompilePath_segments svgPath p :
  CompilePath svgPath p =
  (for_each addSeg (segments svgPath) ;; modify (emit ClosePath)) (init p).
Proof.
  rewrite CompilePath_cuts_run. apply bind_ext_l. intros q.
  apply for_each_slices, segments_slices.
Qed.

End Cuts.

(** ** Tokens: the strings handed to [strconv.ParseFloat] *)

Section Tokens.

Context {float64 NumError : Type} `{RT : GoRuntime float64 NumError}.
Implicit Types p q r : @Parser float64.
Implicit Types e : @error NumError.
Local Open Scope go_scope.

Lemma ReadFloat_pieces numStr ps p :
  pieces numStr = Some ps ->
  ReadFloat numStr p = for_each read_one ps p.
Proof.
  intros Hps. rewrite ReadFloat_cuts_run. apply for_each_slices, Hps.
Qed.

Lemma for_each_all_pieces ts toks p :
  all_pieces ts = Some toks ->
  for_each ReadFloat ts p = for_each read_one toks p.
Proof.
  revert toks p. induction ts as [| t ts IH]; intros toks p; simpl.
  - intros [= <-]. reflexivity.
  - destruct (pieces t) as [ps |] eqn:Hps; [| discriminate].
    destruct (all_pieces ts) as [qs |]; [| discriminate].
    intros [= <-]. rewrite for_each_app.
    unfold bind. rewrite (ReadFloat_pieces _ _ _ Hps).
    destruct (for_each read_one ps p) as [p1 [[] | e |]]; auto.
Qed.

Theorem GetPoints_tokens dataPoints toks p :
  tokens dataPoints = Some toks ->
  GetPoints dataPoints p = for_each read_one toks (set_points [] p).
Proof.
  unfold tokens. intros Ht. rewrite GetPoints_cuts_run.
  destruct (slices dataPoints (token_cuts dataPoints)) as [ts |] eqn:Hts;
    [| discriminate].
  rewrite (for_each_slices _ _ _ _ _ Hts). apply for_each_all_pieces, Ht.
Qed.

Lemma set_points_set_points pts pts' (p : @Parser float64) :
  set_points pts (set_points pts' p) = set_points pts p.
Proof. reflexivity. Qed.

(** Every token parses: the values are appended to the buffer. *)
Lemma read_values toks vs p :
  Forall2 (fun t v => parseFloat t 64 = inl v) toks vs ->
  for_each read_one toks p = (set_points (points p ++ vs) p, Ok tt).
Proof.
  intros Hvs. revert p.
  induction Hvs as [| t v toks vs Hv _ IH]; intros p; simpl.
  - rewrite app_nil_r. destruct p; reflexivity.
  - unfold read_one at 1, bind at 1 2. rewrite Hv. simpl.
    rewrite IH. simpl. rewrite <- app_assoc. reflexivity.
Qed.

(** The first token that does not parse ends the run with its error;
    the values before it stay in the buffer. *)
Lemma read_values_Err pre vs t ne post p :
  Forall2 (fun t v => parseFloat t 64 = inl v) pre vs ->
  parseFloat t 64 = inr ne ->
  for_each read_one (pre ++ t :: post) p =
  (set_points (points p ++ vs) p, Err (errNum ne)).
Proof.
  intros Hvs He.
  apply (for_each_stops _ _ _ _ _ _ _ _ (read_values _ _ p Hvs)).
  unfold read_one, bind. rewrite He. reflexivity.
Qed.

Theorem GetPoints_values dataPoints toks vs p :
  tokens dataPoints = Some toks ->
  Forall2 (fun t v => parseFloat t 64 = inl v) toks vs ->
  GetPoints dataPoints p = (set_points vs p, Ok tt).
Proof.
  intros Ht Hvs. rewrite (GetPoints_tokens _ _ _ Ht).
  rewrite (read_values _ _ _ Hvs). reflexivity.
Qed.

Theorem GetPoints_values_Err dataPoints pre t post vs ne p :
  tokens dataPoints = Some (pre ++ t :: post) ->
  Forall2 (fun t v => parseFloat t 64 = inl v) pre vs ->
  parseFloat t 64 = inr ne ->
  GetPoints dataPoints p = (set_points vs p, Err (errNum ne)).
Proof.
  intros Ht Hvs He. rewrite (GetPoints_tokens _ _ _ Ht).
  rewrite (read_values_Err _ _ _ _ _ _ Hvs He). reflexivity.
Qed.

End Tokens.

(** ** The number tokenizer *)

Section Tokenizer.

Context {float64 NumError : Type} `{RT : GoRuntime float64 NumError}.
Implicit Types p q r : @Parser float64.
Implicit Types e : @error NumError.
Local Open Scope go_scope.

Lemma ReadFloat_cuts_no_dot rs1 rs2 last isFirst :
  count_dots rs1 = O ->
  ReadFloat_cuts (rs1 ++ rs2) last isFirst = ReadFloat_cuts rs2 last isFirst.
Proof.
  induction rs1 as [| [i r] rs1 IH]; simpl; [reflexivity |].
  destruct (r =? rune_of "."); [discriminate | exact IH].
Qed.

(** Up to and including its first decimal point a number string is not
    cut. *)
Lemma ReadFloat_cuts_first_dot rs1 rs2 last :
  count_dots rs1 = 1%nat ->
  ReadFloat_cuts (rs1 ++ rs2) last true = ReadFloat_cuts rs2 last false.
Proof.
  induction rs1 as [| [i r] rs1 IH]; simpl; [discriminate |].
  destruct (r =? rune_of ".").
  - intros [= Hd]. apply ReadFloat_cuts_no_dot, Hd.
  - exact IH.
Qed.

Lemma ReadFloat_cuts_shift n rs last isFirst :
  ReadFloat_cuts (map (shift n) rs) (last + n) isFirst =
  (map (shift_cut n) (fst (ReadFloat_cuts rs last isFirst)),
   snd (ReadFloat_cuts rs last isFirst) + n).
Proof.
  revert last isFirst.
  induction rs as [| [i r] rs IH]; intros last isFirst; simpl; [reflexivity |].
  destruct (r =? rune_of "."); [destruct isFirst |]; try apply IH.
  rewrite IH. destruct (ReadFloat_cuts rs i false) as [cs l]. reflexivity.
Qed.

Lemma ReadFloat_cuts_nonneg rs last isFirst :
  Forall (fun ir => 0 <= fst ir) rs -> 0 <= last ->
  Forall (fun c => 0 <= fst c) (fst (ReadFloat_cuts rs last isFirst)) /\
  0 <= snd (ReadFloat_cuts rs last isFirst).
Proof.
  intros Hrs. revert last isFirst.
  induction Hrs as [| [i r] rs Hi _ IH]; intros last isFirst Hlast; simpl.
  - split; [constructor | exact Hlast].
  - simpl in Hi.
    destruct (r =? rune_of "."); [destruct isFirst |]; try (apply IH; lia).
    destruct (IH i false Hi) as [Hcs Hl].
    destruct (ReadFloat_cuts rs i false) as [cs l]. simpl in *.
    split; [constructor; [exact Hlast | exact Hcs] | exact Hl].
Qed.

Lemma number_cuts_nonneg numStr :
  Forall (fun c => 0 <= fst c) (number_cuts numStr).
Proof.
  unfold number_cuts.
  destruct (ReadFloat_cuts_nonneg (range numStr) 0 true) as [Hcs Hl];
    [apply range_from_nonneg; lia | lia |].
  destruct (ReadFloat_cuts (range numStr) 0 true) as [cs l]. simpl in *.
  apply Forall_app. split; [exact Hcs | repeat constructor; exact Hl].
Qed.

(** The cuts of a number string whose second decimal point comes right
    after [s1]: one cut around [s1], then the cuts of what starts at that
    point, moved behind [s1]. *)
Lemma number_cuts_second_dot s1 s2 :
  dots s1 = 1%nat ->
  number_cuts (String.append s1 (String "." s2)) =
  (0, len s1) :: map (shift_cut (len s1)) (number_cuts (String "." s2)).
Proof.
  intros Hd. unfold number_cuts, range.
  rewrite range_from_app by (simpl; lia || (vm_compute; reflexivity)).
  rewrite (ReadFloat_cuts_first_dot _ _ _ Hd).
  rewrite range_from_shift.
  change (range_from 0 0 (String "." s2))
    with ((0, rune_of ".") :: range_from 0 1 s2).
  change (ReadFloat_cuts ((0, rune_of ".") :: range_from 0 1 s2) 0 true)
    with (ReadFloat_cuts (range_from 0 1 s2) 0 false).
  change (map (shift (len s1)) ((0, rune_of ".") :: range_from 0 1 s2))
    with ((len s1, rune_of ".") :: map (shift (len s1)) (range_from 0 1 s2)).
  change (ReadFloat_cuts
            ((len s1, rune_of ".") :: map (shift (len s1)) (range_from 0 1 s2))
            0 false)
    with (let '(cs, l) :=
            ReadFloat_cuts (map (shift (len s1)) (range_from 0 1 s2))
                           (0 + len s1) false in
          ((0, len s1) :: cs, l)).
  rewrite ReadFloat_cuts_shift.
  destruct (ReadFloat_cuts (range_from 0 1 s2) 0 false) as [cs l].
  simpl fst. simpl snd. rewrite len_app.
  rewrite map_app. simpl. unfold shift_cut at 2. simpl.
  rewrite (Z.add_comm (len s1)). reflexivity.
Qed.

(** C1. A decimal point met after the first one ends the number read so
    far and starts the next number at that very point: when [s1] holds
    exactly one decimal point, ReadFloat on [s1] followed by a point and
    [s2] parses [s1], appends its value, and goes on as ReadFloat does on
    the string that starts at that point.  The text "1.5.5" has the two
    tokens "1.5" and ".5", and GetPoints leaves in the buffer exactly the
    two values strconv.ParseFloat returns for them. *)
Theorem second_decimal_point_starts_number
        (s1 s2 : string) (a b : float64) (p : Parser)
        (Hdot : dots s1 = 1%nat)
        (Ha : ParseFloat "1.5" 64 = inl a)
        (Hb : ParseFloat ".5" 64 = inl b) :
  ReadFloat (String.append s1 (String "." s2)) p
  = (read_one s1 ;; ReadFloat (String "." s2)) p /\
  tokens "1.5.5" = Some ["1.5"; ".5"] /\
  GetPoints "1.5.5" p = (set_points [a; b] p, Ok tt).
Proof.
  split; [| split].
  - rewrite ReadFloat_cuts_run, (number_cuts_second_dot _ _ Hdot).
    simpl for_each. unfold on_slice at 1. simpl fst. simpl snd.
    rewrite slice_app_prefix. simpl checked.
    rewrite bind_assoc, bind_ret_l.
    apply bind_ext. intros [] q.
    rewrite for_each_map, ReadFloat_cuts_run.
    apply for_each_ext.
    eapply Forall_impl; [apply number_cuts_nonneg |].
    intros [c d] Hc q1. unfold on_slice, shift_cut. simpl in *.
    rewrite slice_app_shift by exact Hc. reflexivity.
  - reflexivity.
  - apply (GetPoints_values "1.5.5" ["1.5"; ".5"] [a; b]); [reflexivity |].
    repeat constructor; assumption.
Qed.

(** C2. The rune ['e'] never ends a number, and a ['-'] that comes
    right after an ['e'] does not end one either; the text "1e-5" is
    one token, so that GetPoints leaves exactly one value in the
    buffer: the one strconv.ParseFloat returns for "1e-5". *)
Theorem exponent_minus_not_boundary (v : float64) (p : Parser)
        (Hv : ParseFloat "1e-5" 64 = inl v) :
  (forall lr, is_boundary lr (rune_of "e") = false) /\
  is_boundary (rune_of "e") (rune_of "-") = false /\
  tokens "1e-5" = Some ["1e-5"] /\
  GetPoints "1e-5" p = (set_points [v] p, Ok tt).
Proof.
  split; [| split; [| split]].
  - intros lr. unfold is_boundary.
    rewrite Z.eqb_refl. simpl. rewrite ?andb_false_r. reflexivity.
  - unfold is_boundary. rewrite !Z.eqb_refl. simpl.
    rewrite ?andb_false_r. reflexivity.
  - reflexivity.
  - apply (GetPoints_values "1e-5" ["1e-5"] [v]); [reflexivity |].
    repeat constructor. exact Hv.
Qed.

End Tokenizer.

(** ** What the methods leave untouched *)

Section Frames.

Context {float64 NumError : Type} `{RT : GoRuntime float64 NumError}.
Implicit Types p q r : @Parser float64.
Implicit Types e : @error NumError.
Local Open Scope go_scope.

Lemma buffer_only_refl p : buffer_only p p.
Proof. unfold buffer_only. destruct p; reflexivity. Qed.

Lemma buffer_only_trans p q r :
  buffer_only p q -> buffer_only q r -> buffer_only p r.
Proof. unfold buffer_only. intros -> ->. reflexivity. Qed.

Lemma buffer_only_dc p p' : buffer_only p p' -> dc p' = dc p.
Proof. intros ->. reflexivity. Qed.

Lemma read_one_buffer s p p' o : read_one s p = (p', o) -> buffer_only p p'.
Proof.
  unfold read_one, bind, try_parse.
  destruct (parseFloat s 64) as [f | e]; simpl; intros [= <- <-].
  - reflexivity.
  - apply buffer_only_refl.
Qed.

Lemma on_slice_buffer (f : string -> @M float64 NumError unit) s c p p' o :
  (forall t q q' o', f t q = (q', o') -> buffer_only q q') ->
  on_slice f s c p = (p', o) -> buffer_only p p'.
Proof.
  intros Hf. unfold on_slice, bind.
  destruct (slice s (fst c) (snd c)) as [t |]; simpl.
  - apply Hf.
  - intros [= <- <-]. apply buffer_only_refl.
Qed.

Lemma ReadFloat_buffer s p p' o : ReadFloat s p = (p', o) -> buffer_only p p'.
Proof.
  rewrite ReadFloat_cuts_run.
  apply (for_each_rel buffer_only);
    [apply buffer_only_refl | apply buffer_only_trans |].
  intros c q q' o'. apply on_slice_buffer, read_one_buffer.
Qed.

(** GetPoints changes nothing but the buffer of points. *)
Lemma GetPoints_buffer s p p' o : GetPoints s p = (p', o) -> buffer_only p p'.
Proof.
  rewrite GetPoints_cuts_run. intros Hrun.
  apply (buffer_only_trans _ (set_points [] p)); [reflexivity |].
  revert Hrun. apply (for_each_rel buffer_only);
    [apply buffer_only_refl | apply buffer_only_trans |].
  intros c q q' o'. apply on_slice_buffer, ReadFloat_buffer.
Qed.

Lemma on_slice_fails_only (P : error -> Prop) (f : string -> @M float64 NumError unit) s c :
  (forall t, fails_only P (f t)) -> fails_only P (on_slice f s c).
Proof.
  intros Hf. unfold on_slice. apply fails_only_bind; [| exact Hf].
  apply fails_only_err_free, err_free_checked.
Qed.

Lemma read_one_fails_only s : fails_only is_errNum (read_one s).
Proof.
  intros p p' e. unfold read_one, bind, try_parse.
  destruct (parseFloat s 64) as [f | ne]; simpl; intros [= _ <-].
  exists ne. reflexivity.
Qed.

Lemma ReadFloat_fails_only s : fails_only is_errNum (ReadFloat s).
Proof.
  intros p p' e. rewrite ReadFloat_cuts_run. revert p p' e.
  apply fails_only_for_each. intros c.
  apply on_slice_fails_only, read_one_fails_only.
Qed.

(** The only error GetPoints returns is that of a number that does not
    parse. *)
Lemma GetPoints_fails_only s : fails_only is_errNum (GetPoints s).
Proof.
  intros p p' e. rewrite GetPoints_cuts_run. generalize (set_points [] p).
  intros q. revert q p' e.
  apply fails_only_for_each. intros c.
  apply on_slice_fails_only, ReadFloat_fails_only.
Qed.

Lemma pt_state i p p' o : @pt float64 NumError i p = (p', o) -> p' = p.
Proof.
  unfold pt. destruct (getf (points p) i); simpl; intros [= <- _]; reflexivity.
Qed.

Lemma pointsToAbs_buffer sz p p' o :
  pointsToAbs sz p = (p', o) -> buffer_only p p'.
Proof.
  unfold pointsToAbs.
  destruct (pointsToAbs_outer _ _ _ _ _ _); intros [= <- <-].
  - reflexivity.
  - apply buffer_only_refl.
Qed.

Lemma hasSetsOrMore_buffer sz rel p p' o :
  hasSetsOrMore sz rel p = (p', o) -> buffer_only p p'.
Proof.
  unfold hasSetsOrMore. rewrite bind_gets.
  destruct (negb (sz <=? npoints p));
    [intros [= <- <-]; apply buffer_only_refl |].
  destruct (sz =? 0); [intros [= <- <-]; apply buffer_only_refl |].
  destruct (negb (Z.rem (npoints p) sz =? 0));
    [intros [= <- <-]; apply buffer_only_refl |].
  destruct rel; [| intros [= <- <-]; apply buffer_only_refl].
  unfold bind. destruct (pointsToAbs sz p) as [p1 [[] | e |]] eqn:Hp;
    intros [= <- <-]; apply (pointsToAbs_buffer _ _ _ _ Hp).
Qed.

(** hasSetsOrMore never returns an error. *)
Lemma hasSetsOrMore_no_Err sz rel p p' e :
  hasSetsOrMore sz rel p <> (p', Err e).
Proof.
  unfold hasSetsOrMore. rewrite bind_gets.
  destruct (negb (sz <=? npoints p)); [discriminate |].
  destruct (sz =? 0); [discriminate |].
  destruct (negb (Z.rem (npoints p) sz =? 0)); [discriminate |].
  destruct rel; [| discriminate].
  unfold bind, pointsToAbs.
  destruct (pointsToAbs_outer _ _ _ _ _ _); discriminate.
Qed.

(** The loop of the MoveTo case only adds LineTo calls, and does not
    return an error. *)
Lemma lineTo_loop_calls fuel i l p p' o :
  lineTo_loop fuel i l p = (p', o) ->
  (exists cs, p' = emit_all cs p /\ forallb is_draw cs = true) /\
  (forall e, o <> Err e).
Proof.
  revert i p. induction fuel as [| fuel IH]; intros i p; simpl.
  - intros [= <- <-]. split; [| discriminate].
    exists []. split; [| reflexivity].
    unfold emit_all. rewrite app_nil_r. destruct p; reflexivity.
  - destruct (i <? l - 1).
    2:{ intros [= <- <-]. split; [| discriminate].
        exists []. split; [| reflexivity].
        unfold emit_all. rewrite app_nil_r. destruct p; reflexivity. }
    unfold bind at 1, pt at 1.
    destruct (getf (points p) i) as [x |]; simpl.
    2:{ intros [= <- <-]. split; [| discriminate].
        exists []. split; [| reflexivity].
        unfold emit_all. rewrite app_nil_r. destruct p; reflexivity. }
    unfold bind at 1, pt at 1.
    destruct (getf (points p) (i + 1)) as [y |]; simpl.
    2:{ intros [= <- <-]. split; [| discriminate].
        exists []. split; [| reflexivity].
        unfold emit_all. rewrite app_nil_r. destruct p; reflexivity. }
    rewrite bind_modify. intros Hrest.
    destruct (IH _ _ Hrest) as [(cs & -> & Hcs) Hne].
    split; [| exact Hne].
    exists (LineTo x y :: cs). split; [| exact Hcs].
    unfold emit_all, emit. simpl. rewrite <- app_assoc. reflexivity.
Qed.

Lemma draws_refl p : draws p p.
Proof. exists []. split; [| reflexivity]. unfold drawn. rewrite app_nil_r. reflexivity. Qed.

Lemma draws_trans p q r : draws p q -> draws q r -> draws p r.
Proof.
  intros (cs1 & H1 & Hd1) (cs2 & H2 & Hd2). exists (cs1 ++ cs2). split.
  - unfold drawn in *. rewrite H2, H1, app_assoc. reflexivity.
  - rewrite forallb_app, Hd1, Hd2. reflexivity.
Qed.

Lemma same_dc_refl p : same_dc p p.
Proof. reflexivity. Qed.

Lemma same_dc_trans p q r : same_dc p q -> same_dc q r -> same_dc p r.
Proof. unfold same_dc. congruence. Qed.

Lemma same_dc_draws p p' : same_dc p p' -> draws p p'.
Proof.
  intros Hs. exists []. split; [| reflexivity].
  unfold drawn. rewrite app_nil_r. exact Hs.
Qed.

Lemma GetPoints_same_dc s : respects same_dc (GetPoints s).
Proof. intros p p' o Hg. apply buffer_only_dc, (GetPoints_buffer _ _ _ _ Hg). Qed.

Lemma hasSetsOrMore_same_dc sz rel : respects same_dc (hasSetsOrMore sz rel).
Proof.
  intros p p' o Hh. apply buffer_only_dc, (hasSetsOrMore_buffer _ _ _ _ _ Hh).
Qed.

Lemma pt_same_dc i : respects same_dc (@pt float64 NumError i).
Proof. intros p p' o Hp. rewrite (pt_state _ _ _ _ Hp). reflexivity. Qed.

Lemma pt_err_free i : err_free (@pt float64 NumError i).
Proof. intros p p' e. unfold pt. destruct (getf (points p) i); discriminate. Qed.

Lemma lineTo_loop_err_free fuel i l : err_free (@lineTo_loop float64 NumError fuel i l).
Proof.
  intros p p' e Hl. apply lineTo_loop_calls in Hl as [_ Hne]. exact (Hne e eq_refl).
Qed.

Lemma lineTo_loop_draws fuel i l : respects draws (@lineTo_loop float64 NumError fuel i l).
Proof.
  intros p p' o Hl. apply lineTo_loop_calls in Hl as [(cs & -> & Hcs) _].
  exists cs. split; [reflexivity | exact Hcs].
Qed.

Lemma respects_same_dc_draws {A} (m : @M float64 NumError A) :
  respects same_dc m -> respects draws m.
Proof. intros Hm p p' o Hx. apply same_dc_draws, (Hm _ _ _ Hx). Qed.

End Frames.

(** Walking through the body of a method: [leaf] settles its calls,
    sequencing and branching are split. *)
Ltac step_respects refl trans leaf :=
  cbv zeta;
  repeat first
    [ leaf
    | apply respects_ret; exact refl
    | apply respects_fail; exact refl
    | apply respects_panic; exact refl
    | apply respects_gets; exact refl
    | apply respects_modify; intros ?; reflexivity
    | apply respects_bind; [exact trans | | intros ?]
    | match goal with
      | |- respects _ (if ?c then _ else _) => destruct c
      end ].

Ltac step_err_free :=
  repeat first
    [ apply err_free_ret | apply err_free_gets | apply err_free_modify
    | apply err_free_checked | apply pt_err_free | apply lineTo_loop_err_free
    | apply err_free_bind; [| intros ?] ].

Section SwitchFrames.

Context {float64 NumError : Type} `{RT : GoRuntime float64 NumError}.
Implicit Types p q r : @Parser float64.
Implicit Types e : @error NumError.
Local Open Scope go_scope.

(** The switch of addSeg makes no ClosePath call. *)
Lemma addSeg_switch_draws k l : respects draws (addSeg_switch k l).
Proof.
  unfold addSeg_switch, moveTo_case, seg_done, valsToAbs.
  step_respects (@draws_refl float64) (@draws_trans float64)
    ltac:(first
            [ apply respects_same_dc_draws, hasSetsOrMore_same_dc
            | apply respects_same_dc_draws, pt_same_dc
            | apply lineTo_loop_draws
            | apply respects_modify; intros ?; apply same_dc_draws; reflexivity
            | apply respects_modify; intros ?; eexists [_]; split; reflexivity ]).
Qed.

Theorem addSeg_draws segString : respects draws (addSeg segString).
Proof.
  unfold addSeg. destruct segString as [| k args].
  - apply respects_panic, draws_refl.
  - apply respects_bind; [exact draws_trans | | intros _].
    + intros p p' o Hg. apply same_dc_draws. revert Hg. apply GetPoints_same_dc.
    + apply respects_bind; [exact draws_trans | | intros l].
      * apply respects_gets, draws_refl.
      * apply addSeg_switch_draws.
Qed.

Lemma quiet_of_same_dc {A} (m : @M float64 NumError A) : respects same_dc m -> quiet_on_error m.
Proof. intros Hm p p' e He. exact (Hm _ _ _ He). Qed.

Lemma quiet_of_err_free {A} (m : @M float64 NumError A) : err_free m -> quiet_on_error m.
Proof. intros Hm p p' e He. destruct (Hm _ _ _ He). Qed.

Lemma quiet_bind {A B} (m : @M float64 NumError A) (f : A -> @M float64 NumError B) :
  respects same_dc m -> (forall a, quiet_on_error (f a)) ->
  quiet_on_error (bind m f).
Proof.
  intros Hm Hf p p' e Hb.
  apply bind_inv_Err in Hb as [Hx | (p1 & a & Hx & Hy)].
  - exact (Hm _ _ _ Hx).
  - rewrite (Hf _ _ _ _ Hy). exact (Hm _ _ _ Hx).
Qed.

(** An error return of the switch of addSeg comes before any call on the
    drawing context. *)
Lemma addSeg_switch_quiet k l : quiet_on_error (addSeg_switch k l).
Proof.
  unfold addSeg_switch, moveTo_case, seg_done, valsToAbs. cbv zeta.
  destruct (key_is k "z" || key_is k "Z").
  { apply quiet_of_same_dc.
    step_respects (@same_dc_refl float64) (@same_dc_trans float64) ltac:(fail). }
  destruct (key_is k "m" || key_is k "M").
  { apply quiet_bind; [apply hasSetsOrMore_same_dc | intros ok].
    destruct (negb ok).
    - apply quiet_of_same_dc, respects_fail, same_dc_refl.
    - apply quiet_of_err_free. step_err_free. }
  apply quiet_of_same_dc.
  step_respects (@same_dc_refl float64) (@same_dc_trans float64) ltac:(fail).
Qed.

Theorem addSeg_quiet segString : quiet_on_error (addSeg segString).
Proof.
  unfold addSeg. destruct segString as [| k args].
  - apply quiet_of_err_free, err_free_panic.
  - apply quiet_bind; [apply GetPoints_same_dc | intros _].
    apply quiet_bind; [apply respects_gets, same_dc_refl | intros l].
    apply addSeg_switch_quiet.
Qed.

(** The segments handled before an error, or all of them, make no
    ClosePath call. *)
Lemma for_each_addSeg_draws segs : respects draws (for_each addSeg segs).
Proof.
  apply respects_for_each;
    [exact draws_refl | exact draws_trans | exact addSeg_draws].
Qed.

Lemma init_dc p : dc (init p) = dc p.
Proof. reflexivity. Qed.

(** Every error return of CompilePath is the error of one segment,
    reached after the segments before it were handled without error. *)
Theorem CompilePath_Err_inv svgPath p p' e :
  CompilePath svgPath p = (p', Err e) ->
  exists pre seg post p1,
    segments svgPath = pre ++ seg :: post /\
    for_each addSeg pre (init p) = (p1, Ok tt) /\
    addSeg seg p1 = (p', Err e).
Proof.
  rewrite CompilePath_segments. intros Hb.
  apply bind_inv_Err in Hb as [Hrun | (p1 & [] & _ & Hclose)];
    [| discriminate].
  apply for_each_inv_Err, Hrun.
Qed.

(** The error of a segment is the result of CompilePath: what comes after
    the segment is not looked at, and the path is not closed. *)
Theorem CompilePath_stops svgPath p pre seg post p1 p2 e :
  segments svgPath = pre ++ seg :: post ->
  for_each addSeg pre (init p) = (p1, Ok tt) ->
  addSeg seg p1 = (p2, Err e) ->
  CompilePath svgPath p = (p2, Err e).
Proof.
  intros Hsegs Hpre Hseg. rewrite CompilePath_segments, Hsegs.
  apply bind_Err. apply (for_each_stops _ _ _ _ _ _ _ _ Hpre Hseg).
Qed.

End SwitchFrames.

(** ** The switch of addSeg, case by case *)

Section Dispatcher.

Context {float64 NumError : Type} `{RT : GoRuntime float64 NumError}.
Implicit Types p q r : @Parser float64.
Implicit Types e : @error NumError.
Local Open Scope go_scope.

Lemma key_in_In k ks : key_in k ks = true <-> In k ks.
Proof.
  unfold key_in. rewrite existsb_exists. split.
  - intros (c & Hc & Hk). apply Ascii.eqb_eq in Hk. subst. exact Hc.
  - intros Hk. exists k. split; [exact Hk | apply Ascii.eqb_refl].
Qed.

Lemma emit_all_nil p : emit_all [] p = p.
Proof. unfold emit_all. rewrite app_nil_r. destruct p; reflexivity. Qed.

Lemma pairs_count_iff n : pairs_count n <-> exists m, 0 < m /\ n = 2 * m.
Proof.
  unfold pairs_count. split.
  - intros [Hle Hrem]. apply Z.rem_divide in Hrem; [| lia].
    destruct Hrem as [m ->]. exists m. lia.
  - intros (m & Hm & ->). split; [lia |].
    rewrite Z.mul_comm. apply Z.rem_mul. lia.
Qed.

(** ClosePath: arguments are refused; an open subpath is closed by moving
    the cursor back to its start. *)
Lemma addSeg_switch_close k l p :
  key_in k close_keys = true ->
  addSeg_switch k l p =
  if negb (npoints p =? 0) then (p, Err errParamMismatch)
  else (after_close k p, Ok tt).
Proof.
  intros Hk. apply key_in_In in Hk.
  unfold addSeg_switch, after_close.
  destruct Hk as [<- | [<- | []]]; simpl; rewrite bind_gets;
    destruct (negb (npoints p =? 0)); try reflexivity;
    unfold bind, gets, seg_done, modify; destruct (inPath p); reflexivity.
Qed.

(** The commands that are known but not implemented. *)
Lemma addSeg_switch_unimplemented k l p :
  key_in k unimplemented_keys = true ->
  exists p', addSeg_switch k l p = (p', Err errNotImplemented) /\
             buffer_only p p'.
Proof.
  intros Hk. apply key_in_In in Hk. unfold addSeg_switch.
  repeat (destruct Hk as [<- | Hk];
          [eexists; split; [reflexivity | first [apply buffer_only_refl | reflexivity]] |]).
  destruct Hk.
Qed.

(** A letter without a case of its own. *)
Lemma addSeg_switch_unknown k l p :
  recognized k = false ->
  addSeg_switch k l p =
  if ErrMode p =? StrictErrorMode then (p, Err errCommandUnknown)
  else (after_skip k p, Ok tt).
Proof.
  unfold recognized, key_in, close_keys, move_keys, unimplemented_keys.
  simpl. rewrite !orb_false_r, !orb_false_iff.
  intros Hk. unfold addSeg_switch.
  repeat match goal with
         | H : _ /\ _ |- _ => destruct H
         end.
  repeat match goal with
         | H : key_is k _ = false |- _ => rewrite H; clear H
         end.
  simpl. rewrite bind_gets.
  destruct (ErrMode p =? StrictErrorMode); [reflexivity |].
  unfold after_skip, seg_done.
  destruct (ErrMode p =? WarnErrorMode); reflexivity.
Qed.

Lemma hasSetsOrMore_2_false rel p :
  ~ pairs_count (npoints p) -> hasSetsOrMore 2 rel p = (p, Ok false).
Proof.
  unfold pairs_count, hasSetsOrMore. intros Hn. rewrite bind_gets.
  destruct (2 <=? npoints p) eqn:Hle; simpl; [| reflexivity].
  destruct (Z.rem (npoints p) 2 =? 0) eqn:Hrem; simpl; [| reflexivity].
  apply Z.leb_le in Hle. apply Z.eqb_eq in Hrem. tauto.
Qed.

Lemma hasSetsOrMore_2_abs p :
  pairs_count (npoints p) -> hasSetsOrMore 2 false p = (p, Ok true).
Proof.
  unfold pairs_count, hasSetsOrMore. intros [Hle Hrem]. rewrite bind_gets.
  apply Z.leb_le in Hle. apply Z.eqb_eq in Hrem. rewrite Hle, Hrem. reflexivity.
Qed.

(** What the answer of hasSetsOrMore says about the number of values. *)
Lemma hasSetsOrMore_2_inv rel p p' ok :
  hasSetsOrMore 2 rel p = (p', Ok ok) ->
  if ok then pairs_count (npoints p) else (p' = p /\ ~ pairs_count (npoints p)).
Proof.
  unfold pairs_count, hasSetsOrMore. rewrite bind_gets.
  destruct (2 <=? npoints p) eqn:Hle; simpl.
  2:{ intros [= <- <-]. apply Z.leb_gt in Hle. split; [reflexivity | lia]. }
  destruct (Z.rem (npoints p) 2 =? 0) eqn:Hrem; simpl.
  2:{ intros [= <- <-]. apply Z.eqb_neq in Hrem. split; [reflexivity | tauto]. }
  apply Z.leb_le in Hle. apply Z.eqb_eq in Hrem.
  destruct rel.
  - unfold bind. destruct (pointsToAbs 2 p) as [q [[] | e |]];
      [| discriminate | discriminate].
    intros [= <- <-]. split; assumption.
  - intros [= <- <-]. split; assumption.
Qed.

(** MoveTo with a wrong number of values: the error comes before any
    change to the parser. *)
Lemma addSeg_switch_move_mismatch k l p :
  key_in k move_keys = true -> ~ pairs_count (npoints p) ->
  addSeg_switch k l p = (p, Err errParamMismatch).
Proof.
  intros Hk Hn. apply key_in_In in Hk. unfold addSeg_switch.
  destruct Hk as [<- | [<- | []]]; simpl;
    unfold bind; rewrite (hasSetsOrMore_2_false _ _ Hn); reflexivity.
Qed.

(** MoveTo returns no other error, and returns it only then. *)
Lemma addSeg_switch_move_Err k l p p' e :
  key_in k move_keys = true ->
  addSeg_switch k l p = (p', Err e) ->
  e = errParamMismatch /\ p' = p /\ ~ pairs_count (npoints p).
Proof.
  intros Hk. apply key_in_In in Hk. unfold addSeg_switch, moveTo_case, seg_done.
  destruct Hk as [<- | [<- | []]]; simpl; intros Hb;
    (apply bind_inv_Err in Hb as [Hh | (p1 & ok & Hh & Hb)];
     [destruct (hasSetsOrMore_no_Err _ _ _ _ _ Hh) |]);
    apply hasSetsOrMore_2_inv in Hh; destruct ok; simpl in Hb;
      try (destruct Hh as [-> Hn]; injection Hb as <- <-; auto);
      exfalso;
      match type of Hb with
      | ?m ?q = _ =>
        assert (Hf : err_free m) by step_err_free; exact (Hf _ _ _ Hb)
      end.
Qed.

Lemma getf_middle (pre suf : list float64) (x : float64) :
  getf (pre ++ x :: suf) (Z.of_nat (length pre)) = Some x.
Proof.
  unfold getf. destruct (Z.of_nat (length pre) <? 0) eqn:Hneg;
    [apply Z.ltb_lt in Hneg; lia |].
  rewrite Nat2Z.id. apply list_lookup_middle. reflexivity.
Qed.

(** The loop of the MoveTo case makes one LineTo for each pair from
    index [i] on. *)
Lemma lineTo_loop_pairs n : forall pre suf p fuel,
  points p = pre ++ suf ->
  length suf = (2 * n)%nat ->
  (length suf <= fuel)%nat ->
  @lineTo_loop float64 NumError fuel (Z.of_nat (length pre)) (npoints p) p
  = (emit_all (line_calls suf) p, Ok tt).
Proof.
  induction n as [| n IH]; intros pre suf p fuel Hpts Hlen Hfuel.
  - destruct suf; [| discriminate]. simpl. rewrite emit_all_nil.
    destruct fuel; simpl; [reflexivity |].
    unfold npoints. rewrite Hpts, app_nil_r.
    destruct (Z.of_nat (length pre) <? Z.of_nat (length pre) - 1) eqn:Hlt;
      [apply Z.ltb_lt in Hlt; lia | reflexivity].
  - destruct suf as [| x [| y suf]]; simpl in Hlen; try lia.
    destruct fuel as [| fuel]; simpl in Hfuel; [lia |].
    simpl lineTo_loop.
    assert (Hl : npoints p = Z.of_nat (length pre) + 2 + Z.of_nat (length suf)).
    { unfold npoints. rewrite Hpts, length_app. simpl. lia. }
    destruct (Z.of_nat (length pre) <? npoints p - 1) eqn:Hlt;
      [| apply Z.ltb_ge in Hlt; lia].
    unfold bind at 1, pt at 1. rewrite Hpts, getf_middle. simpl.
    unfold bind at 1, pt at 1. rewrite Hpts.
    replace (Z.of_nat (length pre) + 1) with (Z.of_nat (length (pre ++ [x])))
      by (rewrite length_app; simpl; lia).
    rewrite (cons_middle x pre (y :: suf)), app_assoc, getf_middle. simpl.
    rewrite bind_modify.
    replace (Z.of_nat (length pre) + 2)
      with (Z.of_nat (length (pre ++ [x; y])))
      by (rewrite length_app; simpl; lia).
    change (npoints p) with (npoints (emit (LineTo x y) p)).
    rewrite (IH (pre ++ [x; y]) suf (emit (LineTo x y) p) fuel);
      [| simpl; rewrite Hpts, <- app_assoc; reflexivity | lia | lia].
    unfold emit_all, emit. simpl. rewrite <- app_assoc. reflexivity.
Qed.

(** The last two values of the buffer are the last pair. *)
Lemma last_pair_lookup n : forall (x y : float64) (rest : list float64),
  length rest = (2 * n)%nat ->
  (x :: y :: rest) !! length rest = Some (fst (last_pair x y rest)) /\
  (x :: y :: rest) !! S (length rest) = Some (snd (last_pair x y rest)).
Proof.
  induction n as [| n IH]; intros x y rest Hlen.
  - destruct rest; [| discriminate]. split; reflexivity.
  - destruct rest as [| x' [| y' rest]]; simpl in Hlen; try lia.
    destruct (IH x' y' rest) as [Hx Hy]; [lia |].
    split; [exact Hx | exact Hy].
Qed.

(** The MoveTo case over the pairs [(x0, y0)], [rest]. *)
Lemma moveTo_case_pairs k n p x0 y0 rest :
  points p = x0 :: y0 :: rest ->
  length rest = (2 * n)%nat ->
  @moveTo_case float64 NumError k (npoints p) p
  = (after_move k x0 y0 rest p, Ok tt).
Proof.
  intros Hpts Hlen.
  assert (Hn : npoints p = Z.of_nat (length rest) + 2).
  { unfold npoints. rewrite Hpts. simpl. lia. }
  unfold moveTo_case.
  unfold bind at 1, pt at 1. rewrite Hpts. simpl.
  unfold bind at 1, pt at 1. rewrite Hpts. simpl.
  rewrite !bind_modify.
  unfold bind at 1, pt at 1. simpl points. rewrite Hpts. simpl.
  unfold bind at 1, pt at 1. simpl points. rewrite Hpts. simpl.
  rewrite bind_modify.
  set (q := emit (MoveTo x0 y0) (set_inPath true (set_pathStart x0 y0 p))).
  assert (Hq : points q = [x0; y0] ++ rest) by (simpl; exact Hpts).
  pose proof (lineTo_loop_pairs n [x0; y0] rest q (Z.to_nat (npoints p)) Hq Hlen)
    as Hloop.
  change (npoints q) with (npoints p) in Hloop.
  rewrite (bind_Ok _ _ _ _ _ (Hloop ltac:(lia))).
  destruct (last_pair_lookup n x0 y0 rest Hlen) as [Hx Hy].
  unfold bind at 1, pt at 1, getf. simpl points. rewrite Hpts, Hn.
  destruct (Z.of_nat (length rest) + 2 - 2 <? 0) eqn:Hneg;
    [apply Z.ltb_lt in Hneg; lia |].
  replace (Z.to_nat (Z.of_nat (length rest) + 2 - 2)) with (length rest) by lia.
  rewrite Hx. simpl checked. unfold ret at 1. cbv beta iota.
  rewrite bind_modify.
  unfold bind at 1, pt at 1, getf. simpl points. rewrite Hpts.
  destruct (Z.of_nat (length rest) + 2 - 1 <? 0) eqn:Hneg1;
    [apply Z.ltb_lt in Hneg1; lia |].
  replace (Z.to_nat (Z.of_nat (length rest) + 2 - 1)) with (S (length rest))
    by lia.
  rewrite Hy. simpl checked. unfold ret at 1. cbv beta iota.
  rewrite bind_modify.
  unfold seg_done, modify, after_move, q, emit_all, emit. simpl.
  rewrite <- app_assoc. reflexivity.
Qed.

Lemma pairs_count_even n (rest : list float64) :
  length rest = (2 * n)%nat -> pairs_count (Z.of_nat (length rest) + 2).
Proof.
  intros Hlen. split; [lia |]. rewrite Hlen.
  replace (Z.of_nat (2 * n) + 2) with ((Z.of_nat n + 1) * 2) by lia.
  apply Z.rem_mul. lia.
Qed.

(** An absolute MoveTo over the pairs [(x0, y0)], [rest]. *)
Lemma addSeg_switch_move_abs n p x0 y0 rest :
  points p = x0 :: y0 :: rest ->
  length rest = (2 * n)%nat ->
  addSeg_switch "M"%char (npoints p) p
  = (after_move "M"%char x0 y0 rest p, Ok tt).
Proof.
  intros Hpts Hlen.
  assert (Hpc : pairs_count (npoints p)).
  { unfold npoints. rewrite Hpts. simpl length.
    replace (Z.of_nat (S (S (length rest)))) with (Z.of_nat (length rest) + 2)
      by lia.
    apply (pairs_count_even n), Hlen. }
  unfold addSeg_switch. simpl.
  rewrite (bind_Ok _ _ _ _ _ (hasSetsOrMore_2_abs _ Hpc)). simpl.
  apply (moveTo_case_pairs _ n); assumption.
Qed.

(** addSeg once its argument text has been read. *)
Lemma addSeg_run k args p p1 :
  GetPoints args p = (p1, Ok tt) ->
  addSeg (String k args) p = addSeg_switch k (npoints p1) p1.
Proof.
  intros Hg. unfold addSeg. rewrite (bind_Ok _ _ _ _ _ Hg), bind_gets.
  reflexivity.
Qed.

(** An error in the argument text is the error of addSeg, whatever the
    command letter. *)
Lemma addSeg_parse_error k args p p1 e :
  GetPoints args p = (p1, Err e) ->
  addSeg (String k args) p = (p1, Err e).
Proof. intros Hg. unfold addSeg. apply bind_Err, Hg. Qed.

Lemma addSeg_move_abs n args p p1 x0 y0 rest :
  GetPoints args p = (p1, Ok tt) ->
  points p1 = x0 :: y0 :: rest ->
  length rest = (2 * n)%nat ->
  addSeg (String "M" args) p = (after_move "M"%char x0 y0 rest p1, Ok tt).
Proof.
  intros Hg Hpts Hlen. rewrite (addSeg_run _ _ _ _ Hg).
  apply (addSeg_switch_move_abs n), Hlen. exact Hpts.
Qed.

Lemma addSeg_close k args p p1 :
  key_in k close_keys = true ->
  GetPoints args p = (p1, Ok tt) ->
  addSeg (String k args) p =
  if negb (npoints p1 =? 0) then (p1, Err errParamMismatch)
  else (after_close k p1, Ok tt).
Proof.
  intros Hk Hg. rewrite (addSeg_run _ _ _ _ Hg).
  apply addSeg_switch_close, Hk.
Qed.

(** An argument text without any number leaves the buffer empty. *)
Lemma GetPoints_nothing args p p1 :
  GetPoints args p = (p1, Ok tt) -> points p1 = [] -> p1 = set_points [] p.
Proof.
  intros Hg Hpts. rewrite (GetPoints_buffer _ _ _ _ Hg), Hpts. reflexivity.
Qed.

Lemma read_one_panic_free s : panic_free (read_one s).
Proof.
  intros p p'. unfold read_one, bind, try_parse.
  destruct (parseFloat s 64); discriminate.
Qed.

(** GetPoints parses the tokens of its argument text one after the
    other into the emptied buffer. *)
Theorem GetPoints_token_list dataPoints p :
  GetPoints dataPoints p
  = for_each read_one (token_list dataPoints) (set_points [] p).
Proof. apply GetPoints_tokens, tokens_total. Qed.

Lemma GetPoints_panic_free dataPoints : panic_free (GetPoints dataPoints).
Proof.
  intros p p'. rewrite GetPoints_token_list.
  apply panic_free_for_each. apply Forall_forall. intros t _.
  apply read_one_panic_free.
Qed.

Lemma setf_middle (pre suf : list float64) (x v : float64) :
  setf (pre ++ x :: suf) (Z.of_nat (length pre)) v = pre ++ v :: suf.
Proof.
  unfold setf. rewrite Nat2Z.id, insert_app_r_alt by lia.
  rewrite Nat.sub_diag. reflexivity.
Qed.

(** One round of the inner loop of pointsToAbs, for a group of two. *)
Lemma pointsToAbs_inner_pair (pre suf : list float64) x y lastX lastY :
  pointsToAbs_inner 2 2 (Z.of_nat (length pre)) 0 lastX lastY
                    (pre ++ x :: y :: suf)
  = Some (pre ++ f64_add x lastX :: f64_add y lastY :: suf).
Proof.
  cbn [pointsToAbs_inner].
  change (0 <? 2) with true. change (0 + 2 <? 2) with false.
  change (0 + 1) with 1. cbv iota.
  rewrite Z.add_0_l, getf_middle, setf_middle.
  replace (1 + Z.of_nat (length pre))
    with (Z.of_nat (length (pre ++ [f64_add x lastX])))
    by (rewrite length_app; simpl; lia).
  rewrite (cons_middle (f64_add x lastX) pre (y :: suf)), app_assoc.
  rewrite getf_middle, setf_middle, <- app_assoc. reflexivity.
Qed.

(** pointsToAbs(2) on an even number of values. *)
Lemma pointsToAbs_outer_pairs n : forall (pre suf : list float64) lastX lastY fuel,
  length suf = (2 * n)%nat ->
  (length suf <= fuel)%nat ->
  pointsToAbs_outer fuel 2 (Z.of_nat (length pre)) lastX lastY (pre ++ suf)
  = Some (pre ++ rel_pairs lastX lastY suf).
Proof.
  induction n as [| n IH]; intros pre suf lastX lastY fuel Hlen Hfuel.
  - destruct suf; [| discriminate]. simpl.
    destruct fuel; simpl; [reflexivity |].
    rewrite app_nil_r.
    destruct (Z.of_nat (length pre) <? Z.of_nat (length pre)) eqn:Hlt;
      [apply Z.ltb_lt in Hlt; lia | reflexivity].
  - destruct suf as [| x [| y suf]]; simpl in Hlen; try lia.
    destruct fuel as [| fuel]; simpl in Hfuel; [lia |].
    cbn [pointsToAbs_outer].
    destruct (Z.of_nat (length pre) <? Z.of_nat (length (pre ++ x :: y :: suf)))
      eqn:Hlt; [| apply Z.ltb_ge in Hlt; rewrite length_app in Hlt; simpl in Hlt; lia].
    change (Z.to_nat 2) with 2%nat.
    rewrite pointsToAbs_inner_pair.
    replace (Z.of_nat (length pre) + 2 - 2) with (Z.of_nat (length pre)) by lia.
    rewrite getf_middle.
    replace (Z.of_nat (length pre) + 2 - 1)
      with (Z.of_nat (length (pre ++ [f64_add x lastX])))
      by (rewrite length_app; simpl; lia).
    rewrite (cons_middle (f64_add x lastX) pre), app_assoc, getf_middle.
    rewrite <- app_assoc. simpl.
    replace (Z.of_nat (length pre) + 2)
      with (Z.of_nat (length (pre ++ [f64_add x lastX; f64_add y lastY])))
      by (rewrite length_app; simpl; lia).
    replace (pre ++ f64_add x lastX :: f64_add y lastY :: suf)
      with ((pre ++ [f64_add x lastX; f64_add y lastY]) ++ suf)
      by (rewrite <- app_assoc; reflexivity).
    rewrite (IH _ suf _ _ fuel) by lia.
    rewrite <- app_assoc. reflexivity.
Qed.

Lemma hasSetsOrMore_2_rel n p :
  length (points p) = (2 * n)%nat -> (1 <= n)%nat ->
  hasSetsOrMore 2 true p
  = (set_points (rel_pairs (placeX p) (placeY p) (points p)) p, Ok true).
Proof.
  intros Hlen Hn. unfold hasSetsOrMore. rewrite bind_gets.
  assert (Hle : (2 <=? npoints p) = true)
    by (apply Z.leb_le; unfold npoints; lia).
  assert (Hrem : (Z.rem (npoints p) 2 =? 0) = true).
  { apply Z.eqb_eq. unfold npoints. rewrite Hlen.
    replace (Z.of_nat (2 * n)) with (Z.of_nat n * 2) by lia.
    apply Z.rem_mul. lia. }
  rewrite Hle, Hrem. simpl. unfold bind, pointsToAbs.
  rewrite (pointsToAbs_outer_pairs n [] (points p)) by lia.
  reflexivity.
Qed.

Lemma rel_pairs_length lastX lastY (pts : list float64) n :
  length pts = (2 * n)%nat -> length (rel_pairs lastX lastY pts) = length pts.
Proof.
  revert lastX lastY pts. induction n as [| n IH]; intros lastX lastY pts Hlen.
  - destruct pts; [reflexivity | discriminate].
  - destruct pts as [| x [| y pts]]; simpl in Hlen; try lia.
    simpl. rewrite (IH _ _ pts) by lia. reflexivity.
Qed.

Lemma set_points_same p : set_points (points p) p = p.
Proof. destruct p; reflexivity. Qed.

(** A MoveTo, absolute or relative, over values that make the pairs
    [(x0, y0)], [rest] once resolved. *)
Theorem addSeg_switch_move k n p x0 y0 rest :
  key_in k move_keys = true ->
  length (points p) = (2 * S n)%nat ->
  resolved k p = x0 :: y0 :: rest ->
  addSeg_switch k (npoints p) p
  = (after_move k x0 y0 rest (set_points (x0 :: y0 :: rest) p), Ok tt).
Proof.
  intros Hk Hlen Hres. apply key_in_In in Hk.
  assert (Hrest : length rest = (2 * n)%nat).
  { assert (Hl : length (resolved k p) = length (points p)).
    { unfold resolved. destruct (key_is k "m"); [| reflexivity].
      apply (rel_pairs_length _ _ _ (S n)), Hlen. }
    rewrite Hres, Hlen in Hl. simpl in Hl. lia. }
  assert (Hnp : npoints (set_points (x0 :: y0 :: rest) p) = npoints p).
  { unfold npoints. simpl points. rewrite Hlen. simpl length. lia. }
  unfold resolved in Hres. unfold addSeg_switch.
  destruct Hk as [<- | [<- | []]]; simpl in Hres |- *.
  - rewrite (bind_Ok _ _ _ _ _ (hasSetsOrMore_2_rel (S n) p Hlen ltac:(lia))).
    simpl. rewrite Hres, <- Hnp.
    apply (moveTo_case_pairs _ n); [reflexivity | exact Hrest].
  - assert (Hpc : pairs_count (npoints p)).
    { unfold npoints. rewrite Hres. simpl length.
      replace (Z.of_nat (S (S (length rest)))) with (Z.of_nat (length rest) + 2)
        by lia.
      apply (pairs_count_even n), Hrest. }
    rewrite (bind_Ok _ _ _ _ _ (hasSetsOrMore_2_abs _ Hpc)). simpl.
    rewrite <- Hres, set_points_same.
    apply (moveTo_case_pairs _ n); assumption.
Qed.

Lemma pairs_count_length (pts : list float64) :
  pairs_count (Z.of_nat (length pts)) -> exists n, length pts = (2 * S n)%nat.
Proof.
  intros Hpc. apply pairs_count_iff in Hpc as (m & Hm & Hlen).
  exists (Nat.pred (Z.to_nat m)). lia.
Qed.

Lemma resolved_pairs k p n :
  length (points p) = (2 * S n)%nat ->
  exists x0 y0 rest, resolved k p = x0 :: y0 :: rest.
Proof.
  intros Hlen. unfold resolved.
  destruct (points p) as [| x [| y pts]]; simpl in Hlen; try lia.
  destruct (key_is k "m"); simpl; eauto.
Qed.




End Dispatcher.

(** ** The command dispatcher and CompilePath *)

Section Commands.

Context {float64 NumError : Type} `{RT : GoRuntime float64 NumError}.
Implicit Types p q r : @Parser float64.
Implicit Types e : @error NumError.
Local Open Scope go_scope.

(** C4. CompilePath on "M75 0, 0 200, 150 200 Z" makes on the drawing
    context exactly the calls move(75,0), line(0,200), line(150,200),
    close, and leaves the cursor at (75,0).  In general an absolute
    MoveTo over the pairs [(x0, y0)], [rest] makes a move to [(x0, y0)]
    and a line to each further pair, sets the path start to [(x0, y0)]
    and the cursor to the last pair; a ClosePath that follows makes no
    call and puts the cursor back on [(x0, y0)]. *)
Theorem moveto_pairs_then_close
        (p : Parser) (a75 a0 a200 a150 : float64)
        (H75 : ParseFloat "75" 64 = inl a75)
        (H0 : ParseFloat "0" 64 = inl a0)
        (H200 : ParseFloat "200" 64 = inl a200)
        (H150 : ParseFloat "150" 64 = inl a150)
        (args args' : string) (q q1 q2 : Parser) (x0 y0 : float64)
        (rest : list float64) (n : nat) (k : byte)
        (Hargs : GetPoints args q = (q1, Ok tt))
        (Hpts : points q1 = x0 :: y0 :: rest)
        (Hlen : length rest = (2 * n)%nat)
        (Hk : key_in k close_keys = true)
        (Hargs' : GetPoints args' (after_move "M"%char x0 y0 rest q1) = (q2, Ok tt))
        (Hnone : points q2 = []) :
  (exists p', CompilePath "M75 0, 0 200, 150 200 Z" p = (p', Ok tt) /\
              dc p' = dc p ++ [MoveTo a75 a0; LineTo a0 a200;
                               LineTo a150 a200; ClosePath] /\
              placeX p' = a75 /\ placeY p' = a0) /\
  addSeg (String "M" args) q = (after_move "M"%char x0 y0 rest q1, Ok tt) /\
  dc (after_move "M"%char x0 y0 rest q1)
  = dc q ++ MoveTo x0 y0 :: line_calls rest /\
  (pathStartX (after_move "M"%char x0 y0 rest q1),
   pathStartY (after_move "M"%char x0 y0 rest q1)) = (x0, y0) /\
  (placeX (after_move "M"%char x0 y0 rest q1),
   placeY (after_move "M"%char x0 y0 rest q1)) = last_pair x0 y0 rest /\
  (exists q3, addSeg (String k args') (after_move "M"%char x0 y0 rest q1)
              = (q3, Ok tt) /\
              (placeX q3, placeY q3) = (x0, y0) /\
              dc q3 = dc (after_move "M"%char x0 y0 rest q1)).
Proof.
  split; [| split; [| split; [| split; [| split]]]].
  - rewrite CompilePath_segments.
    replace (segments "M75 0, 0 200, 150 200 Z")
      with ["M75 0, 0 200, 150 200 "; "Z"] by (vm_compute; reflexivity).
    assert (Hg : GetPoints "75 0, 0 200, 150 200 " (init p)
                 = (set_points [a75; a0; a0; a200; a150; a200] (init p), Ok tt)).
    { apply (GetPoints_values _ ["75"; "0"; "0"; "200"; "150"; "200"]);
        [vm_compute; reflexivity | repeat constructor; assumption]. }
    simpl for_each.
    rewrite (bind_Ok _ _ _ _ _
               (bind_Ok _ _ _ _ _
                  (addSeg_move_abs 2 _ _ _ _ _ _ Hg eq_refl eq_refl))).
    eexists. split; [reflexivity |]. simpl.
    rewrite <- app_assoc. repeat split; reflexivity.
  - apply (addSeg_move_abs n); assumption.
  - simpl. rewrite (buffer_only_dc _ _ (GetPoints_buffer _ _ _ _ Hargs)).
    reflexivity.
  - reflexivity.
  - simpl. destruct (last_pair x0 y0 rest). reflexivity.
  - rewrite (addSeg_close k _ _ _ Hk Hargs').
    rewrite (GetPoints_nothing _ _ _ Hargs' Hnone). simpl.
    eexists. split; [reflexivity |]. split; reflexivity.
Qed.

(** C5. CompilePath starts by resetting the cursor to (0,0), the buffer
    of points, the last command and the open-subpath flag, before any
    segment is handled: it behaves on any parser as on the reset one.  A
    relative MoveTo that comes first is therefore resolved against (0,0):
    its first pair [(x, y)] gives a move to [(x + 0, y + 0)], and each
    further pair is added to the pair before it.  On "m10 10" the only
    drawing call before the final close is a move to the value of "10"
    plus zero on each axis, which is move(10,10). *)
Theorem relative_move_from_origin
        (svgPath : string) (p : Parser) (a : float64)
        (args : string) (post : list string) (x y : float64)
        (more : list float64) (n : nat)
        (Ha : ParseFloat "10" 64 = inl a)
        (Hzero : f64_add a f64_zero = a)
        (Hfirst : segments svgPath = String "m" args :: post)
        (Hargs : GetPoints args (init p)
                 = (set_points (x :: y :: more) (init p), Ok tt))
        (Hlen : length more = (2 * n)%nat) :
  (exists p', CompilePath "m10 10" p = (p', Ok tt) /\
              dc p' = dc p ++ [MoveTo a a; ClosePath] /\
              (placeX p', placeY p') = (a, a)) /\
  CompilePath svgPath p
  = (for_each addSeg (segments svgPath) ;; modify (emit ClosePath)) (init p) /\
  CompilePath svgPath p = CompilePath svgPath (init p) /\
  (placeX (init p), placeY (init p)) = (f64_zero, f64_zero) /\
  points (init p) = [] /\
  lastKey (init p) = " "%char /\
  inPath (init p) = false /\
  (exists p1,
     addSeg (String "m" args) (init p) = (p1, Ok tt) /\
     dc p1 = dc p
             ++ MoveTo (f64_add x f64_zero) (f64_add y f64_zero)
                :: line_calls (rel_pairs (f64_add x f64_zero)
                                         (f64_add y f64_zero) more) /\
     CompilePath svgPath p
     = (for_each addSeg post ;; modify (emit ClosePath)) p1).
Proof.
  split; [| split; [| split; [| split; [| split; [| split; [| split]]]]]];
    try reflexivity.
  - rewrite CompilePath_segments.
    replace (segments "m10 10") with ["m10 10"] by (vm_compute; reflexivity).
    assert (Hg : GetPoints "10 10" (init p) = (set_points [a; a] (init p), Ok tt)).
    { apply (GetPoints_values _ ["10"; "10"]);
        [vm_compute; reflexivity | repeat constructor; assumption]. }
    cbn [for_each]. rewrite bind_assoc.
    rewrite (bind_Ok _ _ _ _ _ (addSeg_run "m" _ _ _ Hg)).
    unfold addSeg_switch, moveTo_case, bind, modify, emit. simpl.
    rewrite !Hzero.
    eexists. split; [reflexivity |]. simpl.
    rewrite <- app_assoc. split; reflexivity.
  - apply CompilePath_segments.
  - assert (Hm : addSeg (String "m" args) (init p)
                 = (after_move "m"%char (f64_add x f64_zero) (f64_add y f64_zero)
                      (rel_pairs (f64_add x f64_zero) (f64_add y f64_zero) more)
                      (set_points
                         (rel_pairs f64_zero f64_zero (x :: y :: more))
                         (set_points (x :: y :: more) (init p))),
                    Ok tt)).
    { rewrite (addSeg_run _ _ _ _ Hargs).
      apply (addSeg_switch_move "m"%char n); [reflexivity | | reflexivity].
      simpl. rewrite Hlen. lia. }
    eexists. split; [exact Hm | split; [reflexivity |]].
    rewrite CompilePath_segments, Hfirst. cbn [for_each].
    rewrite bind_assoc, (bind_Ok _ _ _ _ _ Hm). reflexivity.
Qed.

(** C8. When addSeg returns an error for a segment, CompilePath returns
    that error with the parser as that segment left it: whatever follows
    the segment in the path string has no influence on the result.  The
    failing segment has made no call on the drawing context, the calls
    made for the segments before it are all there, and no ClosePath call
    is among them.  Every error return of CompilePath comes about in
    this way. *)
Theorem error_aborts_rest
        (svgPath svgPath' : string) (p p1 p2 : Parser)
        (pre post post' : list string) (seg : string) (e : error)
        (Hsegs : segments svgPath = pre ++ seg :: post)
        (Hsegs' : segments svgPath' = pre ++ seg :: post')
        (Hpre : for_each addSeg pre (init p) = (p1, Ok tt))
        (Hseg : addSeg seg p1 = (p2, Err e)) :
  CompilePath svgPath p = (p2, Err e) /\
  CompilePath svgPath' p = (p2, Err e) /\
  dc p2 = dc p1 /\
  (exists cs, dc p2 = dc p ++ cs /\ forallb is_draw cs = true) /\
  (forall q e', CompilePath svgPath p = (q, Err e') ->
     exists pre0 seg0 post0 q1,
       segments svgPath = pre0 ++ seg0 :: post0 /\
       for_each addSeg pre0 (init p) = (q1, Ok tt) /\
       addSeg seg0 q1 = (q, Err e')).
Proof.
  split; [| split; [| split; [| split]]].
  - apply (CompilePath_stops _ _ _ _ _ _ _ _ Hsegs Hpre Hseg).
  - apply (CompilePath_stops _ _ _ _ _ _ _ _ Hsegs' Hpre Hseg).
  - apply (addSeg_quiet _ _ _ _ Hseg).
  - rewrite (addSeg_quiet _ _ _ _ Hseg), <- (init_dc p).
    apply (for_each_addSeg_draws _ _ _ _ Hpre).
  - intros q e'. apply CompilePath_Err_inv.
Qed.

Lemma addSeg_Ok_inv k args q q1 :
  addSeg (String k args) q = (q1, Ok tt) ->
  exists q0, GetPoints args q = (q0, Ok tt) /\
             addSeg_switch k (npoints q0) q0 = (q1, Ok tt).
Proof.
  unfold addSeg. intros Hb.
  apply bind_inv_Ok in Hb as (q0 & [] & Hg & Hb).
  rewrite bind_gets in Hb. eauto.
Qed.

Lemma npoints_zero p : npoints p = 0 -> points p = [].
Proof.
  unfold npoints. destruct (points p); [reflexivity | simpl; lia].
Qed.

(** C10. A call of CompilePath that returns without error has made, after
    the calls that were already on the drawing context, calls other than
    ClosePath and then exactly one ClosePath, which is the last call; so
    it is for the empty path string, where that ClosePath is the only
    call.  A segment Z or z that is handled without error makes no call:
    it empties the buffer, records the command letter and, when a
    subpath is open, moves the cursor to the path start and clears the
    flag. *)
Theorem single_close_at_end
        (svgPath : string) (p p' : Parser)
        (k : byte) (args : string) (q q1 : Parser)
        (Hok : CompilePath svgPath p = (p', Ok tt))
        (Hk : key_in k close_keys = true)
        (Hz : addSeg (String k args) q = (q1, Ok tt)) :
  (exists cs, dc p' = dc p ++ cs ++ [ClosePath] /\ forallb is_draw cs = true) /\
  CompilePath EmptyString p = (emit ClosePath (init p), Ok tt) /\
  q1 = after_close k (set_points [] q) /\
  dc q1 = dc q /\
  inPath q1 = false /\
  (placeX q1, placeY q1)
  = (if inPath q then (pathStartX q, pathStartY q) else (placeX q, placeY q)).
Proof.
  split; [| split].
  - rewrite CompilePath_segments in Hok.
    apply bind_inv_Ok in Hok as (p1 & [] & Hrun & [= <-]).
    destruct (for_each_addSeg_draws _ _ _ _ Hrun) as (cs & Hcs & Hdraw).
    exists cs. split; [| exact Hdraw].
    unfold drawn in Hcs. simpl. rewrite Hcs, init_dc, app_assoc. reflexivity.
  - reflexivity.
  - apply addSeg_Ok_inv in Hz as (q0 & Hg & Hsw).
    rewrite (addSeg_switch_close _ _ _ Hk) in Hsw.
    destruct (npoints q0 =? 0) eqn:Hn; simpl in Hsw; [| discriminate].
    apply Z.eqb_eq, npoints_zero in Hn.
    rewrite (GetPoints_nothing _ _ _ Hg Hn) in Hsw.
    injection Hsw as <-.
    unfold after_close. simpl.
    destruct (inPath q) eqn:Hin; simpl; rewrite ?Hin; repeat split; reflexivity.
Qed.

(** The one error addSeg returns for a wrong number of values: it comes
    from a MoveTo or a ClosePath whose argument text was read without
    error, and from nothing else. *)
Lemma addSeg_ParamMismatch_iff k args p p' :
  addSeg (String k args) p = (p', Err errParamMismatch) <->
  GetPoints args p = (p', Ok tt) /\
  ((key_in k move_keys = true /\ ~ pairs_count (npoints p')) \/
   (key_in k close_keys = true /\ npoints p' <> 0)).
Proof.
  split.
  - unfold addSeg. intros Hb.
    apply bind_inv_Err in Hb as [Hg | (p1 & [] & Hg & Hb)].
    { destruct (GetPoints_fails_only _ _ _ _ Hg) as [ne Hne]. discriminate. }
    rewrite bind_gets in Hb.
    destruct (key_in k close_keys) eqn:Hc.
    { rewrite (addSeg_switch_close _ _ _ Hc) in Hb.
      destruct (npoints p1 =? 0) eqn:Hn; simpl in Hb; [discriminate |].
      injection Hb as <-. apply Z.eqb_neq in Hn. auto. }
    destruct (key_in k move_keys) eqn:Hm.
    { apply (addSeg_switch_move_Err _ _ _ _ _ Hm) in Hb as (_ & -> & Hn). auto. }
    destruct (key_in k unimplemented_keys) eqn:Hu.
    { destruct (addSeg_switch_unimplemented k (npoints p1) p1 Hu) as (q & Hq & _).
      rewrite Hq in Hb. discriminate. }
    rewrite addSeg_switch_unknown in Hb
      by (unfold recognized; rewrite Hc, Hm, Hu; reflexivity).
    destruct (ErrMode p1 =? StrictErrorMode); discriminate.
  - intros [Hg [[Hm Hn] | [Hc Hn]]]; rewrite (addSeg_run _ _ _ _ Hg).
    + apply addSeg_switch_move_mismatch; assumption.
    + rewrite (addSeg_switch_close _ _ _ Hc).
      apply Z.eqb_neq in Hn. rewrite Hn. reflexivity.
Qed.

(** C6. CompilePath returns the error ParamMismatch exactly when the
    first segment that fails is a MoveTo (M or m) whose argument text
    holds a number of values that is not a positive multiple of two, or
    a ClosePath (Z or z) whose argument text holds any value; the parser
    is then as the reading of that argument text left it.  A segment
    that fails so has made no call on the drawing context and changed
    nothing but the buffer of points.  "M1 2 3" fails in this way. *)
Theorem param_mismatch_exactly
        (svgPath : string) (p p' : Parser) (a1 a2 a3 : float64)
        (H1 : ParseFloat "1" 64 = inl a1)
        (H2 : ParseFloat "2" 64 = inl a2)
        (H3 : ParseFloat "3" 64 = inl a3) :
  (CompilePath svgPath p = (p', Err errParamMismatch) <->
   exists pre k args post p1,
     segments svgPath = pre ++ String k args :: post /\
     for_each addSeg pre (init p) = (p1, Ok tt) /\
     GetPoints args p1 = (p', Ok tt) /\
     ((key_in k move_keys = true /\
       ~ (exists m, 0 < m /\ npoints p' = 2 * m)) \/
      (key_in k close_keys = true /\ npoints p' <> 0))) /\
  (forall k args q q',
     addSeg (String k args) q = (q', Err errParamMismatch) ->
     dc q' = dc q /\ buffer_only q q') /\
  CompilePath "M1 2 3" p = (set_points [a1; a2; a3] (init p), Err errParamMismatch).
Proof.
  split; [| split].
  - split.
    + intros Herr.
      apply CompilePath_Err_inv in Herr as (pre & seg & post & p1 & Hs & Hpre & Hseg).
      destruct seg as [| k args]; [discriminate |].
      apply addSeg_ParamMismatch_iff in Hseg as [Hg Hcase].
      exists pre, k, args, post, p1. rewrite <- pairs_count_iff. auto.
    + intros (pre & k & args & post & p1 & Hs & Hpre & Hg & Hcase).
      rewrite <- pairs_count_iff in Hcase.
      apply (CompilePath_stops _ _ _ _ _ _ _ _ Hs Hpre).
      apply addSeg_ParamMismatch_iff. auto.
  - intros k args q q' Herr. split; [apply (addSeg_quiet _ _ _ _ Herr) |].
    apply addSeg_ParamMismatch_iff in Herr as [Hg _].
    apply (GetPoints_buffer _ _ _ _ Hg).
  - apply (CompilePath_stops _ _ [] "M1 2 3" [] (init p));
      [vm_compute; reflexivity | reflexivity |].
    apply addSeg_ParamMismatch_iff. split.
    + apply (GetPoints_values _ ["1"; "2"; "3"]);
        [vm_compute; reflexivity | repeat constructor; assumption].
    + left. split; [reflexivity |]. unfold pairs_count. simpl.
      intros [_ Hrem]. discriminate.
Qed.

(** C7, as the code has it.  For a segment whose command letter has no
    case in the switch and whose argument text is read without error:
    in strict mode addSeg returns UnknownCommand; in every other mode
    the segment is skipped, which means that no call is made on the
    drawing context, the letter is recorded as the last command, a line
    is logged in warn mode only, and the run goes on with the next
    segment.  "M1 2 X5 5" is compiled to a move and the final close in
    the modes other than strict, and fails with UnknownCommand after
    the move in strict mode. *)
Theorem unknown_letter_by_mode
        (k : byte) (args : string) (p p1 : Parser) (rest : list string)
        (a1 a2 a5 : float64)
        (Hk : recognized k = false)
        (Hargs : GetPoints args p = (p1, Ok tt))
        (H1 : ParseFloat "1" 64 = inl a1)
        (H2 : ParseFloat "2" 64 = inl a2)
        (H5 : ParseFloat "5" 64 = inl a5) :
  (ErrMode p = StrictErrorMode ->
   addSeg (String k args) p = (p1, Err errCommandUnknown)) /\
  (ErrMode p <> StrictErrorMode ->
   addSeg (String k args) p = (after_skip k p1, Ok tt) /\
   dc (after_skip k p1) = dc p /\
   for_each addSeg (String k args :: rest) p
   = for_each addSeg rest (after_skip k p1)) /\
  logged (after_skip k p1)
  = (if ErrMode p =? WarnErrorMode
     then logged p ++ [String.append "Ignoring svg command " (string_of_byte k)]
     else logged p) /\
  (ErrMode p <> StrictErrorMode ->
   exists p', CompilePath "M1 2 X5 5" p = (p', Ok tt) /\
              dc p' = dc p ++ [MoveTo a1 a2; ClosePath]) /\
  (ErrMode p = StrictErrorMode ->
   exists p', CompilePath "M1 2 X5 5" p = (p', Err errCommandUnknown) /\
              dc p' = dc p ++ [MoveTo a1 a2]).
Proof.
  pose proof (GetPoints_buffer _ _ _ _ Hargs) as Hbuf.
  assert (Hmode : ErrMode p1 = ErrMode p) by (rewrite Hbuf; reflexivity).
  assert (Hrun : forall q, GetPoints "1 2 " (init q)
                           = (set_points [a1; a2] (init q), Ok tt)).
  { intros q. apply (GetPoints_values _ ["1"; "2"]);
      [vm_compute; reflexivity | repeat constructor; assumption]. }
  assert (Hx : forall q, GetPoints "5 5" q = (set_points [a5; a5] q, Ok tt)).
  { intros q. apply (GetPoints_values _ ["5"; "5"]);
      [vm_compute; reflexivity | repeat constructor; assumption]. }
  assert (Hsegs : segments "M1 2 X5 5" = ["M1 2 "; "X5 5"])
    by (vm_compute; reflexivity).
  split; [| split; [| split; [| split]]].
  - intros Hs. rewrite (addSeg_run _ _ _ _ Hargs), (addSeg_switch_unknown _ _ _ Hk).
    rewrite Hmode, Hs. reflexivity.
  - intros Hs. apply Z.eqb_neq in Hs.
    assert (Hskip : addSeg (String k args) p = (after_skip k p1, Ok tt)).
    { rewrite (addSeg_run _ _ _ _ Hargs), (addSeg_switch_unknown _ _ _ Hk).
      rewrite Hmode, Hs. reflexivity. }
    split; [exact Hskip | split].
    + unfold after_skip. rewrite <- (buffer_only_dc _ _ Hbuf).
      destruct (ErrMode p1 =? WarnErrorMode); reflexivity.
    + simpl. rewrite (bind_Ok _ _ _ _ _ Hskip). reflexivity.
  - unfold after_skip. rewrite Hmode, Hbuf.
    destruct (ErrMode p =? WarnErrorMode); reflexivity.
  - intros Hs. apply Z.eqb_neq in Hs.
    assert (Hm := addSeg_move_abs 0 _ _ _ _ _ _ (Hrun p) eq_refl eq_refl).
    set (r := after_move "M"%char a1 a2 [] (set_points [a1; a2] (init p))) in *.
    assert (Hu : addSeg "X5 5" r
                 = (after_skip "X"%char (set_points [a5; a5] r), Ok tt)).
    { rewrite (addSeg_run "X"%char _ _ _ (Hx _)).
      rewrite addSeg_switch_unknown by reflexivity.
      simpl ErrMode. rewrite Hs. reflexivity. }
    rewrite CompilePath_segments, Hsegs. cbn [for_each].
    rewrite bind_assoc, (bind_Ok _ _ _ _ _ Hm).
    rewrite bind_assoc, (bind_Ok _ _ _ _ _ Hu).
    eexists. split; [reflexivity |].
    unfold after_skip, r. simpl ErrMode.
    destruct (ErrMode p =? WarnErrorMode); simpl;
      rewrite <- app_assoc; reflexivity.
  - intros Hs.
    assert (Hm := addSeg_move_abs 0 _ _ _ _ _ _ (Hrun p) eq_refl eq_refl).
    set (r := after_move "M"%char a1 a2 [] (set_points [a1; a2] (init p))) in *.
    assert (Hu : addSeg "X5 5" r = (set_points [a5; a5] r, Err errCommandUnknown)).
    { rewrite (addSeg_run "X"%char _ _ _ (Hx _)).
      rewrite addSeg_switch_unknown by reflexivity.
      simpl ErrMode. rewrite Hs. reflexivity. }
    exists (set_points [a5; a5] r). split; [| reflexivity].
    apply (CompilePath_stops _ _ ["M1 2 "] "X5 5" [] r _ _ Hsegs); [| exact Hu].
    cbn [for_each]. rewrite (bind_Ok _ _ _ _ _ Hm). reflexivity.
Qed.

(** C9, as the code has it.  For a segment whose command letter is one
    of L l H h V v C c S s Q q T t A a and whose argument text is read
    without error, addSeg returns NotImplemented in every error mode
    and for any number of values; it makes no call on the drawing
    context and changes nothing but the buffer of points.  CompilePath
    returns that error as soon as it reaches such a segment. *)
Theorem unimplemented_always_fatal
        (k : byte) (args svgPath : string) (p p1 q : Parser)
        (pre post : list string)
        (Hk : key_in k unimplemented_keys = true)
        (Hargs : GetPoints args p = (p1, Ok tt))
        (Hsegs : segments svgPath = pre ++ String k args :: post)
        (Hpre : for_each addSeg pre (init q) = (p, Ok tt)) :
  exists p',
    addSeg (String k args) p = (p', Err errNotImplemented) /\
    buffer_only p p' /\
    dc p' = dc p /\
    CompilePath svgPath q = (p', Err errNotImplemented).
Proof.
  destruct (addSeg_switch_unimplemented k (npoints p1) p1 Hk) as (p' & Hsw & Hbuf).
  assert (Hseg : addSeg (String k args) p = (p', Err errNotImplemented))
    by (rewrite (addSeg_run _ _ _ _ Hargs); exact Hsw).
  exists p'. split; [exact Hseg | split; [| split]].
  - apply (buffer_only_trans _ p1); [apply (GetPoints_buffer _ _ _ _ Hargs) | exact Hbuf].
  - apply (addSeg_quiet _ _ _ _ Hseg).
  - apply (CompilePath_stops _ _ _ _ _ _ _ _ Hsegs Hpre Hseg).
Qed.

(** C3, what the code does.  The rune ['E'] is a letter other than
    ['e'], so the loop of CompilePath starts a new segment at it, and to
    GetPoints it ends a number.  "M1E2 3" is cut into the segments "M1"
    and "E2 3" and fails with ParamMismatch on the first, while
    "M1e2 3" is one segment with the two values of "1e2" and "3". *)
Theorem uppercase_exponent_is_split
        (p : Parser) (a1 a100 a3 : float64)
        (H1 : ParseFloat "1" 64 = inl a1)
        (H100 : ParseFloat "1e2" 64 = inl a100)
        (H3 : ParseFloat "3" 64 = inl a3) :
  IsLetter (rune_of "E") && negb (rune_of "E" =? rune_of "e") = true /\
  (forall lr, is_boundary lr (rune_of "E") = true) /\
  segments "M1E2 3" = ["M1"; "E2 3"] /\
  segments "M1e2 3" = ["M1e2 3"] /\
  tokens "1E2 3" = Some ["1"; "2"; "3"] /\
  tokens "1e2 3" = Some ["1e2"; "3"] /\
  CompilePath "M1E2 3" p = (set_points [a1] (init p), Err errParamMismatch) /\
  (exists p', CompilePath "M1e2 3" p = (p', Ok tt) /\
              dc p' = dc p ++ [MoveTo a100 a3; ClosePath]).
Proof.
  split; [vm_compute; reflexivity |].
  split; [intros lr; vm_compute; reflexivity |].
  do 4 (split; [vm_compute; reflexivity |]).
  split.
  - apply (CompilePath_stops _ _ [] "M1" ["E2 3"] (init p));
      [vm_compute; reflexivity | reflexivity |].
    apply addSeg_ParamMismatch_iff. split.
    + apply (GetPoints_values _ ["1"]);
        [vm_compute; reflexivity | repeat constructor; assumption].
    + left. split; [reflexivity |]. unfold pairs_count.
      change (npoints (set_points [a1] (init p))) with 1. lia.
  - rewrite CompilePath_segments.
    replace (segments "M1e2 3") with ["M1e2 3"] by (vm_compute; reflexivity).
    assert (Hg : GetPoints "1e2 3" (init p) = (set_points [a100; a3] (init p), Ok tt)).
    { apply (GetPoints_values _ ["1e2"; "3"]);
        [vm_compute; reflexivity | repeat constructor; assumption]. }
    cbn [for_each].
    rewrite bind_assoc,
      (bind_Ok _ _ _ _ _ (addSeg_move_abs 0 _ _ _ _ _ _ Hg eq_refl eq_refl)).
    eexists. split; [reflexivity |]. simpl. rewrite <- app_assoc. reflexivity.
Qed.

End Commands.

(** ** More facts about Go strings, and trimSuffixes *)

Section MoreStringFacts.

Lemma sappend_assoc (a b c : string) :
  String.append (String.append a b) c = String.append a (String.append b c).
Proof. induction a as [| x a IH]; simpl; [reflexivity | rewrite IH; reflexivity]. Qed.

Lemma sappend_nil_r (a : string) : String.append a EmptyString = a.
Proof. induction a as [| x a IH]; simpl; [reflexivity | rewrite IH; reflexivity]. Qed.

Lemma slice_full (s : string) : slice s 0 (len s) = Some s.
Proof.
  pose proof (slice_app_prefix s EmptyString) as H.
  rewrite sappend_nil_r in H. exact H.
Qed.

Lemma ascending_In lo hi rs (j : Z) (r0 : rune) :
  ascending lo hi rs -> In (j, r0) rs -> lo <= j < hi.
Proof.
  revert lo. induction rs as [| [i r1] rs IH]; intros lo Hrs Hin; [destruct Hin |].
  simpl in Hrs. destruct Hrs as [Hi Hrs].
  destruct Hin as [[= -> ->] | Hin]; [exact Hi |].
  specialize (IH _ Hrs Hin). lia.
Qed.

Lemma slices_length s cs ts : slices s cs = Some ts -> length ts = length cs.
Proof.
  revert ts. induction cs as [| c cs IH]; intros ts; simpl.
  - intros [= <-]. reflexivity.
  - destruct (slice s (fst c) (snd c)); [| discriminate].
    destruct (slices s cs) as [ts' |]; [| discriminate].
    intros [= <-]. simpl. rewrite (IH ts'); reflexivity.
Qed.

Lemma slength_append (a b : string) :
  String.length (String.append a b) = (String.length a + String.length b)%nat.
Proof. induction a as [| x a IH]; simpl; [reflexivity | rewrite IH; reflexivity]. Qed.

Lemma drop_bytes_app (a b : string) :
  drop_bytes (String.length a) (String.append a b) = b.
Proof. induction a as [| x a IH]; simpl; [reflexivity | exact IH]. Qed.

Lemma take_drop_bytes (n : nat) (s : string) :
  String.append (String.substring 0 n s) (drop_bytes n s) = s.
Proof.
  revert n. induction s as [| x s IH]; intros [| n]; simpl; try reflexivity.
  rewrite IH. reflexivity.
Qed.

End MoreStringFacts.

Section Suffixes.

Context {float64 NumError : Type} `{RT : GoRuntime float64 NumError}.

(** Taking a suffix of the same length off a concatenation. *)
Lemma TrimSuffix_app (a u w : string) :
  String.length u = String.length w ->
  TrimSuffix (String.append a u) w
  = if String.eqb u w then a else String.append a u.
Proof.
  intros Hlen. unfold TrimSuffix, HasSuffix.
  rewrite slength_append, <- Hlen.
  replace (String.length a + String.length u - String.length u)%nat
    with (String.length a) by lia.
  rewrite drop_bytes_app.
  replace (String.length u <=? String.length a + String.length u)%nat with true
    by (symmetry; apply Nat.leb_le; lia).
  simpl. destruct (String.eqb u w); [| reflexivity].
  apply substring_app_prefix.
Qed.

Lemma last_byte_app (a : string) (x y : ascii) :
  last_byte (String.append a (String x (String y EmptyString))) = Some y.
Proof.
  unfold last_byte. rewrite slength_append. simpl.
  replace (String.length a + 2 - 1)%nat with (S (String.length a)) by lia.
  induction a as [| c a IH]; simpl; [reflexivity | exact IH].
Qed.

Lemma get_drop_bytes (n k : nat) (s : string) :
  String.get k (drop_bytes n s) = String.get (n + k) s.
Proof.
  revert s. induction n as [| n IH]; intros s; [reflexivity |].
  destruct s as [| c s]; simpl; [destruct k; reflexivity | apply IH].
Qed.

(** A string that has a non-empty suffix ends with the same byte as the
    suffix. *)
Lemma HasSuffix_last (s : string) (x y : ascii) :
  HasSuffix s (String x (String y EmptyString)) = true -> last_byte s = Some y.
Proof.
  unfold HasSuffix. simpl String.length. intros H.
  apply andb_true_iff in H as [Hlen Heq].
  apply Nat.leb_le in Hlen. apply String.eqb_eq in Heq.
  unfold last_byte.
  assert (Hg : String.get 1 (drop_bytes (String.length s - 2) s) = Some y)
    by (rewrite Heq; reflexivity).
  rewrite get_drop_bytes in Hg.
  replace (String.length s - 1)%nat with (String.length s - 2 + 1)%nat by lia.
  exact Hg.
Qed.

Lemma TrimSuffix_plain (a u : string) :
  plain_number a = true -> In u unitSuffixes -> TrimSuffix a u = a.
Proof.
  intros Ha Hu. unfold TrimSuffix.
  destruct (HasSuffix a u) eqn:Hs; [| reflexivity]. exfalso.
  unfold plain_number in Ha.
  destruct Hu as [<- | [<- | [<- | [<- | []]]]];
    apply HasSuffix_last in Hs; rewrite Hs in Ha; discriminate.
Qed.


Lemma plain_number_trim (a : string) : plain_number a = true -> trimSuffixes a = a.
Proof.
  unfold plain_number, trimSuffixes.
  destruct (last_byte a) as [c |]; [| reflexivity].
  intros ->. reflexivity.
Qed.

(** X1.  One unit after a plain number: trimSuffixes gives the number back,
    and parseFloat hands strconv.ParseFloat the number alone. *)
Theorem trimSuffixes_strips_unit (a u : string) (bitSize : Z)
        (Ha : plain_number a = true) (Hu : In u unitSuffixes) :
  trimSuffixes (String.append a u) = a /\
  parseFloat (String.append a u) bitSize = ParseFloat a bitSize.
Proof.
  assert (Ht : trimSuffixes (String.append a u) = a).
  { unfold trimSuffixes.
    destruct Hu as [<- | [<- | [<- | [<- | []]]]];
      rewrite last_byte_app; simpl;
      repeat (rewrite TrimSuffix_app by reflexivity; simpl);
      rewrite ?(TrimSuffix_plain a) by (first [exact Ha | simpl; auto 10]);
      reflexivity. }
  split; [exact Ht |]. unfold parseFloat. rewrite Ht. reflexivity.
Qed.

(** X2.  Two units after a plain number: the table of suffixes is gone
    through once, in its order, so that the outer unit is taken off and
    the inner one only if it comes later in the table. *)
Theorem trimSuffixes_table_order (a u v : string) (i j : nat)
        (Ha : plain_number a = true)
        (Hu : unitSuffixes !! i = Some u) (Hv : unitSuffixes !! j = Some v) :
  trimSuffixes (String.append a (String.append u v))
  = if (j <? i)%nat then a else String.append a u.
Proof.
  unfold trimSuffixes. rewrite <- sappend_assoc.
  destruct i as [| [| [| [| i]]]]; simpl in Hu; try discriminate;
    injection Hu as <-;
    (destruct j as [| [| [| [| j]]]]; simpl in Hv; try discriminate;
     injection Hv as <-);
    rewrite last_byte_app; simpl;
    repeat (rewrite TrimSuffix_app by reflexivity; simpl);
    rewrite ?(TrimSuffix_plain a) by (first [exact Ha | simpl; auto 10]);
    reflexivity.
Qed.

Lemma TrimSuffix_split (s u : string) :
  exists t, s = String.append (TrimSuffix s u) t /\
            (String.length t <= String.length u)%nat.
Proof.
  unfold TrimSuffix. destruct (HasSuffix s u) eqn:Hs.
  - exists (drop_bytes (String.length s - String.length u) s). split.
    + symmetry. apply take_drop_bytes.
    + unfold HasSuffix in Hs. apply andb_true_iff in Hs as [_ Heq].
      apply String.eqb_eq in Heq. rewrite Heq. lia.
  - exists EmptyString. rewrite sappend_nil_r. split; [reflexivity | simpl; lia].
Qed.

Lemma sappend_same (a t : string) : a = String.append a t -> t = EmptyString.
Proof.
  intros H. apply (f_equal String.length) in H. rewrite slength_append in H.
  destruct t; [reflexivity | simpl in H; lia].
Qed.

(** X3.  trimSuffixes only takes bytes off the end, eight at most, and none
    unless its argument ends in one of the units (and so not in a
    digit). *)
Theorem trimSuffixes_prefix (a : string) :
  exists t, a = String.append (trimSuffixes a) t /\
            (String.length t <= 8)%nat /\
            (t = EmptyString \/
             (plain_number a = false /\
              exists u, In u unitSuffixes /\ HasSuffix a u = true)).
Proof.
  destruct (plain_number a) eqn:Hp.
  { exists EmptyString. rewrite (plain_number_trim _ Hp), sappend_nil_r.
    split; [reflexivity |]. split; [simpl; lia | left; reflexivity]. }
  assert (Hfold : trimSuffixes a
                  = TrimSuffix (TrimSuffix (TrimSuffix (TrimSuffix a "cm") "mm") "px") "pt").
  { unfold trimSuffixes, plain_number in *.
    destruct (last_byte a) as [c |]; [| discriminate]. rewrite Hp. reflexivity. }
  destruct (TrimSuffix_split a "cm") as (t1 & H1 & L1).
  destruct (TrimSuffix_split (TrimSuffix a "cm") "mm") as (t2 & H2 & L2).
  destruct (TrimSuffix_split (TrimSuffix (TrimSuffix a "cm") "mm") "px")
    as (t3 & H3 & L3).
  destruct (TrimSuffix_split
              (TrimSuffix (TrimSuffix (TrimSuffix a "cm") "mm") "px") "pt")
    as (t4 & H4 & L4).
  simpl in L1, L2, L3, L4.
  exists (String.append t4 (String.append t3 (String.append t2 t1))).
  split; [| split].
  - rewrite Hfold, <- !sappend_assoc, <- H4, <- H3, <- H2. exact H1.
  - rewrite !slength_append. lia.
  - destruct (HasSuffix a "cm") eqn:S1;
      [right; split; [reflexivity |]; exists "cm"; simpl; tauto |].
    destruct (HasSuffix a "mm") eqn:S2;
      [right; split; [reflexivity |]; exists "mm"; simpl; tauto |].
    destruct (HasSuffix a "px") eqn:S3;
      [right; split; [reflexivity |]; exists "px"; simpl; tauto |].
    destruct (HasSuffix a "pt") eqn:S4;
      [right; split; [reflexivity |]; exists "pt"; simpl; tauto |].
    left.
    assert (E1 : TrimSuffix a "cm" = a) by (unfold TrimSuffix; rewrite S1; reflexivity).
    rewrite E1 in *.
    assert (E2 : TrimSuffix a "mm" = a) by (unfold TrimSuffix; rewrite S2; reflexivity).
    rewrite E2 in *.
    assert (E3 : TrimSuffix a "px" = a) by (unfold TrimSuffix; rewrite S3; reflexivity).
    rewrite E3 in *.
    assert (E4 : TrimSuffix a "pt" = a) by (unfold TrimSuffix; rewrite S4; reflexivity).
    rewrite E4 in *.
    apply sappend_same in H1, H2, H3, H4. subst. reflexivity.
Qed.

End Suffixes.

(** ** valsToAbs, pointsToAbs and hasSetsOrMore on their own *)

Section Buffer.
Context {float64 NumError : Type} `{RT : GoRuntime float64 NumError}.
Implicit Types p q r : @Parser float64.
Implicit Types e : @error NumError.
Local Open Scope go_scope.

Lemma valsToAbs_loop_length (last : float64) (pts : list float64) :
  length (valsToAbs_loop last pts) = length pts.
Proof.
  revert last. induction pts as [| x pts IH]; intros last; simpl;
    [reflexivity | rewrite IH; reflexivity].
Qed.

Lemma valsToAbs_loop_lookup (pts : list float64) : forall (last : float64) (i : nat),
  (i < length pts)%nat ->
  valsToAbs_loop last pts !! i = Some (fold_left f64_add (take (S i) pts) last).
Proof.
  induction pts as [| x pts IH]; intros last i Hi; simpl in Hi; [lia |].
  destruct i as [| i]; simpl.
  - reflexivity.
  - rewrite IH by lia. reflexivity.
Qed.

(** X4.  valsToAbs replaces each value of the buffer by the sum of [last] and
    of the values up to it, added from left to right; it changes nothing
    else and it always returns. *)
Theorem valsToAbs_running_sums (last : float64) (p : Parser) :
  exists p', valsToAbs (NumError := NumError) last p = (p', Ok tt) /\
    buffer_only p p' /\
    length (points p') = length (points p) /\
    forall i, (i < length (points p))%nat ->
      points p' !! i = Some (fold_left f64_add (take (S i) (points p)) last).
Proof.
  eexists. split; [reflexivity |]. split; [reflexivity |]. simpl.
  split; [apply valsToAbs_loop_length | apply valsToAbs_loop_lookup].
Qed.

Lemma getf_Some (pts : list float64) (i : Z) :
  0 <= i < Z.of_nat (length pts) -> exists x, getf pts i = Some x.
Proof.
  intros Hi. unfold getf.
  destruct (i <? 0) eqn:Hneg; [apply Z.ltb_lt in Hneg; lia |].
  apply lookup_lt_is_Some. lia.
Qed.


Lemma setf_length (pts : list float64) (i : Z) (v : float64) :
  length (setf pts i v) = length pts.
Proof. unfold setf. apply length_insert. Qed.

(** The inner loop of pointsToAbs keeps the length of the buffer. *)
Lemma pointsToAbs_inner_length fuel : forall sz j i lastX lastY (pts pts' : list float64),
  pointsToAbs_inner fuel sz j i lastX lastY pts = Some pts' ->
  length pts' = length pts.
Proof.
  induction fuel as [| fuel IH]; intros sz j i lastX lastY pts pts'; simpl.
  - intros [= <-]. reflexivity.
  - destruct (i <? sz); [| intros [= <-]; reflexivity].
    destruct (getf pts (i + j)) as [x |]; [| discriminate].
    destruct (getf _ (i + 1 + j)) as [y |]; [| discriminate].
    intros Hrec. apply IH in Hrec. rewrite Hrec, !setf_length. reflexivity.
Qed.

Lemma pointsToAbs_outer_length fuel : forall sz j lastX lastY (pts pts' : list float64),
  pointsToAbs_outer fuel sz j lastX lastY pts = Some pts' ->
  length pts' = length pts.
Proof.
  induction fuel as [| fuel IH]; intros sz j lastX lastY pts pts'; simpl.
  - intros [= <-]. reflexivity.
  - destruct (j <? Z.of_nat (length pts)); [| intros [= <-]; reflexivity].
    destruct (pointsToAbs_inner _ _ _ _ _ _ _) as [pts1 |] eqn:Hin; [| discriminate].
    apply pointsToAbs_inner_length in Hin.
    destruct (getf pts1 (j + sz - 2)); [| discriminate].
    destruct (getf pts1 (j + sz - 1)); [| discriminate].
    intros Hrec. apply IH in Hrec. congruence.
Qed.

(** With groups of an even size the inner loop stays inside its
    group. *)
Lemma pointsToAbs_inner_even fuel : forall m j k lastX lastY (pts : list float64),
  0 <= k -> 0 <= j -> j + 2 * m <= Z.of_nat (length pts) ->
  exists pts', pointsToAbs_inner fuel (2 * m) j (2 * k) lastX lastY pts = Some pts'.
Proof.
  induction fuel as [| fuel IH]; intros m j k lastX lastY pts Hk Hj Hlen; simpl.
  - eauto.
  - destruct (2 * k <? 2 * m) eqn:Hlt; [| eauto].
    apply Z.ltb_lt in Hlt.
    destruct (getf_Some pts (2 * k + j)) as [x ->]; [lia |].
    destruct (getf_Some (setf pts (2 * k + j) (f64_add x lastX)) (2 * k + 1 + j))
      as [y ->]; [rewrite setf_length; lia |].
    replace (2 * k + 2) with (2 * (k + 1)) by lia.
    apply IH; [lia | lia | rewrite !setf_length; lia].
Qed.

Lemma pointsToAbs_outer_even fuel : forall m j n lastX lastY (pts : list float64),
  0 < m -> 0 <= j -> j + 2 * m * n = Z.of_nat (length pts) -> 0 <= n ->
  exists pts', pointsToAbs_outer fuel (2 * m) j lastX lastY pts = Some pts'.
Proof.
  induction fuel as [| fuel IH]; intros m j n lastX lastY pts Hm Hj Hlen Hn; simpl.
  - eauto.
  - destruct (j <? Z.of_nat (length pts)) eqn:Hlt; [| eauto].
    apply Z.ltb_lt in Hlt.
    assert (Hn1 : 1 <= n) by nia.
    destruct (pointsToAbs_inner_even (Z.to_nat (2 * m)) m j 0 lastX lastY pts)
      as [pts1 Hin]; [lia | lia | nia |].
    rewrite Z.mul_0_r in Hin. rewrite Hin.
    apply pointsToAbs_inner_length in Hin.
    destruct (getf_Some pts1 (j + 2 * m - 2)) as [x ->]; [rewrite Hin; nia |].
    destruct (getf_Some pts1 (j + 2 * m - 1)) as [y ->]; [rewrite Hin; nia |].
    apply (IH m (j + 2 * m) (n - 1)); [lia | lia | rewrite Hin; nia | lia].
Qed.

(** X5.  hasSetsOrMore with an even group size: it returns (no index is out
    of range), its answer says whether the buffer holds one group or more
    and only whole groups, it changes the buffer at most, never its
    length, and nothing at all unless [rel] is set. *)
Theorem hasSetsOrMore_even_size (sz : Z) (rel : bool) (p : Parser)
        (Hsz : 0 < sz) (Heven : Z.even sz = true) :
  exists p',
    hasSetsOrMore (NumError := NumError) sz rel p
    = (p', Ok ((sz <=? npoints p) && (Z.rem (npoints p) sz =? 0))) /\
    buffer_only p p' /\
    length (points p') = length (points p) /\
    (rel = false -> p' = p).
Proof.
  apply Z.even_spec in Heven as [m ->].
  unfold hasSetsOrMore. rewrite bind_gets.
  destruct (2 * m <=? npoints p) eqn:Hle; simpl.
  2:{ exists p. repeat split; auto using buffer_only_refl. }
  destruct (2 * m =? 0) eqn:Hz; [apply Z.eqb_eq in Hz; lia |].
  destruct (Z.rem (npoints p) (2 * m) =? 0) eqn:Hrem; simpl.
  2:{ exists p. repeat split; auto using buffer_only_refl. }
  destruct rel.
  2:{ exists p. repeat split; auto using buffer_only_refl. }
  apply Z.eqb_eq in Hrem. apply Z.rem_divide in Hrem; [| lia].
  destruct Hrem as [n Hn]. unfold npoints in Hn.
  destruct (pointsToAbs_outer_even (length (points p)) m 0 n
                                   (placeX p) (placeY p) (points p))
    as [pts Hout]; [lia | lia | lia | nia |].
  unfold bind, pointsToAbs. rewrite Hout.
  exists (set_points pts p). split; [reflexivity |].
  split; [reflexivity |]. split; [| discriminate].
  simpl. apply (pointsToAbs_outer_length _ _ _ _ _ _ _ Hout).
Qed.




(** X7.  hasSetsOrMore(2, true) on one pair or more: the answer is true and
    every pair has been made absolute, the first by adding the cursor to
    it, each other one by adding the pair before it as already made
    absolute. *)
Theorem hasSetsOrMore_pairs_absolute (n : nat) (p : Parser)
        (Hlen : length (points p) = (2 * n)%nat) (Hn : (1 <= n)%nat) :
  hasSetsOrMore (NumError := NumError) 2 true p
  = (set_points (rel_pairs (placeX p) (placeY p) (points p)) p, Ok true).
Proof. exact (hasSetsOrMore_2_rel n p Hlen Hn). Qed.

End Buffer.

(** ** ReadFloat and GetPoints on their own *)

Section Numbers.
Context {float64 NumError : Type} `{RT : GoRuntime float64 NumError}.
Implicit Types p q r : @Parser float64.
Implicit Types e : @error NumError.
Local Open Scope go_scope.

(** A string with one decimal point at most is not cut. *)
Lemma number_cuts_single (numStr : string) :
  (dots numStr <= 1)%nat -> number_cuts numStr = [(0, len numStr)].
Proof.
  unfold dots, number_cuts. intros Hd.
  assert (Hc : ReadFloat_cuts (range numStr) 0 true = ([], 0)).
  { rewrite <- (app_nil_r (range numStr)).
    destruct (count_dots (range numStr)) as [| [| d]] eqn:Hn; [| | lia].
    - apply (ReadFloat_cuts_no_dot _ [] 0 true Hn).
    - apply (ReadFloat_cuts_first_dot _ [] 0 Hn). }
  rewrite Hc. reflexivity.
Qed.

(** X8.  ReadFloat on a string with one decimal point at most: the whole
    string goes to parseFloat, once; its value is appended to the buffer,
    or its error returned with the parser unchanged. *)
Theorem ReadFloat_single_number (numStr : string) (p : Parser)
        (Hd : (dots numStr <= 1)%nat) :
  ReadFloat numStr p =
  match parseFloat numStr 64 with
  | inl f => (set_points (points p ++ [f]) p, Ok tt)
  | inr ne => (p, Err (errNum ne))
  end.
Proof.
  rewrite ReadFloat_cuts_run, (number_cuts_single _ Hd).
  cbn [for_each]. rewrite bind_ret_tt.
  unfold on_slice. cbn [fst snd]. rewrite slice_full. cbn [checked].
  rewrite bind_ret_l. unfold read_one, bind, try_parse.
  destruct (parseFloat numStr 64); reflexivity.
Qed.

Lemma ReadFloat_cuts_length rs last isFirst :
  length (fst (ReadFloat_cuts rs last isFirst))
  = if isFirst then Nat.pred (count_dots rs) else count_dots rs.
Proof.
  revert last isFirst.
  induction rs as [| [i r] rs IH]; intros last isFirst; simpl.
  - destruct isFirst; reflexivity.
  - destruct (r =? rune_of ".").
    + destruct isFirst.
      * rewrite IH. reflexivity.
      * specialize (IH i false).
        destruct (ReadFloat_cuts rs i false) as [cs l]. simpl in *.
        rewrite IH. reflexivity.
    + apply IH.
Qed.

Lemma number_cuts_length (numStr : string) :
  length (number_cuts numStr) = Nat.max 1 (dots numStr).
Proof.
  unfold number_cuts, dots.
  pose proof (ReadFloat_cuts_length (range numStr) 0 true) as H.
  destruct (ReadFloat_cuts (range numStr) 0 true) as [cs l]. simpl in H.
  rewrite length_app, H. simpl. lia.
Qed.

(** A run over tokens that returns without error has parsed every one of
    them. *)
Lemma read_values_inv toks : forall p p',
  for_each read_one toks p = (p', Ok tt) ->
  exists vs, Forall2 (fun t v => parseFloat t 64 = inl v) toks vs /\
             p' = set_points (points p ++ vs) p.
Proof.
  induction toks as [| t toks IH]; intros p p'; simpl.
  - intros [= <-]. exists []. split; [constructor |].
    rewrite app_nil_r. destruct p; reflexivity.
  - unfold bind at 1, read_one at 1, bind at 1, try_parse.
    destruct (parseFloat t 64) as [v | ne] eqn:Hv; simpl; [| discriminate].
    intros Hrest. apply IH in Hrest as (vs & Hvs & ->).
    exists (v :: vs). split; [constructor; assumption |].
    simpl. rewrite <- app_assoc. reflexivity.
Qed.

(** A run over tokens that returns an error has met a token that does
    not parse, after parsing those before it. *)
Lemma read_values_Err_inv toks : forall p p' e,
  for_each read_one toks p = (p', Err e) ->
  exists pre t post vs ne,
    toks = pre ++ t :: post /\
    Forall2 (fun t v => parseFloat t 64 = inl v) pre vs /\
    parseFloat t 64 = inr ne /\ e = errNum ne /\
    p' = set_points (points p ++ vs) p.
Proof.
  induction toks as [| t toks IH]; intros p p' e; simpl; [discriminate |].
  unfold bind at 1, read_one at 1, bind at 1, try_parse.
  destruct (parseFloat t 64) as [v | ne] eqn:Hv; simpl.
  - intros Hrest. apply IH in Hrest as (pre & t' & post & vs & ne & -> & Hvs & Ht & -> & ->).
    exists (t :: pre), t', post, (v :: vs), ne.
    repeat split; try assumption; [constructor; assumption |].
    simpl. rewrite <- app_assoc. reflexivity.
  - intros [= <- <-]. exists [], t, toks, [], ne.
    repeat split; try assumption; [constructor |].
    rewrite app_nil_r. destruct p; reflexivity.
Qed.

(** X9.  A call of ReadFloat that returns without error has kept the values
    of the buffer and appended one value when the string holds no
    decimal point, and as many values as decimal points otherwise. *)
Theorem ReadFloat_appends (numStr : string) (p p' : Parser)
        (Hok : ReadFloat numStr p = (p', Ok tt)) :
  exists vs, p' = set_points (points p ++ vs) p /\
             length vs = Nat.max 1 (dots numStr).
Proof.
  destruct (pieces_total numStr) as [ps Hps].
  rewrite (ReadFloat_pieces _ _ _ Hps) in Hok.
  apply read_values_inv in Hok as (vs & Hvs & ->).
  exists vs. split; [reflexivity |].
  rewrite <- (Forall2_length _ _ _ Hvs).
  unfold pieces in Hps. rewrite (slices_length _ _ _ Hps).
  apply number_cuts_length.
Qed.

Lemma ReadFloat_panic_free numStr : panic_free (ReadFloat numStr).
Proof.
  intros p p'. destruct (pieces_total numStr) as [ps Hps].
  rewrite (ReadFloat_pieces _ _ _ Hps).
  apply panic_free_for_each. apply Forall_forall. intros t _.
  apply read_one_panic_free.
Qed.

(** X10.  GetPoints and ReadFloat always return, whatever bytes the string
    holds: no slice is out of range.  They change nothing of the parser
    but the buffer of points, make no call on the drawing context, and
    the only errors they return are those of strconv.ParseFloat. *)
Theorem number_readers_are_safe (s : string) :
  (panic_free (ReadFloat s) /\ respects buffer_only (ReadFloat s) /\
   respects same_dc (ReadFloat s) /\ fails_only is_errNum (ReadFloat s)) /\
  (panic_free (GetPoints s) /\ respects buffer_only (GetPoints s) /\
   respects same_dc (GetPoints s) /\ fails_only is_errNum (GetPoints s)).
Proof.
  split; split.
  - apply ReadFloat_panic_free.
  - split; [intros p p' o; apply ReadFloat_buffer |].
    split; [| apply ReadFloat_fails_only].
    intros p p' o Hr. apply buffer_only_dc, (ReadFloat_buffer _ _ _ _ Hr).
  - apply GetPoints_panic_free.
  - split; [intros p p' o; apply GetPoints_buffer |].
    split; [apply GetPoints_same_dc | apply GetPoints_fails_only].
Qed.

(** X11.  What GetPoints returns, from the tokens of its argument text: it
    returns without error exactly when every token parses, and the buffer
    then holds the values of the tokens, in order, and nothing of what it
    held before; it returns an error exactly when some token does not
    parse: the error is that of the first such token, and the buffer
    holds the values of the tokens before it. *)
Theorem GetPoints_by_tokens (dataPoints : string) (p p' : Parser) (e : error) :
  (GetPoints dataPoints p = (p', Ok tt) <->
   exists vs,
     Forall2 (fun t v => parseFloat t 64 = inl v) (token_list dataPoints) vs /\
     p' = set_points vs p) /\
  (GetPoints dataPoints p = (p', Err e) <->
   exists pre t post vs ne,
     token_list dataPoints = pre ++ t :: post /\
     Forall2 (fun t v => parseFloat t 64 = inl v) pre vs /\
     parseFloat t 64 = inr ne /\ e = errNum ne /\
     p' = set_points vs p).
Proof.
  split; split.
  - rewrite GetPoints_token_list. intros Hrun.
    apply read_values_inv in Hrun as (vs & Hvs & ->). eauto.
  - intros (vs & Hvs & ->).
    apply (GetPoints_values _ _ _ _ (tokens_total dataPoints) Hvs).
  - rewrite GetPoints_token_list. intros Hrun.
    apply read_values_Err_inv in Hrun
      as (pre & t & post & vs & ne & Htoks & Hvs & Ht & -> & ->).
    exists pre, t, post, vs, ne. repeat split; assumption.
  - intros (pre & t & post & vs & ne & Htoks & Hvs & Ht & -> & ->).
    apply (GetPoints_values_Err _ pre t post); [| assumption | assumption].
    rewrite tokens_total, Htoks. reflexivity.
Qed.

End Numbers.

(** ** Separators *)

Section Separators.
Context {float64 NumError : Type} `{RT : GoRuntime float64 NumError}.
Implicit Types p q r : @Parser float64.
Implicit Types e : @error NumError.
Local Open Scope go_scope.

Lemma GetPoints_cuts_app rs1 rs2 li lr :
  GetPoints_cuts (rs1 ++ rs2) li lr =
  (fst (GetPoints_cuts rs1 li lr)
   ++ fst (GetPoints_cuts rs2 (snd (GetPoints_cuts rs1 li lr))
                          (last_rune_from lr rs1)),
   snd (GetPoints_cuts rs2 (snd (GetPoints_cuts rs1 li lr))
                       (last_rune_from lr rs1))).
Proof.
  revert li lr. induction rs1 as [| [i r] rs1 IH]; intros li lr; simpl.
  - destruct (GetPoints_cuts rs2 li lr). reflexivity.
  - destruct (is_boundary lr r).
    + rewrite IH.
      destruct (GetPoints_cuts rs1 (if r =? rune_of "-" then i else -1) r)
        as [cs l]. simpl. rewrite <- app_assoc. reflexivity.
    + destruct (li =? -1); apply IH.
Qed.

Lemma shift_index_mark n li :
  0 <= n -> li = -1 \/ 0 <= li -> (shift_index n li =? -1) = (li =? -1).
Proof.
  intros Hn Hli. unfold shift_index.
  destruct (li =? -1) eqn:Hm; [reflexivity |].
  apply Z.eqb_neq in Hm. apply Z.eqb_neq. lia.
Qed.

Lemma GetPoints_cuts_shift n rs : forall li lr,
  0 <= n -> li = -1 \/ 0 <= li -> Forall (fun ir => 0 <= fst ir) rs ->
  GetPoints_cuts (map (shift n) rs) (shift_index n li) lr =
  (map (shift_cut n) (fst (GetPoints_cuts rs li lr)),
   shift_index n (snd (GetPoints_cuts rs li lr))).
Proof.
  intros li lr Hn Hli Hrs. revert li lr Hli.
  induction Hrs as [| [i r] rs Hi _ IH]; intros li lr Hli; simpl; [reflexivity |].
  simpl in Hi.
  destruct (is_boundary lr r).
  - replace (if r =? rune_of "-" then i + n else -1)
      with (shift_index n (if r =? rune_of "-" then i else -1)).
    2:{ unfold shift_index. destruct (r =? rune_of "-"); [| reflexivity].
        destruct (i =? -1) eqn:Hm; [apply Z.eqb_eq in Hm; lia | reflexivity]. }
    rewrite IH by (destruct (r =? rune_of "-"); [right; lia | left; reflexivity]).
    destruct (GetPoints_cuts rs (if r =? rune_of "-" then i else -1) r) as [cs l].
    simpl. rewrite (shift_index_mark n li Hn Hli).
    destruct (li =? -1) eqn:Hm; simpl; [reflexivity |].
    unfold shift_index at 1. rewrite Hm. reflexivity.
  - rewrite (shift_index_mark n li Hn Hli).
    destruct (li =? -1) eqn:Hm.
    + replace (i + n) with (shift_index n i).
      2:{ unfold shift_index.
          destruct (i =? -1) eqn:Hi1; [apply Z.eqb_eq in Hi1; lia | reflexivity]. }
      apply IH. right. lia.
    + apply IH. exact Hli.
Qed.

(** What comes before the first rune matters to GetPoints only in being
    an ['e'] or not. *)
Lemma GetPoints_cuts_lr rs li lr lr' :
  (lr =? rune_of "e") = (lr' =? rune_of "e") ->
  GetPoints_cuts rs li lr = GetPoints_cuts rs li lr'.
Proof.
  intros Hlr. destruct rs as [| [i r] rs]; simpl; [reflexivity |].
  unfold is_boundary. rewrite Hlr. reflexivity.
Qed.

Lemma range_ascii (c : ascii) (t : string) :
  byte_val c < 128 ->
  range (String c t) = (0, rune_of c) :: map (shift 1) (range t).
Proof.
  intros Hc. unfold range.
  change (range_from 0 0 (String c t))
    with (let '(r, w) := DecodeRune (String c t) in
          (0, r) :: range_from (Nat.pred w) (0 + 1) t).
  unfold DecodeRune. apply Z.ltb_lt in Hc. rewrite Hc. simpl Nat.pred.
  rewrite range_from_shift. reflexivity.
Qed.

Lemma range_app_ascii (s : string) (c : ascii) (t : string) :
  byte_val c < 128 ->
  range (String.append s (String c t))
  = range s ++ map (shift (len s)) (range (String c t)).
Proof.
  intros Hc. unfold range. rewrite range_from_app by (exact Hc || lia).
  rewrite <- range_from_shift. reflexivity.
Qed.

(** A slice that lies in the first operand of a concatenation. *)
Lemma slice_app_l (s t : string) (c : Z * Z) :
  valid_cut (len s) c ->
  slice (String.append s t) (fst c) (snd c) = slice s (fst c) (snd c).
Proof.
  intros [[Ha Hab] Hb]. unfold slice. rewrite len_app.
  pose proof (len_nonneg t).
  replace (snd c <=? len s + len t) with true by (symmetry; apply Z.leb_le; lia).
  replace (snd c <=? len s) with true by (symmetry; apply Z.leb_le; lia).
  destruct ((0 <=? fst c) && (fst c <=? snd c) && true); [| reflexivity].
  f_equal.
  assert (Hm : (Z.to_nat (fst c) + Z.to_nat (snd c - fst c) <= String.length s)%nat)
    by (unfold len in Hb; lia).
  revert Hm. generalize (Z.to_nat (fst c)) (Z.to_nat (snd c - fst c)). clear.
  induction s as [| x s IH]; intros a m Hm; simpl in *.
  - assert (a = O) as -> by lia. assert (m = O) as -> by lia.
    destruct t; reflexivity.
  - destruct a as [| a].
    + destruct m as [| m]; [reflexivity |]. f_equal. apply (IH 0%nat). lia.
    + apply IH. lia.
Qed.

Lemma slices_app s cs1 cs2 :
  slices s (cs1 ++ cs2) =
  match slices s cs1, slices s cs2 with
  | Some ts1, Some ts2 => Some (ts1 ++ ts2)
  | _, _ => None
  end.
Proof.
  induction cs1 as [| c cs1 IH]; simpl.
  - destruct (slices s cs2); reflexivity.
  - rewrite IH. destruct (slice s (fst c) (snd c)); [| reflexivity].
    destruct (slices s cs1); [| reflexivity].
    destruct (slices s cs2); reflexivity.
Qed.

Lemma slices_app_l (s t : string) cs :
  Forall (valid_cut (len s)) cs ->
  slices (String.append s t) cs = slices s cs.
Proof.
  induction 1 as [| c cs Hc _ IH]; simpl; [reflexivity |].
  rewrite (slice_app_l _ _ _ Hc), IH. reflexivity.
Qed.

Lemma slices_app_shift (s t : string) cs :
  Forall (fun c => 0 <= fst c) cs ->
  slices (String.append s t) (map (shift_cut (len s)) cs) = slices t cs.
Proof.
  induction 1 as [| c cs Hc _ IH]; simpl; [reflexivity |].
  rewrite (slice_app_shift _ _ _ _ Hc), IH. reflexivity.
Qed.

Lemma all_pieces_app ts1 ts2 :
  all_pieces (ts1 ++ ts2) =
  match all_pieces ts1, all_pieces ts2 with
  | Some ps, Some qs => Some (ps ++ qs)
  | _, _ => None
  end.
Proof.
  induction ts1 as [| t ts1 IH]; simpl.
  - destruct (all_pieces ts2); reflexivity.
  - rewrite IH. destruct (pieces t); [| reflexivity].
    destruct (all_pieces ts1); [| reflexivity].
    destruct (all_pieces ts2); [| reflexivity].
    rewrite app_assoc. reflexivity.
Qed.

Lemma token_cuts_nonneg dataPoints :
  Forall (fun c => 0 <= fst c) (token_cuts dataPoints).
Proof.
  eapply Forall_impl; [apply token_cuts_proper |].
  intros c [[H _] _]. exact H.
Qed.

(** The tokens of a text cut in two where the cuts allow it. *)
Lemma token_list_cuts (s s1 s2 : string) :
  s = String.append s1 s2 ->
  token_cuts s = token_cuts s1 ++ map (shift_cut (len s1)) (token_cuts s2) ->
  token_list s = token_list s1 ++ token_list s2.
Proof.
  intros -> Hcuts.
  pose proof (tokens_total (String.append s1 s2)) as H.
  pose proof (tokens_total s1) as H1. pose proof (tokens_total s2) as H2.
  unfold tokens in *. rewrite Hcuts, slices_app in H.
  rewrite slices_app_l in H
    by (eapply Forall_impl; [apply token_cuts_proper | apply proper_valid]).
  rewrite slices_app_shift in H by apply token_cuts_nonneg.
  destruct (slices s1 (token_cuts s1)) as [ts1 |]; [| discriminate].
  destruct (slices s2 (token_cuts s2)) as [ts2 |]; [| discriminate].
  rewrite all_pieces_app, H1, H2 in H. congruence.
Qed.

Lemma is_boundary_space (lr r0 : rune) :
  is_boundary lr r0 = true -> is_boundary (rune_of " ") r0 = true.
Proof.
  unfold is_boundary. rewrite !andb_true_iff. intros [[[H1 H2] _] H4].
  repeat split; try assumption.
  rewrite andb_false_r. reflexivity.
Qed.

Lemma token_cuts_at_boundary (s1 s2 : string) (c : ascii) :
  byte_val c < 128 ->
  is_boundary (last_rune s1) (rune_of c) = true ->
  token_cuts (String.append s1 (String c s2))
  = token_cuts s1 ++ map (shift_cut (len s1)) (token_cuts (String c s2)).
Proof.
  intros Hc Hb. pose proof (len_nonneg s1) as Hn.
  pose proof (is_boundary_space _ _ Hb) as Hb'.
  unfold token_cuts.
  rewrite range_app_ascii by exact Hc.
  rewrite GetPoints_cuts_app. fold (last_rune s1).
  destruct (GetPoints_cuts_proper (range s1) 0 (len s1) (-1) (rune_of " "))
    as [_ Hl1];
    [apply (range_from_ascending s1 0 0) | lia | left; reflexivity |].
  destruct (GetPoints_cuts (range s1) (-1) (rune_of " ")) as [cs1 l1]. simpl in *.
  rewrite (range_ascii _ _ Hc). simpl map. unfold shift at 1. simpl fst. simpl snd.
  rewrite Z.add_0_l.
  cbn [GetPoints_cuts]. rewrite Hb, Hb'.
  set (rs := map (shift 1) (range s2)).
  assert (Hrs : Forall (fun ir => 0 <= fst ir) rs).
  { unfold rs, range. rewrite <- range_from_shift. apply range_from_nonneg. lia. }
  pose proof (GetPoints_cuts_shift (len s1) rs
                (if rune_of c =? rune_of "-" then 0 else -1) (rune_of c) Hn
                ltac:(destruct (rune_of c =? rune_of "-"); [right; lia | left; reflexivity])
                Hrs) as Hs.
  replace (shift_index (len s1) (if rune_of c =? rune_of "-" then 0 else -1))
    with (if rune_of c =? rune_of "-" then len s1 else -1) in Hs
    by (destruct (rune_of c =? rune_of "-"); reflexivity).
  rewrite Hs.
  destruct (GetPoints_cuts_proper rs 1 (len (String c s2))
              (if rune_of c =? rune_of "-" then 0 else -1) (rune_of c))
    as [_ Hl2].
  { unfold rs, range. rewrite <- range_from_shift, len_String.
    replace (len s2 + 1) with (1 + len s2) by lia.
    apply (range_from_ascending s2 0 1). }
  { rewrite len_String. pose proof (len_nonneg s2). lia. }
  { destruct (rune_of c =? rune_of "-"); [right; lia | left; reflexivity]. }
  destruct (GetPoints_cuts rs (if rune_of c =? rune_of "-" then 0 else -1) (rune_of c))
    as [cs2 l2]. simpl in *.
  rewrite len_app.
  assert (Hfin1 : (if negb (l1 =? -1) then [(l1, len s1)] else [])
                  = (if negb (l1 =? -1) && negb (l1 =? len s1)
                     then [(l1, len s1)] else [])).
  { destruct (l1 =? -1) eqn:Hm; [reflexivity |]. simpl.
    destruct (l1 =? len s1) eqn:Hm'; [apply Z.eqb_eq in Hm'; lia | reflexivity]. }
  rewrite Hfin1, map_app, <- !app_assoc. f_equal. f_equal. f_equal.
  unfold shift_index.
  destruct (l2 =? -1) eqn:Hm2; simpl; [reflexivity |].
  apply Z.eqb_neq in Hm2.
  replace (l2 + len s1 =? -1) with false by (symmetry; apply Z.eqb_neq; lia).
  replace (l2 + len s1 =? len s1 + len (String c s2)) with (l2 =? len (String c s2))
    by (apply eq_true_iff_eq; rewrite !Z.eqb_eq; lia).
  simpl. destruct (l2 =? len (String c s2)); simpl; [reflexivity |].
  unfold shift_cut. simpl. rewrite (Z.add_comm (len s1)). reflexivity.
Qed.

(** A separator at the head of a text is passed over. *)
Lemma token_cuts_after_separator (c : ascii) (s2 : string) :
  byte_val c < 128 ->
  is_boundary (rune_of " ") (rune_of c) = true ->
  (rune_of c =? rune_of "-") = false ->
  token_cuts (String c s2) = map (shift_cut 1) (token_cuts s2).
Proof.
  intros Hc Hb Hm. unfold token_cuts.
  rewrite (range_ascii _ _ Hc). cbn [GetPoints_cuts]. rewrite Hb, Hm.
  assert (He : (rune_of c =? rune_of "e") = (rune_of " " =? rune_of "e")).
  { unfold is_boundary in Hb. rewrite !andb_true_iff in Hb.
    destruct Hb as [_ He]. apply negb_true_iff in He. rewrite He. reflexivity. }
  rewrite (GetPoints_cuts_lr _ _ _ _ He).
  pose proof (GetPoints_cuts_shift 1 (range s2) (-1) (rune_of " ")
                ltac:(lia) ltac:(left; reflexivity)
                ltac:(apply range_from_nonneg; lia)) as Hs.
  change (shift_index 1 (-1)) with (-1) in Hs. rewrite Hs.
  destruct (GetPoints_cuts_proper (range s2) 0 (len s2) (-1) (rune_of " "))
    as [_ Hl];
    [apply (range_from_ascending s2 0 0) | pose proof (len_nonneg s2); lia
     | left; reflexivity |].
  destruct (GetPoints_cuts (range s2) (-1) (rune_of " ")) as [cs l]. simpl in *.
  rewrite map_app, len_String. f_equal.
  unfold shift_index.
  destruct (l =? -1) eqn:Hl1; simpl; [reflexivity |].
  apply Z.eqb_neq in Hl1.
  replace (l + 1 =? -1) with false by (symmetry; apply Z.eqb_neq; lia).
  replace (l + 1 =? len s2 + 1) with (l =? len s2)
    by (apply eq_true_iff_eq; rewrite !Z.eqb_eq; lia).
  simpl. destruct (l =? len s2); reflexivity.
Qed.

(** X12.  A byte below 128 that ends a number where it stands cuts the text in
    two for GetPoints: the tokens are those of what comes before it,
    followed by those of what starts with it.  Unless it is a minus
    sign, which opens the next number, it is itself passed over. *)
Theorem tokens_split_at_boundary (s1 s2 : string) (c : ascii)
        (Hc : byte_val c < 128)
        (Hb : is_boundary (last_rune s1) (rune_of c) = true) :
  token_list (String.append s1 (String c s2))
  = token_list s1 ++ token_list (String c s2) /\
  (rune_of c <> rune_of "-" -> token_list (String c s2) = token_list s2).
Proof.
  split.
  - apply token_list_cuts; [reflexivity |].
    apply token_cuts_at_boundary; assumption.
  - intros Hm. apply Z.eqb_neq in Hm.
    pose proof (token_cuts_after_separator c EmptyString Hc
                  (is_boundary_space _ _ Hb) Hm) as Hnil.
    change (token_cuts EmptyString) with (@nil (Z * Z)) in Hnil. simpl in Hnil.
    rewrite (token_list_cuts (String c s2) (String c EmptyString) s2 eq_refl).
    + unfold token_list at 1, tokens. rewrite Hnil. reflexivity.
    + rewrite Hnil.
      apply (token_cuts_after_separator c s2 Hc (is_boundary_space _ _ Hb) Hm).
Qed.

End Separators.

(** ** The bytes of a token *)

Section TokenBytes.
Context {float64 NumError : Type} `{RT : GoRuntime float64 NumError}.
Implicit Types p q : @Parser float64.
Implicit Types e : @error NumError.
Local Open Scope go_scope.

Lemma in_range_ge lo hi x : 128 <= lo -> in_range lo hi x = true -> 128 <= x.
Proof.
  unfold in_range. intros Hlo H. apply andb_true_iff in H as [H _].
  apply Z.leb_le in H. lia.
Qed.

(** The bytes of a rune after its first one are not below 128. *)
Lemma DecodeRune_cont (b : ascii) (t : string) (k : nat) (c : ascii) :
  (k < Nat.pred (snd (DecodeRune (String b t))))%nat ->
  String.get k t = Some c -> 128 <= byte_val c.
Proof.
  unfold DecodeRune.
  destruct (byte_val b <? 128); [intros Hk0; simpl in Hk0; exfalso; lia |].
  destruct (byte_val b <? 194); [intros Hk0; simpl in Hk0; exfalso; lia |].
  destruct (byte_val b <? 224).
  { destruct t as [| c1 t]; [intros Hk0; simpl in Hk0; exfalso; lia |].
    destruct (in_range 128 191 (byte_val c1)) eqn:H1; [| intros Hk0; simpl in Hk0; exfalso; lia].
    intros Hk. simpl in Hk. assert (k = 0%nat) as -> by lia. simpl. intros [= <-].
    eapply in_range_ge; [| exact H1]; repeat match goal with |- context [if ?c then _ else _] => destruct c end; lia. }
  destruct (byte_val b <? 240).
  { destruct t as [| c1 [| c2 t]]; try (intros Hk0; simpl in Hk0; exfalso; lia).
    cbv zeta.
    destruct (in_range (if byte_val b =? 224 then 160 else 128)
                       (if byte_val b =? 237 then 159 else 191) (byte_val c1))
      eqn:H1; [| intros Hk0; simpl in Hk0; exfalso; lia].
    destruct (in_range 128 191 (byte_val c2)) eqn:H2; [| intros Hk0; simpl in Hk0; exfalso; lia].
    intros Hk. simpl in Hk.
    destruct k as [| [| k]]; [| | lia]; simpl; intros [= <-].
    - eapply in_range_ge; [| exact H1]; repeat match goal with |- context [if ?c then _ else _] => destruct c end; lia.
    - eapply in_range_ge; [| exact H2]; repeat match goal with |- context [if ?c then _ else _] => destruct c end; lia. }
  destruct (byte_val b <? 245); [| intros Hk0; simpl in Hk0; exfalso; lia].
  destruct t as [| c1 [| c2 [| c3 t]]]; try (intros Hk0; simpl in Hk0; exfalso; lia).
  cbv zeta.
  destruct (in_range (if byte_val b =? 240 then 144 else 128)
                     (if byte_val b =? 244 then 143 else 191) (byte_val c1))
    eqn:H1; [| intros Hk0; simpl in Hk0; exfalso; lia].
  destruct (in_range 128 191 (byte_val c2)) eqn:H2; [| intros Hk0; simpl in Hk0; exfalso; lia].
  destruct (in_range 128 191 (byte_val c3)) eqn:H3; [| intros Hk0; simpl in Hk0; exfalso; lia].
  intros Hk. simpl in Hk.
  destruct k as [| [| [| k]]]; [| | | lia]; simpl; intros [= <-].
  - eapply in_range_ge; [| exact H1]; repeat match goal with |- context [if ?c then _ else _] => destruct c end; lia.
  - eapply in_range_ge; [| exact H2]; repeat match goal with |- context [if ?c then _ else _] => destruct c end; lia.
  - eapply in_range_ge; [| exact H3]; repeat match goal with |- context [if ?c then _ else _] => destruct c end; lia.
Qed.

(** A byte below 128 is a rune of its own for [range], at its offset. *)
Lemma range_from_below_128 (s : string) : forall (skip : nat) (i : Z) (k : nat) (c : ascii),
  (forall k' c', (k' < skip)%nat -> String.get k' s = Some c' -> 128 <= byte_val c') ->
  String.get k s = Some c -> byte_val c < 128 ->
  In (i + Z.of_nat k, byte_val c) (range_from skip i s).
Proof.
  induction s as [| b s IH]; intros skip i k c Hskip Hk Hc; [discriminate |].
  destruct skip as [| skip].
  - change (range_from 0 i (String b s))
      with (let '(r, w) := DecodeRune (String b s) in
            (i, r) :: range_from (Nat.pred w) (i + 1) s).
    pose proof (DecodeRune_cont b s) as Hcont.
    destruct (DecodeRune (String b s)) as [r w] eqn:Hd. simpl in Hcont.
    destruct k as [| k]; simpl in Hk.
    + injection Hk as ->. left.
      unfold DecodeRune in Hd. apply Z.ltb_lt in Hc. rewrite Hc in Hd.
      injection Hd as <- <-. rewrite Z.add_0_r. reflexivity.
    + right. replace (i + Z.of_nat (S k)) with (i + 1 + Z.of_nat k) by lia.
      apply IH; [| exact Hk | exact Hc].
      intros k' c' Hk'. apply Hcont, Hk'.
  - simpl range_from. destruct k as [| k]; simpl in Hk.
    + injection Hk as ->.
      specialize (Hskip 0%nat c ltac:(lia) eq_refl). lia.
    + replace (i + Z.of_nat (S k)) with (i + 1 + Z.of_nat k) by lia.
      apply IH; [| exact Hk | exact Hc].
      intros k' c' Hk' Hg. apply (Hskip (S k') c'); [lia | exact Hg].
Qed.

Lemma range_below_128 (s : string) (k : nat) (c : ascii) :
  String.get k s = Some c -> byte_val c < 128 ->
  In (Z.of_nat k, byte_val c) (range s).
Proof.
  intros Hk Hc. apply (range_from_below_128 s 0 0 k c); [| exact Hk | exact Hc].
  intros k' c' Hk'. lia.
Qed.

(** The cuts start where the runes gone through start, or at the index
    carried over. *)
Lemma GetPoints_cuts_lower rs : forall lo hi li lr m,
  ascending lo hi rs -> m <= lo -> li = -1 \/ m <= li ->
  Forall (fun c => m <= fst c) (fst (GetPoints_cuts rs li lr)) /\
  (snd (GetPoints_cuts rs li lr) = -1 \/ m <= snd (GetPoints_cuts rs li lr)).
Proof.
  induction rs as [| [i r1] rs IH]; intros lo hi li lr m Hrs Hm Hli; simpl.
  - split; [constructor | exact Hli].
  - simpl in Hrs. destruct Hrs as [Hi Hrs].
    destruct (is_boundary lr r1).
    + destruct (IH (i + 1) hi (if r1 =? rune_of "-" then i else -1) r1 m Hrs)
        as [Hcs Hl]; [lia | destruct (r1 =? rune_of "-"); [right; lia | left; reflexivity] |].
      destruct (GetPoints_cuts rs (if r1 =? rune_of "-" then i else -1) r1)
        as [cs l]. simpl in *.
      split; [| exact Hl].
      destruct (li =? -1) eqn:Hm1; simpl; [exact Hcs |].
      apply Z.eqb_neq in Hm1. constructor; [simpl; lia | exact Hcs].
    + destruct (li =? -1).
      * apply (IH (i + 1) hi); [exact Hrs | lia | right; lia].
      * apply (IH (i + 1) hi); [exact Hrs | lia | exact Hli].
Qed.

Lemma separator_boundary (r0 : rune) :
  separator r0 = true ->
  (forall lr, is_boundary lr r0 = true) /\ (r0 =? rune_of "-") = false.
Proof.
  unfold separator, is_boundary. rewrite !andb_true_iff.
  intros [[[H1 H2] H3] H4]. apply negb_true_iff in H3.
  split; [| exact H3]. intros lr. rewrite H1, H2, H3, H4. reflexivity.
Qed.

(** No cut of GetPoints takes in a separator. *)
Lemma GetPoints_cuts_avoid rs : forall lo hi li lr (j : Z) (r0 : rune),
  ascending lo hi rs -> li = -1 \/ li < lo ->
  In (j, r0) rs -> separator r0 = true ->
  Forall (fun c => snd c <= j \/ j < fst c) (fst (GetPoints_cuts rs li lr)) /\
  (snd (GetPoints_cuts rs li lr) = -1 \/ j < snd (GetPoints_cuts rs li lr)).
Proof.
  induction rs as [| [i r1] rs IH]; intros lo hi li lr j r0 Hrs Hli Hin Hsep;
    [destruct Hin |].
  simpl in Hrs. destruct Hrs as [Hi Hrs]. simpl.
  destruct (separator_boundary _ Hsep) as [Hb Hminus].
  destruct Hin as [[= -> ->] | Hin].
  - rewrite Hb, Hminus.
    destruct (GetPoints_cuts_lower rs (j + 1) hi (-1) r0 (j + 1) Hrs)
      as [Hcs Hl]; [lia | left; reflexivity |].
    destruct (GetPoints_cuts rs (-1) r0) as [cs l]. simpl in *.
    split.
    + apply Forall_app. split.
      * destruct (li =? -1); simpl; constructor; [simpl; lia | constructor].
      * eapply Forall_impl; [exact Hcs |]. intros c Hc. simpl in Hc. lia.
    + destruct Hl as [-> | Hl]; [left; reflexivity | right; lia].
  - pose proof (ascending_In _ _ _ _ _ Hrs Hin) as Hj.
    destruct (is_boundary lr r1).
    + destruct (IH (i + 1) hi (if r1 =? rune_of "-" then i else -1) r1 j r0 Hrs)
        as [Hcs Hl];
        [destruct (r1 =? rune_of "-"); [right; lia | left; reflexivity]
        | exact Hin | exact Hsep |].
      destruct (GetPoints_cuts rs (if r1 =? rune_of "-" then i else -1) r1)
        as [cs l]. simpl in *.
      split; [| exact Hl].
      apply Forall_app. split; [| exact Hcs].
      destruct (li =? -1); simpl; constructor; [simpl; lia | constructor].
    + destruct (li =? -1).
      * apply (IH (i + 1) hi _ _ j r0); [exact Hrs | right; lia | exact Hin | exact Hsep].
      * apply (IH (i + 1) hi _ _ j r0); [exact Hrs | | exact Hin | exact Hsep].
        destruct Hli as [-> | Hli]; [left; reflexivity | right; lia].
Qed.

Lemma token_cuts_avoid (s : string) (c : Z * Z) (j : Z) (r0 : rune) :
  In c (token_cuts s) -> In (j, r0) (range s) -> separator r0 = true ->
  snd c <= j \/ j < fst c.
Proof.
  unfold token_cuts. intros Hc Hin Hsep.
  destruct (GetPoints_cuts_avoid (range s) 0 (len s) (-1) (rune_of " ") j r0)
    as [Hcs Hl]; [apply (range_from_ascending s 0 0) | left; reflexivity
                  | exact Hin | exact Hsep |].
  destruct (GetPoints_cuts (range s) (-1) (rune_of " ")) as [cs l]. simpl in *.
  apply in_app_or in Hc as [Hc | Hc].
  - rewrite Forall_forall in Hcs. apply Hcs, list_elem_of_In, Hc.
  - destruct (negb (l =? -1) && negb (l =? len s)) eqn:Hf; [| destruct Hc].
    destruct Hc as [<- | []]. simpl.
    apply andb_true_iff in Hf as [Hf _]. apply negb_true_iff, Z.eqb_neq in Hf.
    right. lia.
Qed.

Lemma token_byte_separator (c : ascii) :
  token_byte c = false -> byte_val c < 128 /\ separator (byte_val c) = true.
Proof.
  unfold token_byte. rewrite !orb_false_iff.
  intros [[[[H1 H2] H3] H4] H5]. apply Z.leb_gt in H1.
  split; [exact H1 |].
  assert (H0 : 0 <= byte_val c) by (unfold byte_val; lia).
  unfold separator, IsNumber.
  replace (in_range 0 255 (byte_val c)) with true
    by (symmetry; unfold in_range; apply andb_true_iff; split; apply Z.leb_le; lia).
  assert (Hn : latin1_number (byte_val c) = false).
  { unfold latin1_number. unfold is_digit_byte in H2. rewrite H2. simpl.
    rewrite !orb_false_iff. repeat split; try (apply Z.eqb_neq; lia).
    unfold in_range. apply andb_false_iff. left. apply Z.leb_gt. lia. }
  rewrite Hn. simpl.
  assert (Hneq : forall d : ascii, Ascii.eqb c d = false ->
                                   (byte_val c =? rune_of d) = false).
  { intros d Hd. apply Z.eqb_neq. intros Heq. apply Ascii.eqb_neq in Hd.
    apply Hd. unfold rune_of, byte_val in Heq.
    apply N2Z.inj in Heq. rewrite <- (ascii_N_embedding c), <- (ascii_N_embedding d).
    rewrite Heq. reflexivity. }
  rewrite (Hneq _ H3), (Hneq _ H4), (Hneq _ H5). reflexivity.
Qed.

(** The bytes of a slice are bytes of the string, inside the cut. *)
Lemma slice_get (s t : string) (a b : Z) (k : nat) (c : ascii) :
  slice s a b = Some t -> String.get k t = Some c ->
  String.get (Z.to_nat a + k) s = Some c /\ a <= a + Z.of_nat k < b.
Proof.
  unfold slice.
  destruct ((0 <=? a) && (a <=? b) && (b <=? len s)) eqn:Hr; [| discriminate].
  rewrite !andb_true_iff, !Z.leb_le in Hr. destruct Hr as [[Ha Hab] Hb].
  intros [= <-] Hk.
  destruct (Nat.lt_ge_cases k (Z.to_nat (b - a))) as [Hlt | Hge].
  - rewrite substring_correct1 in Hk by exact Hlt.
    rewrite Nat.add_comm. split; [exact Hk | lia].
  - rewrite substring_correct2 in Hk by exact Hge. discriminate.
Qed.

Lemma slices_In s cs ts t :
  slices s cs = Some ts -> In t ts ->
  exists c, In c cs /\ slice s (fst c) (snd c) = Some t.
Proof.
  revert ts. induction cs as [| c cs IH]; intros ts; simpl.
  - intros [= <-] [].
  - destruct (slice s (fst c) (snd c)) as [t0 |] eqn:Hc; [| discriminate].
    destruct (slices s cs) as [ts' |]; [| discriminate].
    intros [= <-] [<- | Hin].
    + exists c. split; [left; reflexivity | exact Hc].
    + destruct (IH ts' eq_refl Hin) as (c' & Hc' & Hs). exists c'. split; [right |]; assumption.
Qed.

Lemma all_pieces_In ts toks t :
  all_pieces ts = Some toks -> In t toks ->
  exists tok ps, In tok ts /\ pieces tok = Some ps /\ In t ps.
Proof.
  revert toks. induction ts as [| tok ts IH]; intros toks; simpl.
  - intros [= <-] [].
  - destruct (pieces tok) as [ps |] eqn:Hps; [| discriminate].
    destruct (all_pieces ts) as [qs |]; [| discriminate].
    intros [= <-] Hin. apply in_app_or in Hin as [Hin | Hin].
    + exists tok, ps. split; [left; reflexivity | split; assumption].
    + destruct (IH qs eq_refl Hin) as (tok' & ps' & H1 & H2 & H3).
      exists tok', ps'. split; [right; exact H1 | split; assumption].
Qed.

(** The strings GetPoints hands to ReadFloat hold no separator. *)
Lemma number_strings_bytes (s tok : string) (c : Z * Z) (k : nat) (x : ascii) :
  In c (token_cuts s) -> slice s (fst c) (snd c) = Some tok ->
  String.get k tok = Some x -> token_byte x = true.
Proof.
  intros Hc Hs Hk. destruct (token_byte x) eqn:Hx; [reflexivity | exfalso].
  apply token_byte_separator in Hx as [H128 Hsep].
  destruct (slice_get _ _ _ _ _ _ Hs Hk) as [Hg Hin].
  pose proof (range_below_128 _ _ _ Hg H128) as Hr.
  pose proof (token_cuts_avoid s c _ _ Hc Hr Hsep) as Hav.
  assert (Hfst : 0 <= fst c).
  { pose proof (token_cuts_proper s) as Hp. rewrite Forall_forall in Hp.
    apply list_elem_of_In, Hp in Hc. destruct Hc as [[H0 _] _]. exact H0. }
  lia.
Qed.

Lemma token_bytes (dataPoints t : string) (k : nat) (x : ascii) :
  In t (token_list dataPoints) -> String.get k t = Some x -> token_byte x = true.
Proof.
  intros Ht Hk. pose proof (tokens_total dataPoints) as Htot. unfold tokens in Htot.
  destruct (slices dataPoints (token_cuts dataPoints)) as [ts |] eqn:Hts;
    [| discriminate].
  destruct (all_pieces_In _ _ _ Htot Ht) as (tok & ps & Htok & Hps & Hin).
  destruct (slices_In _ _ _ _ Hts Htok) as (c & Hc & Hs).
  unfold pieces in Hps.
  destruct (slices_In _ _ _ _ Hps Hin) as (c' & _ & Hs').
  destruct (slice_get _ _ _ _ _ _ Hs' Hk) as [Hg _].
  apply (number_strings_bytes _ _ _ _ _ Hc Hs Hg).
Qed.

(** ReadFloat cuts a string that is not empty into pieces none of
    which is empty. *)
Lemma ReadFloat_cuts_proper rs : forall lo hi last isFirst,
  ascending lo hi rs -> 0 <= last <= lo ->
  (isFirst = false -> last < lo) ->
  Forall (proper_cut hi) (fst (ReadFloat_cuts rs last isFirst)) /\
  (snd (ReadFloat_cuts rs last isFirst) = last \/
   lo <= snd (ReadFloat_cuts rs last isFirst) < hi).
Proof.
  induction rs as [| [i n] rs IH]; intros lo hi last isFirst Hrs Hlast Hlo; simpl.
  - split; [constructor | left; reflexivity].
  - simpl in Hrs. destruct Hrs as [Hi Hrs].
    destruct (n =? rune_of ".").
    + destruct isFirst.
      * destruct (IH (i + 1) hi last false Hrs) as [Hcs Hl]; [lia | lia |].
        split; [exact Hcs |]. destruct Hl as [Hl | Hl]; [left; exact Hl | right; lia].
      * specialize (Hlo eq_refl).
        destruct (IH (i + 1) hi i false Hrs) as [Hcs Hl]; [lia | lia |].
        destruct (ReadFloat_cuts rs i false) as [cs l]. simpl in *.
        split; [| right; lia].
        constructor; [| exact Hcs]. unfold proper_cut. simpl. lia.
    + destruct (IH (i + 1) hi last isFirst Hrs) as [Hcs Hl];
        [lia | intros Hf; specialize (Hlo Hf); lia |].
      split; [exact Hcs |]. destruct Hl as [Hl | Hl]; [left; exact Hl | right; lia].
Qed.

Lemma number_cuts_proper (numStr : string) :
  numStr <> EmptyString -> Forall (proper_cut (len numStr)) (number_cuts numStr).
Proof.
  intros Hne. unfold number_cuts.
  assert (Hpos : 0 < len numStr).
  { destruct numStr; [congruence |]. rewrite len_String.
    pose proof (len_nonneg numStr). lia. }
  destruct (ReadFloat_cuts_proper (range numStr) 0 (len numStr) 0 true
              (range_from_ascending numStr 0 0))
    as [Hcs Hl]; [lia | discriminate |].
  destruct (ReadFloat_cuts (range numStr) 0 true) as [cs l]. simpl in *.
  apply Forall_app. split; [exact Hcs |].
  repeat constructor; simpl; lia.
Qed.

Lemma slices_nonempty s cs ts :
  Forall (proper_cut (len s)) cs -> slices s cs = Some ts ->
  Forall (fun t => t <> EmptyString) ts.
Proof.
  intros Hcs Hts. destruct (slices_proper _ _ Hcs) as (ts' & Hts' & Hne).
  congruence.
Qed.

Lemma token_nonempty (dataPoints t : string) :
  In t (token_list dataPoints) -> t <> EmptyString.
Proof.
  intros Ht. pose proof (tokens_total dataPoints) as Htot. unfold tokens in Htot.
  destruct (slices dataPoints (token_cuts dataPoints)) as [ts |] eqn:Hts;
    [| discriminate].
  destruct (all_pieces_In _ _ _ Htot Ht) as (tok & ps & Htok & Hps & Hin).
  pose proof (slices_nonempty _ _ _ (token_cuts_proper dataPoints) Hts) as Hne.
  rewrite Forall_forall in Hne. apply list_elem_of_In, Hne in Htok.
  pose proof (slices_nonempty _ _ _ (number_cuts_proper _ Htok) Hps) as Hne'.
  rewrite Forall_forall in Hne'. apply Hne', list_elem_of_In, Hin.
Qed.

(** X13.  A token is never empty, and every byte of it is a digit, a point, a
    minus sign, the letter e or a byte of a rune not below 128: a token
    holds no letter of a unit, so that trimSuffixes leaves it as it is
    and parseFloat hands it unchanged to strconv.ParseFloat. *)
Theorem tokens_hold_no_unit (dataPoints t : string) (bitSize : Z)
        (Ht : In t (token_list dataPoints)) :
  t <> EmptyString /\
  (forall k c, String.get k t = Some c -> token_byte c = true) /\
  trimSuffixes t = t /\
  parseFloat t bitSize = ParseFloat t bitSize.
Proof.
  assert (Hb : forall k c, String.get k t = Some c -> token_byte c = true)
    by (intros k c; apply (token_bytes dataPoints), Ht).
  assert (Htrim : trimSuffixes t = t).
  { assert (Hno : forall u, In u unitSuffixes -> TrimSuffix t u = t).
    { intros u Hu. unfold TrimSuffix.
      destruct (HasSuffix t u) eqn:Hs; [| reflexivity]. exfalso.
      destruct Hu as [<- | [<- | [<- | [<- | []]]]];
        apply HasSuffix_last in Hs; unfold last_byte in Hs;
        apply Hb in Hs; discriminate. }
    unfold trimSuffixes. destruct (last_byte t) as [c |]; [| reflexivity].
    destruct (is_digit_byte c); [reflexivity |]. simpl.
    rewrite !Hno by (simpl; auto 10). reflexivity. }
  split; [apply (token_nonempty dataPoints), Ht |].
  split; [exact Hb |]. split; [exact Htrim |].
  unfold parseFloat. rewrite Htrim. reflexivity.
Qed.

End TokenBytes.

(** ** The segments of a path string *)

Section Segments.
Context {float64 NumError : Type} `{RT : GoRuntime float64 NumError}.
Implicit Types p q : @Parser float64.
Implicit Types e : @error NumError.
Local Open Scope go_scope.

Lemma CompilePath_cuts_app rs1 rs2 li :
  CompilePath_cuts (rs1 ++ rs2) li =
  (fst (CompilePath_cuts rs1 li)
   ++ fst (CompilePath_cuts rs2 (snd (CompilePath_cuts rs1 li))),
   snd (CompilePath_cuts rs2 (snd (CompilePath_cuts rs1 li)))).
Proof.
  revert li. induction rs1 as [| [i v] rs1 IH]; intros li; simpl.
  - destruct (CompilePath_cuts rs2 li). reflexivity.
  - destruct (IsLetter v && negb (v =? rune_of "e")); [| apply IH].
    rewrite IH. destruct (CompilePath_cuts rs1 i) as [cs l]. simpl.
    rewrite <- app_assoc. reflexivity.
Qed.

Lemma CompilePath_cuts_shift n rs : forall li,
  0 <= n -> li = -1 \/ 0 <= li -> Forall (fun ir => 0 <= fst ir) rs ->
  CompilePath_cuts (map (shift n) rs) (shift_index n li) =
  (map (shift_cut n) (fst (CompilePath_cuts rs li)),
   shift_index n (snd (CompilePath_cuts rs li))).
Proof.
  intros li Hn Hli Hrs. revert li Hli.
  induction Hrs as [| [i v] rs Hi _ IH]; intros li Hli; simpl; [reflexivity |].
  simpl in Hi.
  destruct (IsLetter v && negb (v =? rune_of "e")); [| apply IH, Hli].
  replace (i + n) with (shift_index n i) at 1.
  2:{ unfold shift_index.
      destruct (i =? -1) eqn:Hm; [apply Z.eqb_eq in Hm; lia | reflexivity]. }
  rewrite IH by (right; lia).
  destruct (CompilePath_cuts rs i) as [cs l]. simpl.
  rewrite (shift_index_mark n li Hn Hli).
  destruct (li =? -1) eqn:Hm; simpl; [reflexivity |].
  unfold shift_index at 1. rewrite Hm. reflexivity.
Qed.

(** Once a segment has started there is a segment to close. *)
Lemma CompilePath_cuts_started rs : forall li,
  0 <= li -> Forall (fun ir => 0 <= fst ir) rs ->
  0 <= snd (CompilePath_cuts rs li).
Proof.
  intros li Hli Hrs. revert li Hli.
  induction Hrs as [| [i v] rs Hi _ IH]; intros li Hli; simpl; [exact Hli |].
  simpl in Hi.
  destruct (IsLetter v && negb (v =? rune_of "e")); [| apply IH, Hli].
  specialize (IH i Hi). destruct (CompilePath_cuts rs i) as [cs l]. exact IH.
Qed.

Lemma segment_cuts_nonneg svgPath :
  Forall (fun c => 0 <= fst c) (segment_cuts svgPath).
Proof.
  eapply Forall_impl; [apply segment_cuts_proper |].
  intros c [[H _] _]. exact H.
Qed.

Lemma segment_cuts_at_command (s1 t : string) (c : ascii) :
  byte_val c < 128 -> is_command (rune_of c) = true ->
  segment_cuts (String.append s1 (String c t))
  = segment_cuts s1 ++ map (shift_cut (len s1)) (segment_cuts (String c t)).
Proof.
  intros Hc Hcmd. pose proof (len_nonneg s1) as Hn.
  unfold is_command in Hcmd. unfold segment_cuts.
  rewrite range_app_ascii by exact Hc.
  rewrite CompilePath_cuts_app.
  destruct (CompilePath_cuts (range s1) (-1)) as [cs1 l1]. simpl fst. simpl snd.
  rewrite (range_ascii _ _ Hc). simpl map. unfold shift at 1. simpl fst. simpl snd.
  rewrite Z.add_0_l. cbn [CompilePath_cuts]. rewrite Hcmd.
  set (rs := map (shift 1) (range t)).
  assert (Hrs : Forall (fun ir => 0 <= fst ir) rs).
  { unfold rs, range. rewrite <- range_from_shift. apply range_from_nonneg. lia. }
  pose proof (CompilePath_cuts_shift (len s1) rs 0 Hn ltac:(right; lia) Hrs) as Hs.
  change (shift_index (len s1) 0) with (0 + len s1) in Hs.
  rewrite Z.add_0_l in Hs. rewrite Hs.
  pose proof (CompilePath_cuts_started rs 0 ltac:(lia) Hrs) as Hl.
  destruct (CompilePath_cuts rs 0) as [cs2 l2]. simpl in *.
  rewrite len_app.
  assert (Hm2 : (l2 =? -1) = false) by (apply Z.eqb_neq; lia).
  unfold shift_index. rewrite Hm2.
  replace (l2 + len s1 =? -1) with false by (symmetry; apply Z.eqb_neq; lia).
  simpl. rewrite map_app, <- !app_assoc. f_equal. f_equal. f_equal.
  unfold shift_cut. simpl. rewrite (Z.add_comm (len s1)). reflexivity.
Qed.

Lemma segments_cuts (s s1 s2 : string) :
  s = String.append s1 s2 ->
  segment_cuts s = segment_cuts s1 ++ map (shift_cut (len s1)) (segment_cuts s2) ->
  segments s = segments s1 ++ segments s2.
Proof.
  intros -> Hcuts.
  pose proof (segments_slices (String.append s1 s2)) as H.
  rewrite Hcuts, slices_app in H.
  rewrite slices_app_l in H
    by (eapply Forall_impl; [apply segment_cuts_proper | apply proper_valid]).
  rewrite slices_app_shift in H by apply segment_cuts_nonneg.
  rewrite !segments_slices in H. congruence.
Qed.

Lemma CompilePath_cuts_none rs li :
  forallb (fun ir => negb (is_command (snd ir))) rs = true ->
  CompilePath_cuts rs li = ([], li).
Proof.
  induction rs as [| [i v] rs IH]; simpl; [reflexivity |].
  intros H. apply andb_true_iff in H as [Hv Hrs]. apply negb_true_iff in Hv.
  unfold is_command in Hv. rewrite Hv. apply IH, Hrs.
Qed.

Lemma no_command_segments (s : string) : no_command s = true -> segments s = [].
Proof.
  intros Hno. pose proof (segments_slices s) as H.
  unfold segment_cuts in H.
  rewrite (CompilePath_cuts_none _ _ Hno) in H. simpl in H. congruence.
Qed.

(** X14.  A path string in which no rune starts a segment, the empty string
    among them, is compiled without error whatever it holds: the parser
    is reset and the one call made on the drawing context is
    ClosePath. *)
Theorem CompilePath_without_command (svgPath : string) (p : Parser)
        (Hno : no_command svgPath = true) :
  segments svgPath = [] /\
  CompilePath svgPath p = (emit ClosePath (init p), Ok tt).
Proof.
  split; [apply no_command_segments, Hno |].
  rewrite CompilePath_segments, (no_command_segments _ Hno). reflexivity.
Qed.

(** X15.  A command letter below 128 cuts the path string in two for
    CompilePath: the segments are those of what comes before it followed
    by those of what starts with it.  What comes before the first command
    letter is not looked at. *)
Theorem segments_split_at_command (s1 t : string) (c : ascii) (p : Parser)
        (Hc : byte_val c < 128) (Hcmd : is_command (rune_of c) = true) :
  segments (String.append s1 (String c t))
  = segments s1 ++ segments (String c t) /\
  (no_command s1 = true ->
   CompilePath (String.append s1 (String c t)) p = CompilePath (String c t) p).
Proof.
  assert (Hsplit : segments (String.append s1 (String c t))
                   = segments s1 ++ segments (String c t)).
  { apply segments_cuts; [reflexivity |].
    apply segment_cuts_at_command; assumption. }
  split; [exact Hsplit |].
  intros Hno. rewrite !CompilePath_segments, Hsplit, (no_command_segments _ Hno).
  reflexivity.
Qed.











End Segments.

(** ** What CompilePath leaves alone, and how it ends *)

Section Kept.
Context {float64 NumError : Type} `{RT : GoRuntime float64 NumError}.
Implicit Types p q r : @Parser float64.
Implicit Types e : @error NumError.
Local Open Scope go_scope.

Lemma quiet_refl p : quiet p p.
Proof. repeat split. Qed.

Lemma quiet_trans p q r : quiet p q -> quiet q r -> quiet p r.
Proof.
  unfold quiet, settings_kept.
  intros [(H1 & H2 & H3 & H4 & H5) H6] [(G1 & G2 & G3 & G4 & G5) G6].
  repeat split; congruence.
Qed.

Lemma buffer_only_quiet p p' : buffer_only p p' -> quiet p p'.
Proof. intros ->. repeat split. Qed.

Lemma respects_buffer_quiet {A} (m : @M float64 NumError A) :
  respects buffer_only m -> respects quiet m.
Proof. intros Hm p p' o Hx. apply buffer_only_quiet, (Hm _ _ _ Hx). Qed.

Lemma pt_quiet i : respects quiet (@pt float64 NumError i).
Proof. intros p p' o Hp. rewrite (pt_state _ _ _ _ Hp). apply quiet_refl. Qed.

Lemma lineTo_loop_quiet fuel i l :
  respects quiet (@lineTo_loop float64 NumError fuel i l).
Proof.
  intros p p' o Hl. apply lineTo_loop_calls in Hl as [(cs & -> & _) _].
  repeat split.
Qed.

Lemma hasSetsOrMore_quiet sz rel : respects quiet (hasSetsOrMore sz rel).
Proof.
  apply respects_buffer_quiet. intros p p' o. apply hasSetsOrMore_buffer.
Qed.

Lemma GetPoints_quiet s : respects quiet (GetPoints s).
Proof. apply respects_buffer_quiet. intros p p' o. apply GetPoints_buffer. Qed.

Ltac solve_quiet :=
  step_respects quiet_refl quiet_trans
    ltac:(first
            [ apply hasSetsOrMore_quiet
            | apply pt_quiet
            | apply lineTo_loop_quiet
            | apply respects_modify; intros ?; repeat split ]).

(** The cases of the switch of addSeg other than [default] write to none
    of the settings and log nothing. *)
Lemma addSeg_switch_known_quiet k l :
  recognized k = true -> respects quiet (addSeg_switch k l).
Proof.
  intros Hk. unfold addSeg_switch, moveTo_case, seg_done, valsToAbs. cbv zeta.
  repeat match goal with
         | |- respects _ (if ?c then _ else _) =>
           destruct c eqn:?; [solve [solve_quiet] |]
         end.
  exfalso.
  repeat match goal with
         | H : _ || _ = false |- _ => apply orb_false_iff in H as [? ?]
         end.
  unfold recognized, key_in, close_keys, move_keys, unimplemented_keys in Hk.
  simpl in Hk.
  repeat match goal with
         | H : key_is k _ = false |- _ => rewrite H in Hk; clear H
         end.
  discriminate.
Qed.

Lemma warned_refl p : warned p p.
Proof.
  split; [repeat split |]. exists []. rewrite app_nil_r.
  split; [reflexivity |]. split; [constructor | reflexivity].
Qed.

Lemma warned_trans p q r : warned p q -> warned q r -> warned p r.
Proof.
  intros [(H1 & H2 & H3 & H4 & H5) (ls1 & L1 & W1 & N1)]
         [(G1 & G2 & G3 & G4 & G5) (ls2 & L2 & W2 & N2)].
  split; [repeat split; congruence |].
  exists (ls1 ++ ls2). split; [rewrite L2, L1, app_assoc; reflexivity |].
  split; [apply Forall_app; split; assumption |].
  intros Hm. rewrite N1 by exact Hm. rewrite N2 by congruence. reflexivity.
Qed.

Lemma quiet_warned p p' : quiet p p' -> warned p p'.
Proof.
  intros [Hs Hl]. split; [exact Hs |]. exists []. rewrite app_nil_r.
  split; [exact Hl |]. split; [constructor | reflexivity].
Qed.

Lemma addSeg_switch_warned k l : respects warned (addSeg_switch k l).
Proof.
  destruct (recognized k) eqn:Hk.
  - intros p p' o Hx. apply quiet_warned.
    apply (addSeg_switch_known_quiet k l Hk _ _ _ Hx).
  - intros p p' o. rewrite (addSeg_switch_unknown _ _ _ Hk).
    destruct (ErrMode p =? StrictErrorMode); [intros [= <- <-]; apply warned_refl |].
    intros [= <- <-]. unfold after_skip.
    destruct (ErrMode p =? WarnErrorMode) eqn:Hw.
    + split; [repeat split |].
      exists [String.append "Ignoring svg command " (string_of_byte k)].
      split; [reflexivity |]. split.
      * constructor; [| constructor]. exists k. split; [exact Hk | reflexivity].
      * apply Z.eqb_eq in Hw. intros Hm. congruence.
    + apply quiet_warned. repeat split.
Qed.

Lemma addSeg_warned segString : respects warned (addSeg segString).
Proof.
  unfold addSeg. destruct segString as [| k args].
  - apply respects_panic, warned_refl.
  - apply respects_bind; [exact warned_trans | | intros _].
    + intros p p' o Hg. apply quiet_warned. revert Hg. apply GetPoints_quiet.
    + apply respects_bind; [exact warned_trans | | intros l].
      * apply respects_gets, warned_refl.
      * apply addSeg_switch_warned.
Qed.

Lemma CompilePath_warned svgPath : respects warned (CompilePath svgPath).
Proof.
  intros p p' o. rewrite CompilePath_segments. intros Hrun.
  apply (warned_trans _ (init p)); [apply quiet_warned; repeat split |].
  revert Hrun. generalize (init p). clear p. intros p Hrun.
  revert p p' o Hrun.
  apply respects_bind; [exact warned_trans | | intros _].
  - apply respects_for_each; [exact warned_refl | exact warned_trans |].
    apply addSeg_warned.
  - apply respects_modify. intros p. apply quiet_warned. repeat split.
Qed.

(** X17.  Whatever it returns, CompilePath leaves the error mode, the offset
    [curX], [curY] and the control point of the parser as they were. *)
Theorem CompilePath_keeps_settings (svgPath : string) (p p' : Parser)
        (o : outcome error unit)
        (Hrun : CompilePath svgPath p = (p', o)) :
  ErrMode p' = ErrMode p /\
  curX p' = curX p /\ curY p' = curY p /\
  cntlPtX p' = cntlPtX p /\ cntlPtY p' = cntlPtY p.
Proof. exact (proj1 (CompilePath_warned _ _ _ _ Hrun)). Qed.

(** X18.  Whatever it returns, CompilePath hands to the logger only lines of
    the form "Ignoring svg command" followed by a letter for which the
    switch of addSeg has no case, and it hands it nothing at all unless
    the error mode is WarnErrorMode. *)
Theorem CompilePath_logs_skipped_only (svgPath : string) (p p' : Parser)
        (o : outcome error unit)
        (Hrun : CompilePath svgPath p = (p', o)) :
  exists ls, logged p' = logged p ++ ls /\
             Forall warning_line ls /\
             (ErrMode p <> WarnErrorMode -> ls = []).
Proof. exact (proj2 (CompilePath_warned _ _ _ _ Hrun)). Qed.

(** The errors of addSeg, by the kind of its command letter. *)
Lemma addSeg_Err_kinds k args p p' e :
  addSeg (String k args) p = (p', Err e) ->
  is_errNum e \/
  (e = errParamMismatch /\ (key_in k close_keys || key_in k move_keys) = true) \/
  (e = errNotImplemented /\ key_in k unimplemented_keys = true) \/
  (e = errCommandUnknown /\ recognized k = false /\ ErrMode p = StrictErrorMode).
Proof.
  unfold addSeg. intros Hb.
  apply bind_inv_Err in Hb as [Hg | (p1 & [] & Hg & Hb)].
  { left. apply (GetPoints_fails_only _ _ _ _ Hg). }
  right. rewrite bind_gets in Hb.
  assert (Hmode : ErrMode p1 = ErrMode p).
  { rewrite (GetPoints_buffer _ _ _ _ Hg). reflexivity. }
  destruct (key_in k close_keys) eqn:Hc.
  { rewrite (addSeg_switch_close _ _ _ Hc) in Hb.
    destruct (npoints p1 =? 0); simpl in Hb; [discriminate |].
    injection Hb as <- <-. left. split; reflexivity. }
  destruct (key_in k move_keys) eqn:Hm.
  { apply (addSeg_switch_move_Err _ _ _ _ _ Hm) in Hb as (-> & _ & _).
    left. split; reflexivity. }
  destruct (key_in k unimplemented_keys) eqn:Hu.
  { destruct (addSeg_switch_unimplemented k (npoints p1) p1 Hu) as (q & Hq & _).
    rewrite Hq in Hb. injection Hb as <- <-. right. left. split; reflexivity. }
  assert (Hr : recognized k = false)
    by (unfold recognized; rewrite Hc, Hm, Hu; reflexivity).
  rewrite (addSeg_switch_unknown _ _ _ Hr) in Hb.
  destruct (ErrMode p1 =? StrictErrorMode) eqn:Hs; [| discriminate].
  injection Hb as <- <-. right. right.
  apply Z.eqb_eq in Hs. repeat split; congruence.
Qed.

Lemma for_each_addSeg_warned segs : respects warned (for_each addSeg segs).
Proof.
  apply respects_for_each; [exact warned_refl | exact warned_trans |].
  apply addSeg_warned.
Qed.

(** The errors of CompilePath are those of addSeg on one of its
    segments, the error mode being that of the call. *)
Lemma CompilePath_Err_kinds svgPath p p' e :
  CompilePath svgPath p = (p', Err e) ->
  is_errNum e \/ e = errParamMismatch \/ e = errNotImplemented \/
  (e = errCommandUnknown /\ ErrMode p = StrictErrorMode).
Proof.
  intros Herr.
  apply CompilePath_Err_inv in Herr as (pre & seg & post & p1 & Hsegs & Hpre & Hseg).
  assert (Hmode : ErrMode p1 = ErrMode p).
  { destruct (for_each_addSeg_warned _ _ _ _ Hpre) as [(Hm & _) _].
    rewrite Hm. reflexivity. }
  destruct seg as [| k args]; [discriminate |].
  apply addSeg_Err_kinds in Hseg
    as [Hnum | [[-> _] | [[-> _] | (-> & _ & Hs)]]]; auto.
  right. right. right. split; [reflexivity | congruence].
Qed.

(** X19.  The errors CompilePath returns: ParamMismatch, NotImplemented,
    CommandUnknown and those of strconv.ParseFloat, never ZeroLengthID or
    MissingID; CommandUnknown only when the error mode of the parser is
    StrictErrorMode. *)
Theorem CompilePath_errors (svgPath : string) (p p' : Parser) (e : error)
        (Herr : CompilePath svgPath p = (p', Err e)) :
  (e = errParamMismatch \/ e = errNotImplemented \/
   e = errCommandUnknown \/ is_errNum e) /\
  (e = errCommandUnknown -> ErrMode p = StrictErrorMode) /\
  e <> errZeroLengthID /\ e <> errMissingID.
Proof.
  destruct (CompilePath_Err_kinds _ _ _ _ Herr)
    as [[ne ->] | [-> | [-> | [-> Hs]]]].
  - repeat split; try discriminate. right. right. right. exists ne. reflexivity.
  - repeat split; try discriminate. left. reflexivity.
  - repeat split; try discriminate. right. left. reflexivity.
  - repeat split; try discriminate; [right; right; left; reflexivity | intros _; exact Hs].
Qed.

(** X20.  A parser fresh from NewParser is in IgnoreErrorMode: on it
    CompilePath never returns CommandUnknown and logs nothing, the
    segments with an unknown command letter being passed over in
    silence; the error mode is the same afterwards. *)
Theorem fresh_parser_skips_silently (svgPath : string) (calls : list SinkCall)
        (p' : Parser) (o : outcome error unit)
        (Hrun : CompilePath svgPath (NewParser calls) = (p', o)) :
  o <> Err errCommandUnknown /\
  logged p' = [] /\
  ErrMode p' = IgnoreErrorMode.
Proof.
  destruct (CompilePath_warned _ _ _ _ Hrun) as [(Hm & _) (ls & Hl & _ & Hnone)].
  split; [| split].
  - intros ->. apply CompilePath_Err_kinds in Hrun
      as [[ne Hne] | [Hne | [Hne | [_ Hs]]]]; discriminate.
  - rewrite Hl, Hnone by discriminate. reflexivity.
  - rewrite Hm. reflexivity.
Qed.

(** X21.  A MoveTo whose argument text is read without error into one pair or
    more.  The values are taken as they are for M; for m each pair is
    added to the pair before it, the first one to the cursor as the
    segments before left it.  The first pair becomes the start of the
    subpath, with one MoveTo call, each further pair makes one LineTo
    call, and the last pair becomes the cursor. *)
Theorem move_resolves_against_cursor
        (k : byte) (args : string) (p p1 : Parser) (n : nat)
        (x0 y0 : float64) (rest : list float64)
        (Hk : key_in k move_keys = true)
        (Hargs : GetPoints args p = (p1, Ok tt))
        (Hlen : length (points p1) = (2 * S n)%nat)
        (Hres : (if key_is k "m"
                 then rel_pairs (placeX p) (placeY p) (points p1)
                 else points p1) = x0 :: y0 :: rest) :
  exists p',
    addSeg (String k args) p = (p', Ok tt) /\
    dc p' = dc p ++ MoveTo x0 y0 :: line_calls rest /\
    (pathStartX p', pathStartY p') = (x0, y0) /\
    (placeX p', placeY p') = last_pair x0 y0 rest /\
    inPath p' = true /\ lastKey p' = k /\
    points p' = x0 :: y0 :: rest.
Proof.
  pose proof (GetPoints_buffer _ _ _ _ Hargs) as Hbuf.
  assert (Hres' : resolved k p1 = x0 :: y0 :: rest).
  { unfold resolved. rewrite Hbuf. exact Hres. }
  eexists. split.
  - rewrite (addSeg_run _ _ _ _ Hargs).
    apply (addSeg_switch_move _ n); [exact Hk | exact Hlen | exact Hres'].
  - simpl. rewrite (buffer_only_dc _ _ Hbuf).
    destruct (last_pair x0 y0 rest). repeat split.
Qed.

(** A segment handled without error leaves its command letter in
    [lastKey]; the letter is not one of the commands that are not
    implemented. *)
Lemma addSeg_Ok_lastKey k args q q' :
  addSeg (String k args) q = (q', Ok tt) ->
  lastKey q' = k /\ key_in k unimplemented_keys = false.
Proof.
  intros Hok. apply addSeg_Ok_inv in Hok as (q0 & _ & Hsw).
  destruct (key_in k unimplemented_keys) eqn:Hu.
  { destruct (addSeg_switch_unimplemented k (npoints q0) q0 Hu) as (x & Hx & _).
    rewrite Hx in Hsw. discriminate. }
  split; [| reflexivity].
  destruct (key_in k close_keys) eqn:Hc.
  { rewrite (addSeg_switch_close _ _ _ Hc) in Hsw.
    destruct (negb (npoints q0 =? 0)); [discriminate |].
    injection Hsw as <-. reflexivity. }
  destruct (key_in k move_keys) eqn:Hm.
  { destruct (2 <=? npoints q0) eqn:Hle.
    - destruct (Z.rem (npoints q0) 2 =? 0) eqn:Hrem.
      + apply Z.leb_le in Hle. apply Z.eqb_eq in Hrem.
        destruct (pairs_count_length (points q0)) as [n Hlen];
          [split; assumption |].
        destruct (resolved_pairs k q0 n Hlen) as (x0 & y0 & rest & Hres).
        rewrite (addSeg_switch_move _ _ _ _ _ _ Hm Hlen Hres) in Hsw.
        injection Hsw as <-. reflexivity.
      + rewrite addSeg_switch_move_mismatch in Hsw; [discriminate | exact Hm |].
        apply Z.eqb_neq in Hrem. unfold pairs_count. tauto.
    - rewrite addSeg_switch_move_mismatch in Hsw; [discriminate | exact Hm |].
      apply Z.leb_gt in Hle. unfold pairs_count. lia. }
  rewrite addSeg_switch_unknown in Hsw
    by (unfold recognized; rewrite Hc, Hm, Hu; reflexivity).
  destruct (ErrMode q0 =? StrictErrorMode); [discriminate |].
  injection Hsw as <-. reflexivity.
Qed.

Lemma last_command_snoc segs seg : last_command (segs ++ [seg]) = command_of seg.
Proof. unfold last_command. rewrite last_snoc. reflexivity. Qed.

Lemma for_each_addSeg_lastKey segs : forall q q',
  Forall (fun t => t <> EmptyString) segs ->
  for_each addSeg segs q = (q', Ok tt) ->
  (segs = [] /\ q' = q) \/
  (lastKey q' = last_command segs /\
   key_in (lastKey q') unimplemented_keys = false).
Proof.
  induction segs as [| seg segs IH] using rev_ind; intros q q' Hne Hrun.
  - left. injection Hrun as <-. split; reflexivity.
  - right. apply Forall_app in Hne as [_ Hseg].
    apply Forall_inv in Hseg.
    rewrite for_each_snoc in Hrun.
    apply bind_inv_Ok in Hrun as (q1 & [] & _ & Hlast).
    destruct seg as [| k args]; [congruence |].
    apply addSeg_Ok_lastKey in Hlast as [Hk Hu].
    rewrite last_command_snoc, Hk. split; [reflexivity | exact Hu].
Qed.

Lemma CompilePath_Ok_lastKey svgPath p p' :
  CompilePath svgPath p = (p', Ok tt) ->
  lastKey p' = last_command (segments svgPath) /\
  key_in (lastKey p') unimplemented_keys = false.
Proof.
  rewrite CompilePath_segments. intros Hok.
  apply bind_inv_Ok in Hok as (p1 & [] & Hrun & [= <-]).
  apply for_each_addSeg_lastKey in Hrun as [[-> ->] | Hk];
    [| exact Hk | apply segments_nonempty].
  split; reflexivity.
Qed.

(** X22.  After a call of CompilePath that returns without error, [lastKey]
    holds the command letter of the last segment of the path string, a
    space when it has none; it is never one of the letters that are not
    implemented. *)
Theorem CompilePath_last_key (svgPath : string) (p p' : Parser)
        (Hok : CompilePath svgPath p = (p', Ok tt)) :
  lastKey p' = last_command (segments svgPath) /\
  key_in (lastKey p') unimplemented_keys = false.
Proof. exact (CompilePath_Ok_lastKey _ _ _ Hok). Qed.


End Kept.

Section ControlPoints.
Context {float64 NumError : Type} `{RT : GoRuntime float64 NumError}
        `{AR : GoArith float64}.
Implicit Types p q r : @Parser float64.
Local Open Scope go_scope.

(** X24.  After a call of CompilePath that returns without error, neither
    reflectControlQuad nor reflectControlCube reflects anything: the last
    command is no curve, and both set the control point to the cursor,
    changing nothing else. *)
Theorem reflectControl_after_CompilePath (svgPath : string) (p p' : Parser)
        (Hok : CompilePath svgPath p = (p', Ok tt)) :
  reflectControlQuad (NumError := NumError) p'
  = (set_cntlPt (placeX p') (placeY p') p', Ok tt) /\
  reflectControlCube (NumError := NumError) p'
  = (set_cntlPt (placeX p') (placeY p') p', Ok tt).
Proof.
  destruct (CompilePath_Ok_lastKey _ _ _ Hok) as [_ Hu].
  unfold key_in, unimplemented_keys in Hu. simpl in Hu.
  rewrite !orb_false_iff in Hu.
  repeat match goal with
         | H : _ /\ _ |- _ => destruct H
         end.
  unfold reflectControlQuad, reflectControlCube, modify. cbv zeta.
  repeat match goal with
         | H : key_is (lastKey p') _ = false |- _ => rewrite H; clear H
         end.
  split; reflexivity.
Qed.

End ControlPoints.

(** ** Parsers with different histories *)

Section Reuse.
Context {float64 NumError : Type} `{RT : GoRuntime float64 NumError}.
Implicit Types p q r : @Parser float64.
Implicit Types e : @error NumError.
Local Open Scope go_scope.

Lemma same_output_refl p q : same_output p p q q.
Proof. exists [], []. rewrite !app_nil_r. repeat split. Qed.

Lemma same_output_trans p p1 p2 q q1 q2 :
  same_output p p1 q q1 -> same_output p1 p2 q1 q2 -> same_output p p2 q q2.
Proof.
  intros (cs & ls & H1 & H2 & H3 & H4) (cs' & ls' & G1 & G2 & G3 & G4).
  exists (cs ++ cs'), (ls ++ ls').
  rewrite G1, G2, G3, G4, H1, H2, H3, H4, !app_assoc. repeat split.
Qed.

Lemma history_free_bind {A B} (m : @M float64 NumError A) (f : A -> @M float64 NumError B) :
  history_free m -> (forall a, history_free (f a)) -> history_free (bind m f).
Proof.
  intros Hm Hf p q p' o Hpq Hrun.
  apply bind_inv in Hrun
    as [(p1 & a & Hx & Hy) | [(e & Hx & ->) | [Hx ->]]].
  - destruct (Hm _ _ _ _ Hpq Hx) as (q1 & Hq1 & Ha1 & Ho1).
    destruct (Hf a _ _ _ _ Ha1 Hy) as (q' & Hq' & Ha' & Ho').
    exists q'. split; [rewrite (bind_Ok _ _ _ _ _ Hq1); exact Hq' |].
    split; [exact Ha' | apply (same_output_trans _ _ _ _ _ _ Ho1 Ho')].
  - destruct (Hm _ _ _ _ Hpq Hx) as (q1 & Hq1 & Ha1 & Ho1).
    exists q1. split; [apply bind_Err, Hq1 | split; assumption].
  - destruct (Hm _ _ _ _ Hpq Hx) as (q1 & Hq1 & Ha1 & Ho1).
    exists q1. split; [apply bind_Panic, Hq1 | split; assumption].
Qed.

Lemma history_free_for_each {A} (f : A -> @M float64 NumError unit) (l : list A) :
  (forall x, history_free (f x)) -> history_free (for_each f l).
Proof.
  intros Hf. induction l as [| x l IH]; simpl.
  - intros p q p' o Hpq [= <- <-]. exists q.
    split; [reflexivity | split; [exact Hpq | apply same_output_refl]].
  - apply history_free_bind; [apply Hf | intros _; exact IH].
Qed.

(** What the tokens of a text add to the buffer, and how the run over
    them ends, depends on the tokens alone. *)
Lemma read_values_uniform toks :
  exists vs (o : outcome (@error NumError) unit), forall p,
    for_each read_one toks p = (set_points (points p ++ vs) p, o).
Proof.
  induction toks as [| t toks (vs & o & IH)].
  - exists [], (Ok tt). intros p. simpl. rewrite app_nil_r, set_points_same.
    reflexivity.
  - destruct (parseFloat t 64) as [v | ne] eqn:Hv.
    + exists (v :: vs), o. intros p. simpl.
      unfold bind at 1, read_one at 1, bind at 1, try_parse. rewrite Hv. simpl.
      rewrite IH. simpl. rewrite <- app_assoc. reflexivity.
    + exists [], (Err (errNum ne)). intros p. simpl.
      unfold bind at 1, read_one at 1, bind at 1, try_parse. rewrite Hv. simpl.
      rewrite app_nil_r, set_points_same. reflexivity.
Qed.

Lemma GetPoints_uniform s :
  exists vs (o : outcome (@error NumError) unit), forall p,
    GetPoints s p = (set_points vs p, o).
Proof.
  destruct (read_values_uniform (token_list s)) as (vs & o & H).
  exists vs, o. intros p. rewrite GetPoints_token_list, H. reflexivity.
Qed.

Lemma GetPoints_history_free s : history_free (GetPoints s).
Proof.
  destruct (GetPoints_uniform s) as (vs & o & H).
  intros p q p' o' Hpq. rewrite H. intros [= <- <-].
  exists (set_points vs q). split; [apply H |].
  destruct Hpq as (H1 & H2 & H3 & H4 & H5 & H6 & H7).
  split.
  - repeat split; simpl; try assumption; apply H7; assumption.
  - exists [], []. simpl. rewrite !app_nil_r. repeat split.
Qed.

(** The commands that are not implemented: the error comes after the
    buffer has been made absolute for [v] and [h], and before anything
    else. *)
Lemma addSeg_switch_unimplemented_run k l p :
  key_in k unimplemented_keys = true ->
  addSeg_switch k l p =
  (set_points (if key_is k "v" then valsToAbs_loop (placeY p) (points p)
               else if key_is k "h" then valsToAbs_loop (placeX p) (points p)
               else points p) p,
   Err errNotImplemented).
Proof.
  intros Hk. apply key_in_In in Hk. unfold addSeg_switch.
  repeat (destruct Hk as [<- | Hk];
          [simpl; rewrite ?set_points_same; reflexivity |]).
  destruct Hk.
Qed.

Ltac solve_alike H7 :=
  unfold alike; simpl;
  do 6 (split; [congruence |]);
  let Ht := fresh "Ht" in
  intros Ht; simpl in Ht;
  first [ discriminate | congruence | apply H7; exact Ht
        | split; congruence ].

Ltac no_output :=
  exists [], []; simpl; rewrite ?app_nil_r; repeat split.

Lemma addSeg_switch_history_free k : forall p q p' o,
  alike p q ->
  addSeg_switch k (npoints p) p = (p', o) ->
  exists q', addSeg_switch k (npoints q) q = (q', o) /\
             alike p' q' /\ same_output p p' q q'.
Proof.
  intros p q p' o Hpq Hrun.
  pose proof Hpq as (H1 & H2 & H3 & H4 & H5 & H6 & H7).
  assert (Hn : npoints q = npoints p) by (unfold npoints; rewrite H3; reflexivity).
  destruct (key_in k close_keys) eqn:Hc.
  { rewrite (addSeg_switch_close _ _ _ Hc) in Hrun.
    rewrite (addSeg_switch_close _ _ _ Hc), Hn.
    destruct (negb (npoints p =? 0)); injection Hrun as <- <-.
    - exists q. split; [reflexivity | split; [exact Hpq | apply same_output_refl]].
    - exists (after_close k q). split; [reflexivity |]. unfold after_close.
      rewrite <- H6. destruct (inPath p) eqn:Hin.
      + destruct (H7 eq_refl) as [H8 H9].
        split; [solve_alike H7 | no_output].
      + split; [solve_alike H7 | no_output]. }
  destruct (key_in k move_keys) eqn:Hm.
  { destruct (2 <=? npoints p) eqn:Hle.
    - destruct (Z.rem (npoints p) 2 =? 0) eqn:Hrem.
      + apply Z.leb_le in Hle. apply Z.eqb_eq in Hrem.
        destruct (pairs_count_length (points p)) as [n Hlen];
          [split; assumption |].
        destruct (resolved_pairs k p n Hlen) as (x0 & y0 & rest & Hres).
        assert (Hres' : resolved k q = x0 :: y0 :: rest).
        { rewrite <- Hres. unfold resolved. rewrite H1, H2, H3. reflexivity. }
        assert (Hlen' : length (points q) = (2 * S n)%nat)
          by (rewrite <- H3; exact Hlen).
        rewrite (addSeg_switch_move _ _ _ _ _ _ Hm Hlen Hres) in Hrun.
        rewrite (addSeg_switch_move _ n q x0 y0 rest Hm Hlen' Hres').
        injection Hrun as <- <-.
        eexists. split; [reflexivity |]. split; [solve_alike H7 |].
        exists (MoveTo x0 y0 :: line_calls rest), []. simpl.
        rewrite !app_nil_r. repeat split.
      + assert (Hnp : ~ pairs_count (npoints p))
          by (apply Z.eqb_neq in Hrem; unfold pairs_count; tauto).
        rewrite (addSeg_switch_move_mismatch _ _ _ Hm Hnp) in Hrun.
        rewrite addSeg_switch_move_mismatch; [| exact Hm | rewrite Hn; exact Hnp].
        injection Hrun as <- <-.
        exists q. split; [reflexivity | split; [exact Hpq | apply same_output_refl]].
    - assert (Hnp : ~ pairs_count (npoints p))
        by (apply Z.leb_gt in Hle; unfold pairs_count; lia).
      rewrite (addSeg_switch_move_mismatch _ _ _ Hm Hnp) in Hrun.
      rewrite addSeg_switch_move_mismatch; [| exact Hm | rewrite Hn; exact Hnp].
      injection Hrun as <- <-.
      exists q. split; [reflexivity | split; [exact Hpq | apply same_output_refl]]. }
  destruct (key_in k unimplemented_keys) eqn:Hu.
  { rewrite (addSeg_switch_unimplemented_run _ _ _ Hu) in Hrun.
    rewrite (addSeg_switch_unimplemented_run _ _ _ Hu).
    injection Hrun as <- <-. eexists. split; [reflexivity |].
    rewrite H1, H2, H3. split; [solve_alike H7 | no_output]. }
  assert (Hr : recognized k = false)
    by (unfold recognized; rewrite Hc, Hm, Hu; reflexivity).
  rewrite (addSeg_switch_unknown _ _ _ Hr) in Hrun.
  rewrite (addSeg_switch_unknown _ _ _ Hr), <- H5.
  destruct (ErrMode p =? StrictErrorMode); injection Hrun as <- <-.
  - exists q. split; [reflexivity | split; [exact Hpq | apply same_output_refl]].
  - eexists. split; [reflexivity |]. unfold after_skip. rewrite <- H5.
    destruct (ErrMode p =? WarnErrorMode).
    + split; [solve_alike H7 |].
      exists [], [String.append "Ignoring svg command " (string_of_byte k)].
      simpl. rewrite !app_nil_r. repeat split.
    + split; [solve_alike H7 | no_output].
Qed.

Lemma addSeg_history_free seg : history_free (addSeg seg).
Proof.
  destruct seg as [| k args].
  - intros p q p' o Hpq [= <- <-]. exists q.
    split; [reflexivity | split; [exact Hpq | apply same_output_refl]].
  - unfold addSeg. apply history_free_bind; [apply GetPoints_history_free |].
    intros _ p q p' o Hpq. rewrite !bind_gets. apply addSeg_switch_history_free, Hpq.
Qed.

Lemma CompilePath_history_free svgPath : forall p q p' o,
  ErrMode p = ErrMode q ->
  CompilePath svgPath p = (p', o) ->
  exists q', CompilePath svgPath q = (q', o) /\
             alike p' q' /\ same_output p p' q q'.
Proof.
  intros p q p' o Hmode Hrun.
  rewrite CompilePath_segments in Hrun.
  assert (Hinit : alike (init p) (init q)).
  { solve_alike Hmode. }
  assert (Hfree : history_free
                    (for_each addSeg (segments svgPath) ;; modify (emit ClosePath))).
  { apply history_free_bind.
    - apply history_free_for_each, addSeg_history_free.
    - intros _ p0 q0 p1 o1 Hpq [= <- <-]. eexists. split; [reflexivity |].
      destruct Hpq as (H1 & H2 & H3 & H4 & H5 & H6 & H7).
      split; [solve_alike H7 |].
      exists [ClosePath], []. simpl. rewrite !app_nil_r. repeat split. }
  destruct (Hfree _ _ _ _ Hinit Hrun) as (q' & Hq' & Ha & Ho).
  exists q'. rewrite CompilePath_segments.
  split; [exact Hq' | split; [exact Ha | exact Ho]].
Qed.

(** X25.  What CompilePath does depends on the parser it is called on through
    its error mode alone.  Called on two parsers with the same error
    mode it returns the same way, makes the same calls on the drawing
    context, logs the same lines, and leaves the same cursor, buffer,
    last command and flag of the open subpath, whatever the parsers went
    through before. *)
Theorem CompilePath_forgets_history (svgPath : string) (p q p' : Parser)
        (o : outcome error unit)
        (Hmode : ErrMode p = ErrMode q)
        (Hrun : CompilePath svgPath p = (p', o)) :
  exists q' cs ls,
    CompilePath svgPath q = (q', o) /\
    dc p' = dc p ++ cs /\ dc q' = dc q ++ cs /\
    logged p' = logged p ++ ls /\ logged q' = logged q ++ ls /\
    placeX p' = placeX q' /\ placeY p' = placeY q' /\
    points p' = points q' /\ lastKey p' = lastKey q' /\
    inPath p' = inPath q'.
Proof.
  destruct (CompilePath_history_free _ _ _ _ _ Hmode Hrun)
    as (q' & Hq' & (H1 & H2 & H3 & H4 & H5 & H6 & H7) & (cs & ls & D1 & D2 & L1 & L2)).
  exists q', cs, ls. split; [exact Hq' |].
  repeat split; assumption.
Qed.

(** X26.  EllipseAt and AddArcFromA return whatever their arguments are, an
    empty slice of points included, and draw nothing: each hands one
    warning to the logger.  A call of CompilePath made after them returns
    the same way and makes the same calls on the drawing context as one
    made before them. *)
Theorem stubs_do_not_disturb (cx cy rx ry : float64) (pts : list float64)
        (svgPath : string) (p p' : Parser) (o : outcome error unit)
        (Hrun : CompilePath svgPath p = (p', o)) :
  exists p1 p2 q' cs,
    EllipseAt (NumError := NumError) cx cy rx ry p = (p1, Ok tt) /\
    AddArcFromA (NumError := NumError) pts p1 = (p2, Ok tt) /\
    dc p2 = dc p /\
    logged p2 = logged p ++ [warning_text "EllipseAt" "not implemented";
                             warning_text "AddArcFromA" "not implemented"] /\
    CompilePath svgPath p2 = (q', o) /\
    dc p' = dc p ++ cs /\ dc q' = dc p ++ cs.
Proof.
  set (p1 := log_Printf (warning_text "EllipseAt" errNotImplemented_text) p).
  set (p2 := log_Printf (warning_text "AddArcFromA" errNotImplemented_text) p1).
  assert (Hmode : ErrMode p = ErrMode p2) by reflexivity.
  destruct (CompilePath_history_free _ _ _ _ _ Hmode Hrun)
    as (q' & Hq' & _ & (cs & ls & D1 & D2 & _)).
  exists p1, p2, q', cs.
  split; [reflexivity |]. split; [reflexivity |]. split; [reflexivity |].
  split; [unfold p2, p1; simpl; rewrite <- app_assoc; reflexivity |].
  split; [exact Hq' |]. split; [exact D1 | exact D2].
Qed.

End Reuse.

(** ** The examples, run on the reference runtime *)

#[local] Existing Instance Reference.runtime.

Ltac run := vm_compute; reflexivity.

Lemma second_decimal_point_starts_number_witness :
  dots "12.25" = 1%nat /\
  ParseFloat "1.5" 64 = inl (3 # 2)%Q /\
  ParseFloat ".5" 64 = inl (1 # 2)%Q /\
  ReadFloat "12.25.75" (NewParser [])
  = (read_one "12.25" ;; ReadFloat ".75")%go (NewParser []) /\
  GetPoints "1.5.5" (NewParser [])
  = (set_points [(3 # 2)%Q; (1 # 2)%Q] (NewParser []), Ok tt).
Proof.
  assert (Hdot : dots "12.25" = 1%nat) by run.
  assert (Ha : ParseFloat "1.5" 64 = inl (3 # 2)%Q) by run.
  assert (Hb : ParseFloat ".5" 64 = inl (1 # 2)%Q) by run.
  pose proof (second_decimal_point_starts_number
                (RT := Reference.runtime)
                "12.25" "75" (3 # 2)%Q (1 # 2)%Q (NewParser []) Hdot Ha Hb)
    as (Hgen & _ & Hex).
  split; [exact Hdot |]. split; [exact Ha |]. split; [exact Hb |].
  split; [exact Hgen | exact Hex].
Defined.

Lemma exponent_minus_not_boundary_witness :
  ParseFloat "1e-5" 64 = inl (1 # 100000)%Q /\
  GetPoints "1e-5" (NewParser [])
  = (set_points [(1 # 100000)%Q] (NewParser []), Ok tt).
Proof.
  assert (Hv : ParseFloat "1e-5" 64 = inl (1 # 100000)%Q) by run.
  split; [exact Hv |].
  apply (exponent_minus_not_boundary (RT := Reference.runtime)
           (1 # 100000)%Q (NewParser []) Hv).
Defined.

Lemma moveto_pairs_then_close_witness :
  GetPoints "1 2 3 4" (NewParser [])
  = (set_points [1; 2; 3; 4]%Q (NewParser []), Ok tt) /\
  (exists p', CompilePath "M75 0, 0 200, 150 200 Z" (NewParser []) = (p', Ok tt) /\
              dc p' = dc (NewParser [])
                      ++ [MoveTo 75 0; LineTo 0 200; LineTo 150 200;
                          ClosePath]%Q /\
              placeX p' = 75%Q /\ placeY p' = 0%Q) /\
  addSeg "M1 2 3 4" (NewParser [])
  = (after_move "M"%char 1%Q 2%Q [3; 4]%Q
       (set_points [1; 2; 3; 4]%Q (NewParser [])), Ok tt).
Proof.
  assert (H75 : ParseFloat "75" 64 = inl 75%Q) by run.
  assert (H0 : ParseFloat "0" 64 = inl 0%Q) by run.
  assert (H200 : ParseFloat "200" 64 = inl 200%Q) by run.
  assert (H150 : ParseFloat "150" 64 = inl 150%Q) by run.
  assert (Hargs : GetPoints "1 2 3 4" (NewParser [])
                  = (set_points [1; 2; 3; 4]%Q (NewParser []), Ok tt)) by run.
  assert (Hpts : points (set_points [1; 2; 3; 4]%Q (NewParser []))
                 = 1%Q :: 2%Q :: [3; 4]%Q) by run.
  assert (Hlen : length [3; 4]%Q = (2 * 1)%nat) by run.
  assert (Hk : key_in "z"%char close_keys = true) by run.
  assert (Hargs' : GetPoints " "
                     (after_move "M"%char 1%Q 2%Q [3; 4]%Q
                        (set_points [1; 2; 3; 4]%Q (NewParser [])))
                   = (set_points []
                        (after_move "M"%char 1%Q 2%Q [3; 4]%Q
                           (set_points [1; 2; 3; 4]%Q (NewParser []))), Ok tt))
    by run.
  assert (Hnone : points (set_points (float64 := Q) []
                            (after_move "M"%char 1%Q 2%Q [3; 4]%Q
                               (set_points [1; 2; 3; 4]%Q (NewParser []))))
                  = []) by run.
  pose proof (moveto_pairs_then_close
                (RT := Reference.runtime)
                (NewParser []) 75%Q 0%Q 200%Q 150%Q H75 H0 H200 H150
                "1 2 3 4" " " (NewParser []) _ _ 1%Q 2%Q [3; 4]%Q 1%nat
                "z"%char Hargs Hpts Hlen Hk Hargs' Hnone)
    as (Hex & Hmove & _).
  split; [exact Hargs |]. split; [exact Hex | exact Hmove].
Defined.

Lemma relative_move_from_origin_witness :
  ParseFloat "10" 64 = inl 10%Q /\
  f64_add 10%Q f64_zero = 10%Q /\
  segments "m1 2 3 4" = ["m1 2 3 4"] /\
  (exists p', CompilePath "m10 10" (NewParser []) = (p', Ok tt) /\
              dc p' = dc (NewParser []) ++ [MoveTo 10 10; ClosePath]%Q) /\
  (exists p1, addSeg "m1 2 3 4" (init (NewParser [])) = (p1, Ok tt) /\
              dc p1 = dc (NewParser [])
                      ++ MoveTo (f64_add 1%Q f64_zero) (f64_add 2%Q f64_zero)
                         :: line_calls
                              (rel_pairs (f64_add 1%Q f64_zero)
                                         (f64_add 2%Q f64_zero) [3; 4]%Q)).
Proof.
  assert (Ha : ParseFloat "10" 64 = inl 10%Q) by run.
  assert (Hzero : f64_add 10%Q f64_zero = 10%Q) by run.
  assert (Hfirst : segments "m1 2 3 4" = [String "m" "1 2 3 4"]) by run.
  assert (Hargs : GetPoints "1 2 3 4" (init (NewParser []))
                  = (set_points (1%Q :: 2%Q :: [3; 4]%Q) (init (NewParser [])),
                     Ok tt)) by run.
  assert (Hlen : length [3; 4]%Q = (2 * 1)%nat) by run.
  destruct (relative_move_from_origin
              (RT := Reference.runtime) "m1 2 3 4" (NewParser []) 10%Q
              "1 2 3 4" [] 1%Q 2%Q [3; 4]%Q 1%nat Ha Hzero Hfirst Hargs Hlen)
    as ((p' & Hrun & Hdc & _) & _ & _ & _ & _ & _ & _ & (p1 & Hm & Hdc1 & _)).
  split; [exact Ha |]. split; [exact Hzero |]. split; [exact Hfirst |].
  split.
  - exists p'. split; [exact Hrun | exact Hdc].
  - exists p1. split; [exact Hm | exact Hdc1].
Defined.

Lemma param_mismatch_exactly_witness :
  ParseFloat "1" 64 = inl 1%Q /\
  ParseFloat "2" 64 = inl 2%Q /\
  ParseFloat "3" 64 = inl 3%Q /\
  CompilePath "M1 2 3" (NewParser [])
  = (set_points [1; 2; 3]%Q (init (NewParser [])), Err errParamMismatch).
Proof.
  assert (H1 : ParseFloat "1" 64 = inl 1%Q) by run.
  assert (H2 : ParseFloat "2" 64 = inl 2%Q) by run.
  assert (H3 : ParseFloat "3" 64 = inl 3%Q) by run.
  split; [exact H1 |]. split; [exact H2 |]. split; [exact H3 |].
  apply (param_mismatch_exactly
           (RT := Reference.runtime) "M1 2 3" (NewParser [])
           (set_points [1; 2; 3]%Q (init (NewParser []))) 1%Q 2%Q 3%Q
           H1 H2 H3).
Defined.

Lemma unknown_letter_by_mode_witness :
  recognized "X"%char = false /\
  GetPoints "5 5" (set_ErrMode WarnErrorMode (NewParser []))
  = (set_points [5; 5]%Q (set_ErrMode WarnErrorMode (NewParser [])), Ok tt) /\
  addSeg "X5 5" (set_ErrMode WarnErrorMode (NewParser []))
  = (after_skip "X"%char
       (set_points [5; 5]%Q (set_ErrMode WarnErrorMode (NewParser []))), Ok tt) /\
  (exists p', CompilePath "M1 2 X5 5" (set_ErrMode WarnErrorMode (NewParser []))
              = (p', Ok tt) /\
              dc p' = dc (set_ErrMode WarnErrorMode (NewParser []))
                      ++ [MoveTo 1 2; ClosePath]%Q).
Proof.
  assert (Hk : recognized "X"%char = false) by run.
  assert (Hargs : GetPoints "5 5" (set_ErrMode WarnErrorMode (NewParser []))
                  = (set_points [5; 5]%Q
                       (set_ErrMode WarnErrorMode (NewParser [])), Ok tt)) by run.
  assert (H1 : ParseFloat "1" 64 = inl 1%Q) by run.
  assert (H2 : ParseFloat "2" 64 = inl 2%Q) by run.
  assert (H5 : ParseFloat "5" 64 = inl 5%Q) by run.
  assert (Hmode : ErrMode (set_ErrMode WarnErrorMode (NewParser []))
                  <> StrictErrorMode) by (vm_compute; discriminate).
  pose proof (unknown_letter_by_mode
                (RT := Reference.runtime)
                "X"%char "5 5" (set_ErrMode WarnErrorMode (NewParser [])) _
                [] 1%Q 2%Q 5%Q Hk Hargs H1 H2 H5)
    as (_ & Hskip & _ & Hrun & _).
  split; [exact Hk |]. split; [exact Hargs |].
  split; [exact (proj1 (Hskip Hmode)) | exact (Hrun Hmode)].
Defined.

(** C7, as stated, fails: under the ignore and warn modes the segment
    "X-", whose letter has no case in the switch, is not skipped; its
    argument text does not parse, and CompilePath returns that error, in
    strict mode as well, where the claim has UnknownCommand. *)
Lemma unknown_letter_not_skipped_counterexample :
  recognized "X"%char = false /\
  ErrMode (NewParser []) = IgnoreErrorMode /\
  addSeg "X-" (NewParser []) = (NewParser [], Err (errNum tt)) /\
  snd (CompilePath "M1 2 X-" (NewParser [])) = Err (errNum tt) /\
  snd (CompilePath "M1 2 X-" (set_ErrMode WarnErrorMode (NewParser [])))
  = Err (errNum tt) /\
  snd (CompilePath "M1 2 X-" (set_ErrMode StrictErrorMode (NewParser [])))
  = Err (errNum tt) /\
  snd (CompilePath "M1 2 X-" (NewParser [])) <> Ok tt /\
  snd (CompilePath "M1 2 X-" (set_ErrMode StrictErrorMode (NewParser [])))
  <> Err errCommandUnknown.
Proof. repeat split; try run; vm_compute; discriminate. Qed.

Lemma error_aborts_rest_witness :
  segments "M1 2 L3 4 M5 6" = ["M1 2 "; "L3 4 "; "M5 6"] /\
  segments "M1 2 L3 4 Z" = ["M1 2 "; "L3 4 "; "Z"] /\
  for_each addSeg ["M1 2 "] (init (NewParser []))
  = (after_move "M"%char 1%Q 2%Q [] (set_points [1; 2]%Q (init (NewParser []))),
     Ok tt) /\
  CompilePath "M1 2 L3 4 M5 6" (NewParser [])
  = (set_points [3; 4]%Q
       (after_move "M"%char 1%Q 2%Q [] (set_points [1; 2]%Q (init (NewParser [])))),
     Err errNotImplemented) /\
  CompilePath "M1 2 L3 4 Z" (NewParser [])
  = CompilePath "M1 2 L3 4 M5 6" (NewParser []).
Proof.
  assert (Hsegs : segments "M1 2 L3 4 M5 6" = ["M1 2 "] ++ "L3 4 " :: ["M5 6"])
    by run.
  assert (Hsegs' : segments "M1 2 L3 4 Z" = ["M1 2 "] ++ "L3 4 " :: ["Z"])
    by run.
  assert (Hpre : for_each addSeg ["M1 2 "] (init (NewParser []))
                 = (after_move "M"%char 1%Q 2%Q []
                      (set_points [1; 2]%Q (init (NewParser []))), Ok tt)) by run.
  assert (Hseg : addSeg "L3 4 "
                   (after_move "M"%char 1%Q 2%Q []
                      (set_points [1; 2]%Q (init (NewParser []))))
                 = (set_points [3; 4]%Q
                      (after_move "M"%char 1%Q 2%Q []
                         (set_points [1; 2]%Q (init (NewParser [])))),
                    Err errNotImplemented)) by run.
  pose proof (error_aborts_rest
                (RT := Reference.runtime)
                "M1 2 L3 4 M5 6" "M1 2 L3 4 Z" (NewParser []) _ _
                ["M1 2 "] ["M5 6"] ["Z"] "L3 4 " errNotImplemented
                Hsegs Hsegs' Hpre Hseg)
    as (H1 & H2 & _).
  split; [exact Hsegs |]. split; [exact Hsegs' |]. split; [exact Hpre |].
  split; [exact H1 |]. rewrite H1, H2. reflexivity.
Defined.

Lemma unimplemented_always_fatal_witness :
  key_in "L"%char unimplemented_keys = true /\
  segments "M1 2 L3 4" = ["M1 2 "; "L3 4"] /\
  exists p',
    addSeg "L3 4"
      (after_move "M"%char 1%Q 2%Q [] (set_points [1; 2]%Q (init (NewParser []))))
    = (p', Err errNotImplemented) /\
    CompilePath "M1 2 L3 4" (NewParser []) = (p', Err errNotImplemented).
Proof.
  assert (Hk : key_in "L"%char unimplemented_keys = true) by run.
  assert (Hsegs : segments "M1 2 L3 4" = ["M1 2 "] ++ String "L" "3 4" :: [])
    by run.
  assert (Hpre : for_each addSeg ["M1 2 "] (init (NewParser []))
                 = (after_move "M"%char 1%Q 2%Q []
                      (set_points [1; 2]%Q (init (NewParser []))), Ok tt)) by run.
  assert (Hargs : GetPoints "3 4"
                    (after_move "M"%char 1%Q 2%Q []
                       (set_points [1; 2]%Q (init (NewParser []))))
                  = (set_points [3; 4]%Q
                       (after_move "M"%char 1%Q 2%Q []
                          (set_points [1; 2]%Q (init (NewParser [])))), Ok tt))
    by run.
  destruct (unimplemented_always_fatal
              (RT := Reference.runtime)
              "L"%char "3 4" "M1 2 L3 4" _ _ (NewParser []) ["M1 2 "] []
              Hk Hargs Hsegs Hpre)
    as (p' & Hseg & _ & _ & Hrun).
  split; [exact Hk |]. split; [exact Hsegs |].
  exists p'. split; [exact Hseg | exact Hrun].
Defined.

(** C9, as stated, fails: the segment "L-" does not end in
    NotImplemented; its argument text does not parse, and that error is
    what CompilePath returns. *)
Lemma unimplemented_parse_error_counterexample :
  key_in "L"%char unimplemented_keys = true /\
  addSeg "L-" (NewParser []) = (NewParser [], Err (errNum tt)) /\
  snd (CompilePath "L-" (NewParser [])) = Err (errNum tt) /\
  snd (CompilePath "M1 2 L1.2.3.e" (NewParser [])) = Err (errNum tt) /\
  snd (CompilePath "L-" (NewParser [])) <> Err errNotImplemented.
Proof. repeat split; try run; vm_compute; discriminate. Qed.

Lemma single_close_at_end_witness :
  CompilePath "M1 2 3 4 Z" (NewParser [])
  = (emit ClosePath
       (after_close "Z"%char
          (set_points []
             (after_move "M"%char 1%Q 2%Q [3; 4]%Q
                (set_points [1; 2; 3; 4]%Q (init (NewParser [])))))), Ok tt) /\
  (exists cs, dc (emit ClosePath
                    (after_close "Z"%char
                       (set_points []
                          (after_move "M"%char 1%Q 2%Q [3; 4]%Q
                             (set_points [1; 2; 3; 4]%Q (init (NewParser [])))))))
              = dc (NewParser []) ++ cs ++ [ClosePath] /\
              forallb is_draw cs = true) /\
  CompilePath EmptyString (NewParser []) = (emit ClosePath (init (NewParser [])), Ok tt).
Proof.
  assert (Hok : CompilePath "M1 2 3 4 Z" (NewParser [])
                = (emit ClosePath
                     (after_close "Z"%char
                        (set_points []
                           (after_move "M"%char 1%Q 2%Q [3; 4]%Q
                              (set_points [1; 2; 3; 4]%Q (init (NewParser [])))))),
                   Ok tt)) by run.
  assert (Hk : key_in "Z"%char close_keys = true) by run.
  assert (Hz : addSeg (String "Z" EmptyString)
                 (after_move "M"%char 1%Q 2%Q [3; 4]%Q
                    (set_points [1; 2; 3; 4]%Q (init (NewParser []))))
               = (after_close "Z"%char
                    (set_points []
                       (after_move "M"%char 1%Q 2%Q [3; 4]%Q
                          (set_points [1; 2; 3; 4]%Q (init (NewParser []))))),
                  Ok tt)) by run.
  pose proof (single_close_at_end
                (RT := Reference.runtime)
                "M1 2 3 4 Z" (NewParser []) _ "Z"%char EmptyString _ _ Hok Hk Hz)
    as (Hone & Hempty & _).
  split; [exact Hok |]. split; [exact Hone | exact Hempty].
Defined.

Lemma uppercase_exponent_is_split_witness :
  ParseFloat "1e2" 64 = inl 100%Q /\
  segments "M1E2 3" = ["M1"; "E2 3"] /\
  CompilePath "M1E2 3" (NewParser [])
  = (set_points [1%Q] (init (NewParser [])), Err errParamMismatch) /\
  (exists p', CompilePath "M1e2 3" (NewParser []) = (p', Ok tt) /\
              dc p' = dc (NewParser []) ++ [MoveTo 100 3; ClosePath]%Q).
Proof.
  assert (H1 : ParseFloat "1" 64 = inl 1%Q) by run.
  assert (H100 : ParseFloat "1e2" 64 = inl 100%Q) by run.
  assert (H3 : ParseFloat "3" 64 = inl 3%Q) by run.
  pose proof (uppercase_exponent_is_split
                (RT := Reference.runtime) (NewParser []) 1%Q 100%Q 3%Q H1 H100 H3)
    as (_ & _ & Hsegs & _ & _ & _ & HE & He).
  split; [exact H100 |]. split; [exact Hsegs |]. split; [exact HE | exact He].
Defined.

(** *** Examples for the further properties *)

#[local] Existing Instance ReferenceArith.arith.

Lemma trimSuffixes_strips_unit_witness :
  plain_number "12" = true /\ In "px" unitSuffixes /\
  trimSuffixes "12px" = "12" /\
  parseFloat "12px" 64 = ParseFloat "12" 64.
Proof.
  assert (Ha : plain_number "12" = true) by run.
  assert (Hu : In "px" unitSuffixes) by (right; right; left; reflexivity).
  split; [exact Ha |]. split; [exact Hu |].
  apply (trimSuffixes_strips_unit (RT := Reference.runtime) "12" "px" 64 Ha Hu).
Defined.

Lemma trimSuffixes_table_order_witness :
  plain_number "3" = true /\
  trimSuffixes "3pxpt" = "3px" /\ trimSuffixes "3ptpx" = "3".
Proof.
  assert (Ha : plain_number "3" = true) by run.
  assert (Hpx : unitSuffixes !! 2%nat = Some "px") by reflexivity.
  assert (Hpt : unitSuffixes !! 3%nat = Some "pt") by reflexivity.
  split; [exact Ha |]. split.
  - exact (trimSuffixes_table_order "3" "px" "pt" 2 3 Ha Hpx Hpt).
  - exact (trimSuffixes_table_order "3" "pt" "px" 3 2 Ha Hpt Hpx).
Defined.

Lemma hasSetsOrMore_even_size_witness :
  0 < 4 /\ Z.even 4 = true /\
  exists p',
    hasSetsOrMore 4 true (set_points [1; 2; 3; 4; 5; 6; 7; 8]%Q (NewParser []))
    = (p', Ok true) /\
    length (points p') = 8%nat.
Proof.
  assert (Hsz : 0 < 4) by reflexivity.
  assert (Heven : Z.even 4 = true) by reflexivity.
  split; [exact Hsz |]. split; [exact Heven |].
  destruct (hasSetsOrMore_even_size
              (RT := Reference.runtime) 4 true
              (set_points [1; 2; 3; 4; 5; 6; 7; 8]%Q (NewParser [])) Hsz Heven)
    as (p' & Hrun & _ & Hlen & _).
  exists p'. split; [exact Hrun | exact Hlen].
Defined.


Lemma hasSetsOrMore_pairs_absolute_witness :
  hasSetsOrMore 2 true (set_place 10%Q 20%Q (set_points [1; 2; 3; 4]%Q (NewParser [])))
  = (set_points
       (rel_pairs 10%Q 20%Q [1; 2; 3; 4]%Q)
       (set_place 10%Q 20%Q (set_points [1; 2; 3; 4]%Q (NewParser []))), Ok true) /\
  rel_pairs 10%Q 20%Q [1; 2; 3; 4]%Q = [11; 22; 14; 26]%Q.
Proof.
  assert (Hlen : length (points (set_place 10%Q 20%Q
                                   (set_points [1; 2; 3; 4]%Q (NewParser []))))
                 = (2 * 2)%nat) by run.
  assert (Hn : (1 <= 2)%nat) by (apply le_S, le_n).
  split; [| run].
  exact (hasSetsOrMore_pairs_absolute
           (RT := Reference.runtime) (NumError := unit) 2 _ Hlen Hn).
Defined.

Lemma ReadFloat_single_number_witness :
  (dots "1.5" <= 1)%nat /\
  ReadFloat "1.5" (NewParser [])
  = (set_points [(3 # 2)%Q] (NewParser []), Ok tt).
Proof.
  assert (Hd : (dots "1.5" <= 1)%nat) by (vm_compute; apply le_n).
  split; [exact Hd |].
  exact (ReadFloat_single_number (RT := Reference.runtime) "1.5" (NewParser []) Hd).
Defined.

Lemma ReadFloat_appends_witness :
  ReadFloat "1.5.25" (set_points [7]%Q (NewParser []))
  = (set_points [7; 3 # 2; 1 # 4]%Q (NewParser []), Ok tt) /\
  exists vs,
    set_points [7; 3 # 2; 1 # 4]%Q (NewParser [])
    = set_points ([7]%Q ++ vs) (set_points [7]%Q (NewParser [])) /\
    length vs = 2%nat.
Proof.
  assert (Hok : ReadFloat "1.5.25" (set_points [7]%Q (NewParser []))
                = (set_points [7; 3 # 2; 1 # 4]%Q (NewParser []), Ok tt)) by run.
  split; [exact Hok |].
  exact (ReadFloat_appends (RT := Reference.runtime) _ _ _ Hok).
Defined.

Lemma tokens_split_at_boundary_witness :
  is_boundary (last_rune "1.5") (rune_of ",") = true /\
  is_boundary (last_rune "1") (rune_of "-") = true /\
  token_list "1.5,2" = token_list "1.5" ++ token_list ",2" /\
  token_list "1-2" = token_list "1" ++ token_list "-2".
Proof.
  assert (Hc : byte_val ","%char < 128) by reflexivity.
  assert (Hm : byte_val "-"%char < 128) by reflexivity.
  assert (Hb : is_boundary (last_rune "1.5") (rune_of ",") = true) by run.
  assert (Hb' : is_boundary (last_rune "1") (rune_of "-") = true) by run.
  split; [exact Hb |]. split; [exact Hb' |]. split.
  - exact (proj1 (tokens_split_at_boundary
                    (RT := Reference.runtime) "1.5" "2" ","%char Hc Hb)).
  - exact (proj1 (tokens_split_at_boundary
                    (RT := Reference.runtime) "1" "2" "-"%char Hm Hb')).
Defined.

Lemma tokens_hold_no_unit_witness :
  In "10" (token_list "10 20") /\
  trimSuffixes "10" = "10" /\ parseFloat "10" 64 = ParseFloat "10" 64.
Proof.
  assert (Ht : In "10" (token_list "10 20")) by (vm_compute; left; reflexivity).
  split; [exact Ht |].
  exact (proj2 (proj2 (tokens_hold_no_unit
                         (RT := Reference.runtime) "10 20" "10" 64 Ht))).
Defined.

Lemma CompilePath_without_command_witness :
  no_command "12 34" = true /\
  CompilePath "12 34" (NewParser [])
  = (emit ClosePath (init (NewParser [])), Ok tt).
Proof.
  assert (Hno : no_command "12 34" = true) by run.
  split; [exact Hno |].
  exact (proj2 (CompilePath_without_command
                  (RT := Reference.runtime) "12 34" (NewParser []) Hno)).
Defined.

Lemma segments_split_at_command_witness :
  is_command (rune_of "Z") = true /\
  no_command "12 " = true /\
  segments "M1 2Z" = segments "M1 2" ++ segments "Z" /\
  CompilePath "12 M1 2" (NewParser []) = CompilePath "M1 2" (NewParser []).
Proof.
  assert (Hc : byte_val "Z"%char < 128) by reflexivity.
  assert (Hc' : byte_val "M"%char < 128) by reflexivity.
  assert (Hz : is_command (rune_of "Z") = true) by run.
  assert (Hm : is_command (rune_of "M") = true) by run.
  assert (Hno : no_command "12 " = true) by run.
  split; [exact Hz |]. split; [exact Hno |]. split.
  - exact (proj1 (segments_split_at_command
                    (RT := Reference.runtime) "M1 2" EmptyString "Z"%char (NewParser []) Hc Hz)).
  - exact (proj2 (segments_split_at_command
                    (RT := Reference.runtime) "12 " "1 2" "M"%char (NewParser []) Hc' Hm)
                 Hno).
Defined.

Lemma CompilePath_errors_witness :
  CompilePath "M1 2 X" (set_ErrMode StrictErrorMode (NewParser []))
  = (fst (CompilePath "M1 2 X" (set_ErrMode StrictErrorMode (NewParser []))),
     Err errCommandUnknown) /\
  ErrMode (set_ErrMode (float64 := Q) StrictErrorMode (NewParser []))
  = StrictErrorMode.
Proof.
  assert (Herr : CompilePath "M1 2 X" (set_ErrMode StrictErrorMode (NewParser []))
                 = (fst (CompilePath "M1 2 X"
                           (set_ErrMode StrictErrorMode (NewParser []))),
                    Err errCommandUnknown)) by run.
  split; [exact Herr |].
  exact (proj1 (proj2 (CompilePath_errors (RT := Reference.runtime) _ _ _ _ Herr))
               eq_refl).
Defined.

Lemma CompilePath_logs_skipped_only_witness :
  exists ls,
    logged (fst (CompilePath "M1 2 X Y" (set_ErrMode WarnErrorMode (NewParser []))))
    = logged (set_ErrMode (float64 := Q) WarnErrorMode (NewParser [])) ++ ls /\
    Forall warning_line ls.
Proof.
  assert (Hrun : CompilePath "M1 2 X Y" (set_ErrMode WarnErrorMode (NewParser []))
                 = (fst (CompilePath "M1 2 X Y"
                           (set_ErrMode WarnErrorMode (NewParser []))), Ok tt))
    by run.
  destruct (CompilePath_logs_skipped_only (RT := Reference.runtime) _ _ _ _ Hrun)
    as (ls & Hl & Hw & _).
  exists ls. split; [exact Hl | exact Hw].
Defined.

Lemma CompilePath_keeps_settings_witness :
  ErrMode (fst (CompilePath "M1 2 L3 4" (set_ErrMode WarnErrorMode (NewParser []))))
  = WarnErrorMode.
Proof.
  assert (Hrun : CompilePath "M1 2 L3 4" (set_ErrMode WarnErrorMode (NewParser []))
                 = (fst (CompilePath "M1 2 L3 4"
                           (set_ErrMode WarnErrorMode (NewParser []))),
                    Err errNotImplemented)) by run.
  exact (proj1 (CompilePath_keeps_settings (RT := Reference.runtime) _ _ _ _ Hrun)).
Defined.

Lemma CompilePath_last_key_witness :
  lastKey (fst (CompilePath "M1 2 z" (NewParser []))) = "z"%char.
Proof.
  assert (Hok : CompilePath "M1 2 z" (NewParser [])
                = (fst (CompilePath "M1 2 z" (NewParser [])), Ok tt)) by run.
  exact (proj1 (CompilePath_last_key (RT := Reference.runtime) _ _ _ Hok)).
Defined.

Lemma reflectControl_after_CompilePath_witness :
  reflectControlQuad (NumError := unit) (fst (CompilePath "M1 2 3 4" (NewParser [])))
  = (set_cntlPt 3%Q 4%Q (fst (CompilePath "M1 2 3 4" (NewParser []))), Ok tt).
Proof.
  assert (Hok : CompilePath "M1 2 3 4" (NewParser [])
                = (fst (CompilePath "M1 2 3 4" (NewParser [])), Ok tt)) by run.
  exact (proj1 (reflectControl_after_CompilePath
                  (RT := Reference.runtime) (AR := ReferenceArith.arith) _ _ _ Hok)).
Defined.

Lemma CompilePath_forgets_history_witness :
  exists q' cs,
    CompilePath "m1 2 3 4 Z"
      (set_pathStart 5%Q 5%Q (set_place 7%Q 7%Q (emit (LineTo 9%Q 9%Q) (NewParser []))))
    = (q', Ok tt) /\
    dc (fst (CompilePath "m1 2 3 4 Z" (NewParser []))) = [] ++ cs /\
    dc q' = [LineTo 9 9]%Q ++ cs.
Proof.
  assert (Hmode : ErrMode (NewParser (float64 := Q) [])
                  = ErrMode (set_pathStart 5%Q 5%Q
                               (set_place 7%Q 7%Q (emit (LineTo 9%Q 9%Q) (NewParser [])))))
    by reflexivity.
  assert (Hrun : CompilePath "m1 2 3 4 Z" (NewParser [])
                 = (fst (CompilePath "m1 2 3 4 Z" (NewParser [])), Ok tt)) by run.
  destruct (CompilePath_forgets_history
              (RT := Reference.runtime) _ _ _ _ _ Hmode Hrun)
    as (q' & cs & ls & Hq & D1 & D2 & _).
  exists q', cs. split; [exact Hq |]. split; [exact D1 | exact D2].
Defined.

Lemma fresh_parser_skips_silently_witness :
  logged (fst (CompilePath "M1 2 X3 Z" (NewParser []))) = [] /\
  snd (CompilePath "M1 2 X3 Z" (NewParser [])) = Ok tt.
Proof.
  assert (Hrun : CompilePath "M1 2 X3 Z" (NewParser [])
                 = (fst (CompilePath "M1 2 X3 Z" (NewParser [])), Ok tt)) by run.
  split; [| run].
  exact (proj1 (proj2 (fresh_parser_skips_silently
                         (RT := Reference.runtime) _ _ _ _ Hrun))).
Defined.

Lemma move_resolves_against_cursor_witness :
  exists p',
    addSeg "m1 2 3 4" (set_place 10%Q 20%Q (NewParser [])) = (p', Ok tt) /\
    dc p' = dc (set_place 10%Q 20%Q (NewParser []))
            ++ MoveTo 11%Q 22%Q :: line_calls [14; 26]%Q /\
    (placeX p', placeY p') = last_pair 11%Q 22%Q [14; 26]%Q.
Proof.
  assert (Hk : key_in "m"%char move_keys = true) by run.
  assert (Hargs : GetPoints "1 2 3 4" (set_place 10%Q 20%Q (NewParser []))
                  = (set_points [1; 2; 3; 4]%Q (set_place 10%Q 20%Q (NewParser [])),
                     Ok tt)) by run.
  assert (Hlen : length (points (set_points [1; 2; 3; 4]%Q
                                   (set_place 10%Q 20%Q (NewParser []))))
                 = (2 * 2)%nat) by run.
  assert (Hres : (if key_is "m"%char "m"
                  then rel_pairs (placeX (set_place 10%Q 20%Q (NewParser [])))
                                 (placeY (set_place 10%Q 20%Q (NewParser [])))
                                 (points (set_points [1; 2; 3; 4]%Q
                                            (set_place 10%Q 20%Q (NewParser []))))
                  else points (set_points [1; 2; 3; 4]%Q
                                 (set_place 10%Q 20%Q (NewParser []))))
                 = 11%Q :: 22%Q :: [14; 26]%Q) by run.
  destruct (move_resolves_against_cursor
              (RT := Reference.runtime) "m"%char "1 2 3 4" _ _ 1%nat
              11%Q 22%Q [14; 26]%Q Hk Hargs Hlen Hres)
    as (p' & Hrun & Hdc & _ & Hplace & _).
  exists p'. split; [exact Hrun |]. split; [exact Hdc | exact Hplace].
Defined.

Lemma stubs_do_not_disturb_witness :
  exists p2 q' cs,
    AddArcFromA (NumError := unit) []
      (fst (EllipseAt (NumError := unit) 1%Q 2%Q 3%Q 4%Q (NewParser [])))
    = (p2, Ok tt) /\
    CompilePath "M1 2 3 4" p2 = (q', Ok tt) /\
    dc q' = dc (NewParser []) ++ cs /\
    dc (fst (CompilePath "M1 2 3 4" (NewParser []))) = dc (NewParser []) ++ cs.
Proof.
  assert (Hrun : CompilePath "M1 2 3 4" (NewParser [])
                 = (fst (CompilePath "M1 2 3 4" (NewParser [])), Ok tt)) by run.
  destruct (stubs_do_not_disturb
              (RT := Reference.runtime) 1%Q 2%Q 3%Q 4%Q [] _ _ _ _ Hrun)
    as (p1 & p2 & q' & cs & H1 & H2 & _ & _ & Hq & D1 & D2).
  exists p2, q', cs. split.
  - rewrite H1. exact H2.
  - split; [exact Hq |]. split; [exact D2 | exact D1].
Defined.
